(** * Sharding cluster: shard-to-server topology, lookups, sub-clusters, fan-out

    A shallow embedding of the file of the sharding package that declares
    [Cluster], [NewClusterWithGen], [SubCluster] and the [ForEach*] family,
    together with the properties of its specification, and of the naming of
    the logical shards of shard.go.

    Conventions.
    - Go's [int] and [int64] are 64-bit two's-complement integers; they are
      modelled as [Z], with the wrap-around written out ([wrap64]) wherever
      the source performs arithmetic that could leave the range.
    - [*pg.DB] is a pointer: handles are compared, and used as map keys, by
      address.  The store of [pg.DB] objects is explicit ([Heap]).
    - A Go panic is the [Panic] result; it carries the message. *)

From stdpp Require Import gmap strings list fin_maps pretty sorting.
From Stdlib Require Import ZArith Lia.

Local Open Scope Z_scope.

(** ** Go runtime: results, integers, slices *)

Inductive Result (A : Type) : Type :=
| Ok (a : A)
| Panic (msg : string).
Arguments Ok {A} a.
Arguments Panic {A} msg.

Definition divide_error : string := "runtime error: integer divide by zero".
Definition index_error : string := "runtime error: index out of range".
Definition makeslice_error : string := "runtime error: makeslice: len out of range".
Definition nil_error : string :=
  "runtime error: invalid memory address or nil pointer dereference".

(** Values of a 64-bit signed integer type. *)
Definition is_int64 (z : Z) : Prop := - 2 ^ 63 <= z < 2 ^ 63.

(** Reduction of a mathematical integer to its 64-bit two's-complement
    representative. *)
Definition wrap64 (z : Z) : Z := (z + 2 ^ 63) mod 2 ^ 64 - 2 ^ 63.

(** [a % b]: the remainder of the truncated division (its sign follows the
    dividend); a zero divisor panics. *)
Definition go_rem (a b : Z) : Result Z :=
  if decide (b = 0) then Panic divide_error else Ok (Z.rem a b).

(** [a / b]: truncated division; a zero divisor panics. *)
Definition go_div (a b : Z) : Result Z :=
  if decide (b = 0) then Panic divide_error else Ok (wrap64 (Z.quot a b)).

(** [a * b] on [int]. *)
Definition go_mul (a b : Z) : Z := wrap64 (a * b).

(** [a + b] on [int]. *)
Definition go_add (a b : Z) : Z := wrap64 (a + b).

(** [len(s)]. *)
Definition len {A} (s : list A) : Z := Z.of_nat (length s).

(** [s[i]]: an index outside [0, len(s)) panics. *)
Definition index {A} (s : list A) (i : Z) : Result A :=
  if decide (i < 0) then Panic index_error
  else match s !! Z.to_nat i with
       | Some x => Ok x
       | None => Panic index_error
       end.

(** [s[i] = x] on a slice stored in a variable: returns the updated slice. *)
Definition index_set {A} (s : list A) (i : Z) (x : A) : Result (list A) :=
  if decide (i < 0) then Panic index_error
  else if decide (Z.to_nat i < length s)%nat then Ok (<[Z.to_nat i := x]> s)
  else Panic index_error.

(** [strconv.FormatInt(id, 10)]. *)
Definition FormatInt (id : Z) : string := pretty id.

(** ** The pg client, at the interface the cluster uses *)

(** A [*pg.DB]: nil, or the address of a [pg.DB] object. *)
Inductive ptr : Type :=
| Nil
| Addr (a : nat).

Global Instance ptr_eq_dec : EqDecision ptr.
Proof. solve_decision. Defined.

Global Instance ptr_countable : Countable ptr.
Proof.
  refine (inj_countable'
            (fun p => match p with Nil => None | Addr a => Some a end)
            (fun o => match o with None => Nil | Some a => Addr a end) _).
  by intros [|a].
Defined.

(** A value passed to [WithParam]: an [int64], or a field name wrapped by
    [types.F]. *)
Inductive Param : Type :=
| PInt64 (z : Z)
| PField (name : string).

(** The part of a [pg.DB] object the cluster observes: the [*Options] it
    answers from [Options()] (an address, compared by identity) and the named
    parameters of its formatter. *)
Record pgDB : Type := mkDB {
  opt : nat;
  params : gmap string Param
}.

(** The store of [pg.DB] objects; an object's address is its position. *)
Abbreviation Heap := (list pgDB).

Definition rbind {A B} (r : Result A) (k : A -> Result B) : Result B :=
  match r with
  | Ok a => k a
  | Panic msg => Panic msg
  end.

Notation "'let?' x ':=' r 'in' k" := (rbind r (fun x => k))
  (at level 10, x name, r at level 100, k at level 200).

(** Computations that allocate in the store and may panic. *)
Definition M (A : Type) : Type := Heap -> Result (A * Heap).

Definition ret {A} (a : A) : M A := fun h => Ok (a, h).

Definition panic {A} (msg : string) : M A := fun _ => Panic msg.

Definition bind {A B} (m : M A) (k : A -> M B) : M B :=
  fun h => match m h with
           | Ok (a, h') => k a h'
           | Panic msg => Panic msg
           end.

Definition lift {A} (r : Result A) : M A :=
  fun h => match r with
           | Ok a => Ok (a, h)
           | Panic msg => Panic msg
           end.

Notation "'let!' x ':=' m 'in' k" := (bind m (fun x => k))
  (at level 10, x name, m at level 100, k at level 200).

(** [*db]: dereferencing nil panics. *)
Definition deref (h : Heap) (db : ptr) : option pgDB :=
  match db with
  | Nil => None
  | Addr a => h !! a
  end.

(** [db.Options()]. *)
Definition Options (h : Heap) (db : ptr) : option nat := opt <$> deref h db.

(** [db.WithParam(param, value)]: a new [pg.DB] that shares the options (and
    the connection pool) of [db] and whose formatter has [param] set to
    [value]. *)
Definition WithParam (db : ptr) (param : string) (value : Param) : M ptr :=
  fun h => match deref h db with
           | None => Panic nil_error
           | Some o =>
               Ok (Addr (length h),
                   h ++ [ {| opt := opt o;
                             params := <[param := value]> (params o) |} ])
           end.

(** ** The identifier generator *)

(** Modelled from the spec: the type [IdGen] and its method [NumShards] are
    declared outside this file.  The generator has a configurable epoch and
    reserves a number of bits for the shard field of an id; [NumShards] is the
    maximum shard count representable by that field, a power of two. *)
Record IdGen : Type := mkIdGen {
  shardBits : N;
  epoch : Z
}.

(** Modelled from the spec: [gen.NumShards()], the maximum shard count the
    shard field of an id can represent. *)
Definition NumShards (g : IdGen) : Z := 2 ^ Z.of_N (shardBits g).

(** ** Cluster *)

(** The cluster: its generator, the distinct servers, the placement list
    ([dbs], as the caller passed it) and the shard handles. *)
Record Cluster : Type := mkCluster {
  gen : IdGen;
  servers : list ptr;
  dbs : list ptr;
  shards : list ptr
}.

(** [make([]*pg.DB, n)]. *)
Definition make_slice (n : Z) : Result (list ptr) :=
  if decide (n < 0) then Panic makeslice_error
  else Ok (replicate (Z.to_nat n) Nil).

(** [cl.newShard(db, id)]. *)
Definition newShard (cl : Cluster) (db : ptr) (id : Z) : M ptr :=
  let name := "shard" +:+ FormatInt id in
  let! d1 := WithParam db "shard_id" (PInt64 id) in
  let! d2 := WithParam d1 "shard" (PField name) in
  WithParam d2 "epoch" (PInt64 (epoch (gen cl))).

(** The first loop of [init]: [l] is what remains of [cl.dbs], [dbSet] the
    set of handles seen so far and [acc] the value of [cl.servers]. *)
Fixpoint init_servers (l : list ptr) (dbSet : gset ptr) (acc : list ptr)
  : list ptr :=
  match l with
  | [] => acc
  | db :: rest =>
      if decide (db ∈ dbSet) then init_servers rest dbSet acc
      else init_servers rest ({[db]} ∪ dbSet) (acc ++ [db])
  end.

(** The second loop of [init], from index [i], with [todo] iterations left
    ([todo = len(cl.shards) - i]). *)
Fixpoint init_shards (todo : nat) (i : Z) (cl : Cluster) : M Cluster :=
  match todo with
  | O => ret cl
  | S todo' =>
      let! k := lift (go_rem i (len (dbs cl))) in
      let! db := lift (index (dbs cl) k) in
      let! s := newShard cl db i in
      let! ss := lift (index_set (shards cl) i s) in
      init_shards todo' (i + 1)
        {| gen := gen cl; servers := servers cl; dbs := dbs cl; shards := ss |}
  end.

(** [cl.init()]. *)
Definition init (cl : Cluster) : M Cluster :=
  let cl' := {| gen := gen cl;
                servers := init_servers (dbs cl) ∅ (servers cl);
                dbs := dbs cl;
                shards := shards cl |} in
  init_shards (length (shards cl')) 0 cl'.

Section WithDefault.

(** The package-level default generator, declared outside this file. *)
Variable DefaultIdGen : IdGen.

(** [NewClusterWithGen(dbs, nshards, gen)]; a nil [gen] is [None]. *)
Definition NewClusterWithGen (dbs0 : list ptr) (nshards : Z)
  (gen0 : option IdGen) : M Cluster :=
  let g := match gen0 with None => DefaultIdGen | Some g => g end in
  if decide (len dbs0 = 0) then panic "at least one db is required"
  else if decide (nshards = 0) then panic "at least on shard is required"
  else if decide (len dbs0 > NumShards g ∨ nshards > NumShards g)
       then panic "too many shards"
  else if decide (nshards < len dbs0)
       then panic "number of shards must be greater or equal number of dbs"
  else
    let! r := lift (go_rem nshards (len dbs0)) in
    if decide (r ≠ 0)
    then panic "number of shards must be divideable by number of dbs"
    else
      let! ss := lift (make_slice nshards) in
      init {| gen := g; servers := []; dbs := dbs0; shards := ss |}.

(** [NewCluster(dbs, nshards)]. *)
Definition NewCluster (dbs0 : list ptr) (nshards : Z) : M Cluster :=
  NewClusterWithGen dbs0 nshards None.

End WithDefault.

(** An [error] value; [None] is nil. *)
Definition error : Type := option string.

(** [cl.Close()].  [pgClose] is the client's [Close] method of [pg.DB]: it
    acts on the state of the connections ([World]) and answers an error.
    Besides the returned error and the final state, the loop records every
    call it makes together with its answer. *)
Section Close.

Context {World : Type} (pgClose : ptr -> World -> error * World).

Fixpoint Close_loop (l : list ptr) (retErr : error) (w : World)
  (calls : list (ptr * error)) : error * World * list (ptr * error) :=
  match l with
  | [] => (retErr, w, calls)
  | db :: rest =>
      let '(err, w') := pgClose db w in
      let retErr' :=
        match err, retErr with
        | Some _, None => err
        | _, _ => retErr
        end in
      Close_loop rest retErr' w' (calls ++ [(db, err)])
  end.

Definition Close (cl : Cluster) (w : World)
  : error * World * list (ptr * error) :=
  Close_loop (servers cl) None w [].

End Close.

(** [cl.DBs()]. *)
Definition DBs (cl : Cluster) : list ptr := dbs cl.

(** [cl.DB(number)]. *)
Definition DB (cl : Cluster) (number : Z) : Result ptr :=
  let? number1 := go_rem number (len (shards cl)) in
  let? number2 := go_rem number1 (len (dbs cl)) in
  index (dbs cl) number2.

(** [cl.Shard(number)]. *)
Definition Shard (cl : Cluster) (number : Z) : Result ptr :=
  let? number1 := go_rem number (len (shards cl)) in
  index (shards cl) number1.

(** ** SubCluster *)

(** A sub-cluster: its cluster and its window of shard handles. *)
Record SubCluster : Type := mkSubCluster {
  sub_cl : Cluster;
  sub_shards : list ptr
}.

(** The copying loop of [cl.SubCluster], from index [i], with [todo]
    iterations left ([todo = size - i]); [ss] is the slice being filled. *)
Fixpoint SubCluster_loop (cl : Cluster) (clusterId : Z) (todo : nat) (i : Z)
  (ss : list ptr) : Result (list ptr) :=
  match todo with
  | O => Ok ss
  | S todo' =>
      let? s := index (shards cl) (go_add clusterId i) in
      let? ss' := index_set ss i s in
      SubCluster_loop cl clusterId todo' (i + 1) ss'
  end.

(** [cl.SubCluster(number, size)]. *)
Definition Cluster_SubCluster (cl : Cluster) (number size : Z)
  : Result SubCluster :=
  let size := if decide (size > len (shards cl)) then len (shards cl)
              else size in
  let? step := go_div (len (shards cl)) size in
  let? r := go_rem number step in
  let clusterId := go_mul r size in
  let? ss := make_slice size in
  let? ss' := SubCluster_loop cl clusterId (Z.to_nat size) 0 ss in
  Ok {| sub_cl := cl; sub_shards := ss' |}.

(** ** Fan-out *)

(** The engine runs goroutines; their steps interleave.  An execution is a
    sequence of steps of a transition system whose state holds the program
    point of every goroutine, the wait group, the channels, and the list of
    the calls of the caller's function made so far.  The caller's function is
    observed through the handle it is called on and the error it answers. *)

(** The non-blocking send on an error channel of capacity one,
    [select { case errCh <- err: default: }]: the channel keeps what it
    holds. *)
Definition try_send (errCh : error) (e : string) : error :=
  match errCh with
  | None => Some e
  | Some _ => errCh
  end.

(** [shard.Options() != db.Options()]; a nil handle panics. *)
Definition Options_differ (h : Heap) (shard db : ptr) : Result bool :=
  match Options h shard, Options h db with
  | Some a, Some b => Ok (bool_decide (a <> b))
  | _, _ => Panic nil_error
  end.

(** What a function passed to [ForEachDB] does on one server: the calls of
    the caller's function it makes, in order, and then its answer (or a
    panic). *)
Definition Outcome : Type := list ptr * Result error.

(** *** The function [ForEachShard] passes to [ForEachDB] *)

(** The loop over [l], the rest of [cl.shards]; [calls] are the calls made so
    far. *)
Fixpoint ForEachShard_fn (h : Heap) (fn : ptr -> error) (db : ptr)
  (l : list ptr) (firstErr : error) (calls : list ptr) : Outcome :=
  match l with
  | [] => (calls, Ok firstErr)
  | shard :: rest =>
      match Options_differ h shard db with
      | Panic msg => (calls, Panic msg)
      | Ok true => ForEachShard_fn h fn db rest firstErr calls
      | Ok false =>
          let firstErr' :=
            match fn shard, firstErr with
            | Some e, None => Some e
            | _, _ => firstErr
            end in
          ForEachShard_fn h fn db rest firstErr' (calls ++ [shard])
      end
  end.

(** *** The function [ForEachNShards] passes to [ForEachDB] *)

(** The program point of a goroutine started for a shard. *)
Inductive Worker : Type :=
| WCall (shard : ptr)  (* about to call [fn(shard)] *)
| WSend (e : string)   (* [fn] answered [e]; about to try [errCh <- err] *)
| WRelease             (* deferred: about to receive from [limit] *)
| WDone                (* deferred: about to call [wg.Done()] *)
| WGone.               (* finished *)

(** The state of one call of the function. *)
Record Pool : Type := mkPool {
  p_rest : list ptr;       (* the shards the loop has yet to visit *)
  p_workers : list Worker; (* the goroutines started so far *)
  p_limit : nat;           (* the number of tokens in [limit] *)
  p_wg : nat;              (* the counter of [wg] *)
  p_errCh : error;         (* the content of [errCh] *)
  p_calls : list ptr       (* the calls of [fn] made so far *)
}.

(** A configuration: a state, or the end of the execution with its
    outcome. *)
Inductive PoolConf : Type :=
| PLive (p : Pool)
| PEnd (o : Outcome).

Definition makechan_error : string := "makechan: size out of range".

(** The state after the three declarations; a negative capacity panics. *)
Definition Pool_init (n : Z) (l : list ptr) : PoolConf :=
  if decide (n < 0) then PEnd ([], Panic makechan_error)
  else PLive (mkPool l [] 0 0 None []).

(** One step of the loop or of one of the goroutines. *)
Inductive Pool_step (h : Heap) (n : Z) (fn : ptr -> error) (db : ptr)
  : PoolConf -> PoolConf -> Prop :=
| P_skip shard rest ws lim wg ch calls :
    (* the options differ: continue *)
    Options_differ h shard db = Ok true ->
    Pool_step h n fn db
      (PLive (mkPool (shard :: rest) ws lim wg ch calls))
      (PLive (mkPool rest ws lim wg ch calls))
| P_nil shard rest ws lim wg ch calls msg :
    Options_differ h shard db = Panic msg ->
    Pool_step h n fn db
      (PLive (mkPool (shard :: rest) ws lim wg ch calls))
      (PEnd (calls, Panic msg))
| P_go shard rest ws lim wg ch calls :
    (* [limit <- struct{}{}] needs room in the channel; then [wg.Add(1)]
       and the [go] statement *)
    Options_differ h shard db = Ok false ->
    Z.of_nat lim < n ->
    Pool_step h n fn db
      (PLive (mkPool (shard :: rest) ws lim wg ch calls))
      (PLive (mkPool rest (ws ++ [WCall shard]) (S lim) (S wg) ch calls))
| P_call i shard rest ws lim wg ch calls :
    ws !! i = Some (WCall shard) ->
    Pool_step h n fn db
      (PLive (mkPool rest ws lim wg ch calls))
      (PLive (mkPool rest
                (<[i := match fn shard with
                        | Some e => WSend e
                        | None => WRelease
                        end]> ws)
                lim wg ch (calls ++ [shard])))
| P_send i e rest ws lim wg ch calls :
    ws !! i = Some (WSend e) ->
    Pool_step h n fn db
      (PLive (mkPool rest ws lim wg ch calls))
      (PLive (mkPool rest (<[i := WRelease]> ws) lim wg (try_send ch e) calls))
| P_release i rest ws lim wg ch calls :
    ws !! i = Some WRelease ->
    Pool_step h n fn db
      (PLive (mkPool rest ws (S lim) wg ch calls))
      (PLive (mkPool rest (<[i := WDone]> ws) lim wg ch calls))
| P_done i rest ws lim wg ch calls :
    ws !! i = Some WDone ->
    Pool_step h n fn db
      (PLive (mkPool rest ws lim (S wg) ch calls))
      (PLive (mkPool rest (<[i := WGone]> ws) lim wg ch calls))
| P_return ws lim ch calls :
    (* [wg.Wait()] passes when the counter is zero; then the receive from
       [errCh], or nil *)
    Pool_step h n fn db
      (PLive (mkPool [] ws lim 0 ch calls))
      (PEnd (calls, Ok ch)).

(** The outcomes of the function: the ends of its executions. *)
Definition ForEachNShards_fn (h : Heap) (n : Z) (fn : ptr -> error) (db : ptr)
  (l : list ptr) (o : Outcome) : Prop :=
  rtc (Pool_step h n fn db) (Pool_init n l) (PEnd o).

(** *** ForEachDB *)

(** The program point of the goroutine started for a server. *)
Inductive TaskPc : Type :=
| TRun (k : nat)  (* inside [fn(db)], after [k] calls of the caller's [fn] *)
| TSend           (* [fn] answered an error; about to try [errCh <- err] *)
| TDone           (* deferred: about to call [wg.Done()] *)
| TGone.          (* finished *)

(** A goroutine: what its [fn(db)] does (one of the outcomes of the
    function on its server, fixed when the goroutine starts), and where it
    is. *)
Record Task : Type := mkTask {
  t_out : Outcome;
  t_pc : TaskPc
}.

(** The state of one call of [ForEachDB]. *)
Record Fan : Type := mkFan {
  f_rest : list ptr;   (* the servers the loop has yet to visit *)
  f_tasks : list Task; (* the goroutines started so far *)
  f_wg : nat;          (* the counter of [wg] *)
  f_errCh : error;     (* the content of [errCh] *)
  f_calls : list ptr   (* the calls of the caller's function made so far *)
}.

(** A configuration: a state, or the end of the execution with its
    outcome. *)
Inductive FanConf : Type :=
| FLive (f : Fan)
| FEnd (o : Outcome).

(** The state after [wg.Add(len(cl.servers))]. *)
Definition Fan_init (cl : Cluster) : FanConf :=
  FLive (mkFan (servers cl) [] (length (servers cl)) None []).

(** One step of the loop or of one of the goroutines.  [body db o]: [o] is
    an outcome of the function passed to [ForEachDB], on the server [db]. *)
Inductive Fan_step (body : ptr -> Outcome -> Prop)
  : FanConf -> FanConf -> Prop :=
| F_go db rest ts wg ch calls o :
    body db o ->
    Fan_step body
      (FLive (mkFan (db :: rest) ts wg ch calls))
      (FLive (mkFan rest (ts ++ [mkTask o (TRun 0)]) wg ch calls))
| F_call i tr a k c rest ts wg ch calls :
    ts !! i = Some (mkTask (tr, a) (TRun k)) ->
    tr !! k = Some c ->
    Fan_step body
      (FLive (mkFan rest ts wg ch calls))
      (FLive (mkFan rest (<[i := mkTask (tr, a) (TRun (S k))]> ts) wg ch
                (calls ++ [c])))
| F_nil i tr rest ts wg ch calls :
    ts !! i = Some (mkTask (tr, Ok None) (TRun (length tr))) ->
    Fan_step body
      (FLive (mkFan rest ts wg ch calls))
      (FLive (mkFan rest (<[i := mkTask (tr, Ok None) TDone]> ts) wg ch calls))
| F_err i tr e rest ts wg ch calls :
    ts !! i = Some (mkTask (tr, Ok (Some e)) (TRun (length tr))) ->
    Fan_step body
      (FLive (mkFan rest ts wg ch calls))
      (FLive (mkFan rest (<[i := mkTask (tr, Ok (Some e)) TSend]> ts) wg ch
                calls))
| F_panic i tr msg rest ts wg ch calls :
    ts !! i = Some (mkTask (tr, Panic msg) (TRun (length tr))) ->
    Fan_step body
      (FLive (mkFan rest ts wg ch calls))
      (FEnd (calls, Panic msg))
| F_send i tr e rest ts wg ch calls :
    ts !! i = Some (mkTask (tr, Ok (Some e)) TSend) ->
    Fan_step body
      (FLive (mkFan rest ts wg ch calls))
      (FLive (mkFan rest (<[i := mkTask (tr, Ok (Some e)) TDone]> ts) wg
                (try_send ch e) calls))
| F_done i o rest ts wg ch calls :
    ts !! i = Some (mkTask o TDone) ->
    Fan_step body
      (FLive (mkFan rest ts (S wg) ch calls))
      (FLive (mkFan rest (<[i := mkTask o TGone]> ts) wg ch calls))
| F_return ts ch calls :
    (* [wg.Wait()] passes when the counter is zero; then the receive from
       [errCh], or nil *)
    Fan_step body
      (FLive (mkFan [] ts 0 ch calls))
      (FEnd (calls, Ok ch)).

(** The executions of [cl.ForEachDB] with a function whose outcomes are
    [body]: [o] holds the calls of the caller's function, in the order they
    were made, and the returned error (or the panic). *)
Definition ForEachDB_with (cl : Cluster) (body : ptr -> Outcome -> Prop)
  (o : Outcome) : Prop :=
  rtc (Fan_step body) (Fan_init cl) (FEnd o).

(** The function [ForEachDB] is given by its caller, [fn]: on a server it is
    one call, and its answer. *)
Definition plain_fn (fn : ptr -> error) (db : ptr) (o : Outcome) : Prop :=
  o = ([db], Ok (fn db)).

(** [cl.ForEachDB(fn)]. *)
Definition ForEachDB (cl : Cluster) (fn : ptr -> error) (o : Outcome) : Prop :=
  ForEachDB_with cl (plain_fn fn) o.

(** The outcome, on a server, of the function [cl.ForEachShard(fn)] passes
    to [ForEachDB]. *)
Definition ForEachShard_outcome (h : Heap) (cl : Cluster) (fn : ptr -> error)
  (db : ptr) (o : Outcome) : Prop :=
  o = ForEachShard_fn h fn db (shards cl) None [].

(** [cl.ForEachShard(fn)]. *)
Definition ForEachShard (h : Heap) (cl : Cluster) (fn : ptr -> error)
  (o : Outcome) : Prop :=
  ForEachDB_with cl (ForEachShard_outcome h cl fn) o.

(** The outcomes, on a server, of the function [cl.ForEachNShards(n, fn)]
    passes to [ForEachDB]. *)
Definition ForEachNShards_outcome (h : Heap) (cl : Cluster) (n : Z)
  (fn : ptr -> error) (db : ptr) (o : Outcome) : Prop :=
  ForEachNShards_fn h n fn db (shards cl) o.

(** [cl.ForEachNShards(n, fn)]. *)
Definition ForEachNShards (h : Heap) (cl : Cluster) (n : Z)
  (fn : ptr -> error) (o : Outcome) : Prop :=
  ForEachDB_with cl (ForEachNShards_outcome h cl n fn) o.

(** No execution of [cl.ForEachDB] with a function whose outcomes are [body]
    gets stuck: whatever steps have been made, the call can still be run to
    its end. *)
Definition never_stuck (cl : Cluster) (body : ptr -> Outcome -> Prop) : Prop :=
  forall c,
    rtc (Fan_step body) (Fan_init cl) c ->
    exists o, rtc (Fan_step body) c (FEnd o).

(** Every execution of [cl.ForEachDB] with a function whose outcomes are
    [body] comes to its end: it never gets stuck, and the number of steps it
    makes is bounded. *)
Definition always_ends (cl : Cluster) (body : ptr -> Outcome -> Prop) : Prop :=
  never_stuck cl body
  /\ exists N, forall n c,
      nsteps (Fan_step body) n (Fan_init cl) c -> (n <= N)%nat.

(** ** Further operations of the cluster and of its sub-clusters *)

(** The loop of [cl.Shards(db)] over [l], the rest of [cl.shards], from index
    [i]; [acc] is the slice built so far. *)
Fixpoint Shards_loop (cl : Cluster) (db : ptr) (l : list ptr) (i : Z)
  (acc : list ptr) : Result (list ptr) :=
  match l with
  | [] => Ok acc
  | shard :: rest =>
      let? k := go_rem i (len (dbs cl)) in
      let? d := index (dbs cl) k in
      Shards_loop cl db rest (i + 1)
        (if decide (d = db) then acc ++ [shard] else acc)
  end.

(** [cl.Shards(db)]. *)
Definition Shards (cl : Cluster) (db : ptr) : Result (list ptr) :=
  if decide (db = Nil) then Ok (shards cl)
  else Shards_loop cl db (shards cl) 0 [].

(** [cl.Shard(number)] on a sub-cluster. *)
Definition SubCluster_Shard (sc : SubCluster) (number : Z) : Result ptr :=
  let? number1 := go_rem number (len (sub_shards sc)) in
  index (sub_shards sc) number1.

(** The outcome, on a server, of the function [ForEachShard] of a
    sub-cluster passes to [ForEachDB]. *)
Definition SubCluster_ForEachShard_outcome (h : Heap) (sc : SubCluster)
  (fn : ptr -> error) (db : ptr) (o : Outcome) : Prop :=
  o = ForEachShard_fn h fn db (sub_shards sc) None [].

(** [cl.ForEachShard(fn)] on a sub-cluster. *)
Definition SubCluster_ForEachShard (h : Heap) (sc : SubCluster)
  (fn : ptr -> error) (o : Outcome) : Prop :=
  ForEachDB_with (sub_cl sc) (SubCluster_ForEachShard_outcome h sc fn) o.

(** The outcomes, on a server, of the function [ForEachNShards] of a
    sub-cluster passes to [ForEachDB]. *)
Definition SubCluster_ForEachNShards_outcome (h : Heap) (sc : SubCluster)
  (n : Z) (fn : ptr -> error) (db : ptr) (o : Outcome) : Prop :=
  ForEachNShards_fn h n fn db (sub_shards sc) o.

(** [cl.ForEachNShards(n, fn)] on a sub-cluster. *)
Definition SubCluster_ForEachNShards (h : Heap) (sc : SubCluster) (n : Z)
  (fn : ptr -> error) (o : Outcome) : Prop :=
  ForEachDB_with (sub_cl sc) (SubCluster_ForEachNShards_outcome h sc n fn) o.

(** ** The logical shard of shard.go *)

(** The [Shard] struct: its id, its database handle and the pairs of
    strings [oldnew]; its replacer is [strings.NewReplacer(oldnew...)], a
    function of [oldnew], and is not stored again. *)
Record LogicalShard : Type := mkLogicalShard {
  shard_id_field : Z;
  shard_DB : ptr;
  shard_oldnew : list string
}.

(** [shard.Id()]. *)
Definition Shard_Id (shard : LogicalShard) : Z := shard_id_field shard.

(** [shard.Name()]. *)
Definition Shard_Name (shard : LogicalShard) : string :=
  "shard" +:+ FormatInt (shard_id_field shard).

(** [shard.String()]. *)
Definition Shard_String (shard : LogicalShard) : string := Shard_Name shard.

(** * Notions of the specification *)

(** ** Construction *)

(** The object a shard handle points to: the server's options, and the
    server's parameters extended by [newShard]. *)
Definition shardObj (g : IdGen) (o : pgDB) (id : Z) : pgDB :=
  {| opt := opt o;
     params := <["epoch" := PInt64 (epoch g)]>
                 (<["shard" := PField ("shard" +:+ FormatInt id)]>
                    (<["shard_id" := PInt64 id]> (params o))) |}.

(** A shard handle [s] of index [id] derived from the server handle [db]:
    it answers the options of [db] and carries the shard parameters. *)
Definition shard_of (g : IdGen) (h : Heap) (s db : ptr) (id : Z) : Prop :=
  exists o, deref h db = Some o /\ deref h s = Some (shardObj g o id).

(** The state of a cluster that [NewClusterWithGen] has returned, in the
    store it has returned. *)
Record constructed (h : Heap) (cl : Cluster) : Prop := {
  c_dbs_pos : 1 <= len (dbs cl);
  c_shards_ge : len (dbs cl) <= len (shards cl);
  c_shards_rem : Z.rem (len (shards cl)) (len (dbs cl)) = 0;
  c_max : len (shards cl) <= NumShards (gen cl);
  c_servers : servers cl = init_servers (dbs cl) ∅ [];
  c_bound : forall j, 0 <= j < len (shards cl) ->
    exists s db,
      shards cl !! Z.to_nat j = Some s
      /\ dbs cl !! Z.to_nat (j mod len (dbs cl)) = Some db
      /\ shard_of (gen cl) h s db j
}.

(** The generator a cluster is built with: the default one when the caller
    passes nil. *)
Definition gen_or (D : IdGen) (gen0 : option IdGen) : IdGen :=
  match gen0 with None => D | Some g => g end.

(** The configuration errors [NewClusterWithGen] checks for. *)
Definition invariant_violated (g : IdGen) (dbs0 : list ptr) (nshards : Z)
  : Prop :=
  len dbs0 = 0 \/ nshards = 0
  \/ len dbs0 > NumShards g \/ nshards > NumShards g
  \/ nshards < len dbs0
  \/ Z.rem nshards (len dbs0) <> 0.

(** ** Lookups *)

(** The single-modulus form of the server lookup, as the specification
    words it: [placementList[number mod len(placementList)]]. *)
Definition DB_single (cl : Cluster) (number : Z) : Result ptr :=
  let? number1 := go_rem number (len (dbs cl)) in
  index (dbs cl) number1.

(** The shard lookup with the remainder normalized to be non-negative, as
    the specification words it. *)
Definition Shard_normalized (cl : Cluster) (number : Z) : Result ptr :=
  index (shards cl) (number mod len (shards cl)).

(** Every handle of the list points to a [pg.DB] object of the store (none
    is nil). *)
Definition valid_handles (h : Heap) (l : list ptr) : Prop :=
  Forall (fun db => is_Some (deref h db)) l.

(** ** Close *)

(** The first non-nil error of a sequence of answers. *)
Fixpoint first_error (l : list error) : error :=
  match l with
  | [] => None
  | Some e :: _ => Some e
  | None :: rest => first_error rest
  end.

(** Closing the handles of a list one after another, whatever they answer. *)
Fixpoint close_each {World : Type} (pgClose : ptr -> World -> error * World)
  (l : list ptr) (w : World) : list (ptr * error) * World :=
  match l with
  | [] => ([], w)
  | db :: rest =>
      let '(err, w') := pgClose db w in
      let '(calls, w'') := close_each pgClose rest w' in
      ((db, err) :: calls, w'')
  end.

(** ** Interleavings *)

(** [interleave ls l]: the sequence [l] is obtained by taking, one at a
    time, the next element of one of the sequences [ls], until all are
    exhausted. *)
Inductive interleave {A : Type} : list (list A) -> list A -> Prop :=
| interleave_nil n : interleave (replicate n []) []
| interleave_snoc ls i a x l :
    interleave ls l ->
    ls !! i = Some a ->
    interleave (<[i := a ++ [x]]> ls) (l ++ [x]).

(** ** Configurations of ForEachDB *)

Global Instance TaskPc_eq_dec : EqDecision TaskPc.
Proof. solve_decision. Defined.

(** The calls a goroutine has made. *)
Definition consumed (t : Task) : list ptr :=
  match t_pc t with
  | TRun k => take k (t_out t).1
  | _ => (t_out t).1
  end.

(** The goroutine has not called [wg.Done()] yet. *)
Definition task_live (t : Task) : Prop := t_pc t <> TGone.

Global Instance task_live_dec t : Decision (task_live t).
Proof. unfold task_live. apply _. Defined.

(** The program point of a goroutine is consistent with what its function
    does. *)
Definition task_wf (t : Task) : Prop :=
  match t_pc t with
  | TRun k => (k <= length (t_out t).1)%nat
  | TSend => exists e, (t_out t).2 = Ok (Some e)
  | TDone | TGone => True
  end.

(** The number of steps a goroutine has yet to make. *)
Definition task_weight (t : Task) : nat :=
  match t_pc t with
  | TRun k => length (t_out t).1 - k + 3
  | TSend => 2
  | TDone => 1
  | TGone => 0
  end.

(** A bound on the number of steps left, when the function does [F]. *)
Definition fan_measure (F : ptr -> Outcome) (c : FanConf) : nat :=
  match c with
  | FLive f =>
      1 + sum_list_with (fun db => (length (F db).1 + 5)%nat) (f_rest f)
      + sum_list_with task_weight (f_tasks f)
  | FEnd _ => 0
  end.

(** What holds in every configuration an execution of [ForEachDB] reaches
    on the servers [srv]: every goroutine started runs an outcome of the
    function on its server, the calls made so far are an interleaving of the
    calls made by each goroutine, and the wait group counts the goroutines
    yet to start or to finish.  At the end, all outcomes have been run to
    completion. *)
Definition Fan_inv (body : ptr -> Outcome -> Prop) (srv : list ptr)
  (c : FanConf) : Prop :=
  match c with
  | FLive f =>
      (exists launched,
          srv = launched ++ f_rest f
          /\ Forall2 (fun db t => body db (t_out t)) launched (f_tasks f))
      /\ interleave (consumed <$> f_tasks f) (f_calls f)
      /\ f_wg f = (length (f_rest f)
                   + length (filter task_live (f_tasks f)))%nat
      /\ Forall task_wf (f_tasks f)
  | FEnd (calls, Ok _) =>
      exists outs, Forall2 body srv outs /\ interleave outs.*1 calls
  | FEnd (calls, Panic msg) =>
      exists db tr, db ∈ srv /\ body db (tr, Panic msg)
  end.

(** The effect of a goroutine's answer on the error channel. *)
Definition send_answer (ch : error) (o : Outcome) : error :=
  match o.2 with
  | Ok (Some e) => try_send ch e
  | _ => ch
  end.

(** ** Configurations of the pool of ForEachNShards *)

Global Instance Worker_eq_dec : EqDecision Worker.
Proof. solve_decision. Defined.

(** The goroutine holds a token of [limit]. *)
Definition holds_token (w : Worker) : Prop :=
  match w with
  | WCall _ | WSend _ | WRelease => True
  | WDone | WGone => False
  end.

Global Instance holds_token_dec w : Decision (holds_token w).
Proof. destruct w; simpl; apply _. Defined.

(** The goroutine has not called [wg.Done()] yet. *)
Definition worker_live (w : Worker) : Prop := w <> WGone.

Global Instance worker_live_dec w : Decision (worker_live w).
Proof. unfold worker_live. apply _. Defined.

(** What a goroutine has yet to do to the error channel and to the list of
    calls. *)
Definition absorb (fn : ptr -> error) (st : error * list ptr) (w : Worker)
  : error * list ptr :=
  match w with
  | WCall s =>
      (match fn s with Some e => try_send st.1 e | None => st.1 end,
       st.2 ++ [s])
  | WSend e => (try_send st.1 e, st.2)
  | _ => st
  end.

(** The number of steps a goroutine has yet to make. *)
Definition worker_weight (w : Worker) : nat :=
  match w with
  | WCall _ => 4
  | WSend _ => 3
  | WRelease => 2
  | WDone => 1
  | WGone => 0
  end.

(** A bound on the number of steps left. *)
Definition pool_measure (c : PoolConf) : nat :=
  match c with
  | PLive p =>
      1 + 5 * length (p_rest p) + sum_list_with worker_weight (p_workers p)
  | PEnd _ => 0
  end.

(** The handles of [l] and [db] are live: the comparison of the options
    does not panic. *)
Definition no_nil (h : Heap) (db : ptr) (l : list ptr) : Prop :=
  Forall (fun s => exists b, Options_differ h s db = Ok b) l.

(** With one token, every configuration the pool reaches has at most one
    goroutine holding the token, and finishing that goroutine and then
    running the sequential loop over the shards yet to visit gives the
    outcome [target]. *)
Definition Pool_inv1 (h : Heap) (fn : ptr -> error) (db : ptr)
  (target : Outcome) (c : PoolConf) : Prop :=
  match c with
  | PLive p =>
      p_limit p = length (filter holds_token (p_workers p))
      /\ (p_limit p <= 1)%nat
      /\ p_wg p = length (filter worker_live (p_workers p))
      /\ no_nil h db (p_rest p)
      /\ ForEachShard_fn h fn db (p_rest p)
           (foldl (absorb fn) (p_errCh p, p_calls p) (p_workers p)).1
           (foldl (absorb fn) (p_errCh p, p_calls p) (p_workers p)).2
         = target
  | PEnd o => o = target
  end.

(** ** Shards and their servers *)

(** The handle [s] answers the options of [db]. *)
Definition same_options (h : Heap) (db s : ptr) : Prop :=
  Options h s = Options h db.

Global Instance same_options_dec h db s : Decision (same_options h db s).
Proof. unfold same_options. apply _. Defined.

(** The value of the parameter [shard_id] of a handle. *)
Definition shard_id (h : Heap) (s : ptr) : option Z :=
  match deref h s with
  | Some o =>
      match params o !! "shard_id" with
      | Some (PInt64 id) => Some id
      | _ => None
      end
  | None => None
  end.

(** The server a shard handle is placed on: the entry of the placement list
    at its shard id modulo the length of the list. *)
Definition server_of (cl : Cluster) (h : Heap) (s : ptr) : option ptr :=
  match shard_id h s with
  | Some id => dbs cl !! Z.to_nat (id mod len (dbs cl))
  | None => None
  end.

(** Two handles of the list that answer the same options are the same
    handle. *)
Definition distinct_options (h : Heap) (l : list ptr) : Prop :=
  forall db1 db2,
    db1 ∈ l -> db2 ∈ l -> Options h db1 = Options h db2 -> db1 = db2.

(** ** Notions of the further properties *)

(** The shards of the list [l], whose first element has index [i], that the
    placement list binds to [db]. *)
Fixpoint placed_on (cl : Cluster) (db : ptr) (l : list ptr) (i : nat)
  : list ptr :=
  match l with
  | [] => []
  | s :: rest =>
      if decide (dbs cl !! (i mod length (dbs cl))%nat = Some db)
      then s :: placed_on cl db rest (S i)
      else placed_on cl db rest (S i)
  end.

(** The value of the parameter [shard] of a handle: the name of its
    schema. *)
Definition shard_name (h : Heap) (s : ptr) : option string :=
  match deref h s with
  | Some o =>
      match params o !! "shard" with
      | Some (PField name) => Some name
      | _ => None
      end
  | None => None
  end.

(** The distinct elements of a list, in the order of their first
    occurrence. *)
Fixpoint first_occurrences (l : list ptr) : list ptr :=
  match l with
  | [] => []
  | x :: rest => x :: filter (fun y => y <> x) (first_occurrences rest)
  end.

(** The window of [size] shards that starts at the shard of index
    [k * size]. *)
Definition window (cl : Cluster) (size k : Z) : list ptr :=
  take (Z.to_nat size) (drop (Z.to_nat (k * size)) (shards cl)).

(** What the error channel of [ForEachDB] holds, in every configuration an
    execution reaches: an error one of the goroutines has answered; and while
    it is empty, every goroutine past its send has answered nil.  A
    goroutine past the call of its function has not panicked. *)
Definition Fan_err_inv (c : FanConf) : Prop :=
  match c with
  | FLive f =>
      (forall e, f_errCh f = Some e ->
         exists o, o ∈ (t_out <$> f_tasks f) /\ o.2 = Ok (Some e))
      /\ (f_errCh f = None ->
          Forall (fun t => t_pc t = TDone \/ t_pc t = TGone ->
                           (t_out t).2 = Ok None) (f_tasks f))
      /\ Forall (fun t => t_pc t = TDone \/ t_pc t = TGone ->
                          exists e, (t_out t).2 = Ok e) (f_tasks f)
  | FEnd _ => True
  end.

(** The shard a goroutine of the pool has yet to call [fn] on. *)
Definition pending_call (w : Worker) : option ptr :=
  match w with
  | WCall s => Some s
  | _ => None
  end.

(** What the goroutine started for the shard [s] may be doing, when the
    error channel holds [ch]. *)
Definition worker_ok (fn : ptr -> error) (ch : error) (s : ptr) (w : Worker)
  : Prop :=
  match w with
  | WCall s' => s' = s
  | WSend e => fn s = Some e
  | WRelease | WDone | WGone => fn s = None \/ is_Some ch
  end.

(** What holds in every configuration the pool of [ForEachNShards] reaches
    on the server [db] and the shards [l], with [n] tokens: a goroutine has
    been started for every shard of the server that the loop has visited, the
    calls made and the calls yet to make are these shards, no more than [n]
    goroutines hold a token, and the error channel holds an error one of the
    calls has answered.  At the end [fn] has been called once on every shard
    of the server. *)
Definition Pool_inv (h : Heap) (n : Z) (fn : ptr -> error) (db : ptr)
  (l : list ptr) (c : PoolConf) : Prop :=
  match c with
  | PLive p =>
      exists started,
        filter (same_options h db) l
        = started ++ filter (same_options h db) (p_rest p)
        /\ no_nil h db (p_rest p)
        /\ Forall2 (worker_ok fn (p_errCh p)) started (p_workers p)
        /\ p_calls p ++ omap pending_call (p_workers p) ≡ₚ started
        /\ p_limit p = length (filter holds_token (p_workers p))
        /\ Z.of_nat (p_limit p) <= n
        /\ p_wg p = length (filter worker_live (p_workers p))
        /\ (forall e, p_errCh p = Some e ->
              exists s, s ∈ started /\ fn s = Some e)
  | PEnd (calls, r) =>
      calls ≡ₚ filter (same_options h db) l
      /\ exists e,
          r = Ok e
          /\ (forall x, e = Some x ->
                exists s, s ∈ filter (same_options h db) l /\ fn s = Some x)
          /\ (e = None ->
              forall s, s ∈ filter (same_options h db) l -> fn s = None)
  end.

(** A bound on the number of steps left, when the function makes at most
    [B] calls on a server. *)
Definition fan_bound (B : nat) (c : FanConf) : nat :=
  match c with
  | FLive f =>
      1 + (B + 5) * length (f_rest f)
      + sum_list_with task_weight (f_tasks f)
  | FEnd _ => 0
  end.

(** * Sample data *)

(** Sample data: a generator with 11 shard bits (2048 shards), and a store
    with two servers. *)
Definition sampleGen : IdGen := {| shardBits := 11; epoch := 0 |}.
Definition serverA : ptr := Addr 0.
Definition serverB : ptr := Addr 1.
Definition heapAB : Heap := [ mkDB 1 ∅; mkDB 2 ∅ ].

(** The cluster of the two servers with four shards, and the store after
    its construction. *)
Definition clusterAB : Cluster :=
  {| gen := sampleGen;
     servers := [serverA; serverB];
     dbs := [serverA; serverB];
     shards := [Addr 4; Addr 7; Addr 10; Addr 13] |}.

Definition heapAB4 : Heap :=
  Eval vm_compute in
    match NewClusterWithGen sampleGen [serverA; serverB] 4 None heapAB with
    | Ok (_, h') => h'
    | Panic _ => []
    end.

(** The cluster of the placement list [A, A, B, B] with four shards. *)
Definition clusterAABB : Cluster :=
  {| gen := sampleGen;
     servers := [serverA; serverB];
     dbs := [serverA; serverA; serverB; serverB];
     shards := [Addr 4; Addr 7; Addr 10; Addr 13] |}.

Definition heapAABB4 : Heap :=
  Eval vm_compute in
    match NewClusterWithGen sampleGen [serverA; serverA; serverB; serverB] 4
            None heapAB with
    | Ok (_, h') => h'
    | Panic _ => []
    end.

(** A client whose [Close] fails on [serverB] and on no other handle; the
    state of the connections is the list of the handles closed so far. *)
Definition closeB (db : ptr) (w : list ptr) : error * list ptr :=
  (if decide (db = serverB) then Some "closed" else None, w ++ [db]).

(** A store in which the two server handles answer the same options (as a
    handle and the handle [WithParam] derives from it do), and the cluster of
    these two handles with two shards. *)
Definition heapTwin : Heap := [ mkDB 1 ∅; mkDB 1 ∅ ].

Definition clusterTwin : Cluster :=
  {| gen := sampleGen;
     servers := [serverA; serverB];
     dbs := [serverA; serverB];
     shards := [Addr 4; Addr 7] |}.

Definition heapTwin2 : Heap :=
  Eval vm_compute in
    match NewClusterWithGen sampleGen [serverA; serverB] 2 None heapTwin with
    | Ok (_, h') => h'
    | Panic _ => []
    end.

(** A caller's function that fails on the shard at address 7. *)
Definition failOn7 (s : ptr) : error :=
  if decide (s = Addr 7) then Some "failed" else None.


(** A caller's function that fails on every handle, with an error that
    names [serverA] or not. *)
Definition failAll (db : ptr) : error :=
  if decide (db = serverA) then Some "A down" else Some "down".

(** * Properties *)

(** ** Facts about the runtime helpers *)

Lemma wrap64_id z : is_int64 z -> wrap64 z = z.
Proof.
  unfold is_int64, wrap64. intros Hz.
  rewrite Z.mod_small by lia. lia.
Qed.

Lemma index_Ok {A} (s : list A) (i : Z) (x : A) :
  index s i = Ok x <-> 0 <= i /\ s !! Z.to_nat i = Some x.
Proof.
  unfold index. destruct (decide (i < 0)) as [Hi|Hi].
  - split; [discriminate | lia].
  - destruct (s !! Z.to_nat i) as [y|]; split.
    + intros [= ->]. split; [lia | done].
    + by intros [_ [= ->]].
    + discriminate.
    + by intros [_ ?].
Qed.

Lemma deref_prefix h h' db o :
  deref h db = Some o -> h `prefix_of` h' -> deref h' db = Some o.
Proof.
  destruct db as [|a]; simpl; [discriminate |].
  intros Ho Hp. by eapply prefix_lookup_Some.
Qed.

(** ** Construction *)

Lemma deref_alloc (h : Heap) o : deref (h ++ [o]) (Addr (length h)) = Some o.
Proof. simpl. rewrite lookup_app_r by lia. by rewrite Nat.sub_diag. Qed.

Lemma WithParam_Ok db param value (h : Heap) o :
  deref h db = Some o ->
  WithParam db param value h =
    Ok (Addr (length h),
        h ++ [ {| opt := opt o; params := <[param := value]> (params o) |} ]).
Proof. intros Ho. unfold WithParam. by rewrite Ho. Qed.

Lemma newShard_Ok cl db id (h : Heap) o :
  deref h db = Some o ->
  exists h', newShard cl db id h = Ok (Addr (length h + 2), h')
    /\ h `prefix_of` h'
    /\ h' !! (length h + 2)%nat = Some (shardObj (gen cl) o id).
Proof.
  intros Ho. unfold newShard, bind.
  rewrite (WithParam_Ok _ _ _ _ _ Ho).
  rewrite (WithParam_Ok _ _ _ _ _ (deref_alloc h _)).
  rewrite (WithParam_Ok _ _ _ _ _ (deref_alloc _ _)).
  eexists. split; [| split].
  - rewrite !length_app. simpl. do 3 f_equal. lia.
  - rewrite <- !app_assoc. by apply prefix_app_r.
  - rewrite <- !app_assoc. rewrite lookup_app_r by lia.
    by replace (length h + 2 - length h)%nat with 2%nat by lia.
Qed.

Lemma newShard_inv cl db id h s h' :
  newShard cl db id h = Ok (s, h') ->
  exists o, deref h db = Some o /\ s = Addr (length h + 2)
    /\ h `prefix_of` h'
    /\ h' !! (length h + 2)%nat = Some (shardObj (gen cl) o id).
Proof.
  intros Hn. destruct (deref h db) as [o|] eqn:Ho.
  - destruct (newShard_Ok cl db id h o Ho) as (h1 & E & Hp & Hl).
    rewrite E in Hn. injection Hn as <- <-. eauto.
  - unfold newShard, bind, WithParam in Hn. by rewrite Ho in Hn.
Qed.

(** What the second loop of [init] establishes: the slots from [i] on hold
    the shards of their servers, the slots before [i] are untouched. *)
Lemma init_shards_inv todo : forall i cl (h : Heap) cl' (h' : Heap),
  0 <= i ->
  init_shards todo i cl h = Ok (cl', h') ->
  gen cl' = gen cl /\ servers cl' = servers cl /\ dbs cl' = dbs cl
  /\ length (shards cl') = length (shards cl)
  /\ h `prefix_of` h'
  /\ (forall j, 0 <= j < i -> shards cl' !! Z.to_nat j = shards cl !! Z.to_nat j)
  /\ (forall j, i <= j < i + Z.of_nat todo ->
        exists a db o,
          shards cl' !! Z.to_nat j = Some (Addr a)
          /\ dbs cl !! Z.to_nat (j mod len (dbs cl)) = Some db
          /\ deref h' db = Some o
          /\ h' !! a = Some (shardObj (gen cl) o j)).
Proof.
  induction todo as [|todo IH]; intros i cl h cl' h' Hi Hrun.
  - injection Hrun as <- <-. repeat split; auto. lia.
  - simpl in Hrun. unfold bind, lift in Hrun.
    unfold go_rem in Hrun.
    destruct (decide (len (dbs cl) = 0)) as [|Hlen]; [done |].
    destruct (index (dbs cl) (Z.rem i (len (dbs cl)))) as [db|] eqn:Hdb;
      [| done].
    destruct (newShard cl db i h) as [[s h1]|] eqn:Hs; [| done].
    destruct (index_set (shards cl) i s) as [ss|] eqn:Hss; [| done].
    apply newShard_inv in Hs as (o & Ho & -> & Hp1 & Hobj).
    apply index_Ok in Hdb as [_ Hdb].
    rewrite Z.rem_mod_nonneg in Hdb by (unfold len in *; lia).
    unfold index_set in Hss.
    destruct (decide (i < 0)); [lia |].
    destruct (decide (Z.to_nat i < length (shards cl))%nat) as [Hlt|];
      [| done].
    injection Hss as <-.
    apply IH in Hrun as (Hg & Hsv & Hd & Hl & Hp2 & Hlow & Hhigh); [| lia].
    simpl in *. rewrite length_insert in Hl.
    repeat split; auto.
    + by etrans.
    + intros j Hj. rewrite Hlow by lia.
      apply list_lookup_insert_ne. lia.
    + intros j Hj. destruct (decide (j = i)) as [->|Hne].
      * exists (length h + 2)%nat, db, o. repeat split.
        -- rewrite Hlow by lia. by apply list_lookup_insert_eq.
        -- done.
        -- eapply deref_prefix; [done | by etrans].
        -- by eapply prefix_lookup_Some.
      * apply Hhigh. lia.
Qed.

Lemma init_shards_Ok todo : forall i cl (h : Heap),
  0 <= i ->
  len (dbs cl) <> 0 ->
  (forall db, db ∈ dbs cl -> is_Some (deref h db)) ->
  i + Z.of_nat todo <= len (shards cl) ->
  exists cl' h', init_shards todo i cl h = Ok (cl', h').
Proof.
  induction todo as [|todo IH]; intros i cl h Hi Hlen Hvalid Hbound.
  - simpl. unfold ret. eauto.
  - simpl. unfold bind, lift, go_rem.
    destruct (decide (len (dbs cl) = 0)); [done |].
    assert (Hk : 0 <= Z.rem i (len (dbs cl)) < len (dbs cl)).
    { rewrite Z.rem_mod_nonneg by (unfold len in *; lia).
      apply Z.mod_pos_bound. unfold len in *. lia. }
    destruct (lookup_lt_is_Some_2 (dbs cl) (Z.to_nat (Z.rem i (len (dbs cl)))))
      as [db Hdb]; [unfold len in *; lia |].
    assert (Hidx : index (dbs cl) (Z.rem i (len (dbs cl))) = Ok db).
    { apply index_Ok. split; [lia | done]. }
    rewrite Hidx.
    destruct (Hvalid db) as [o Ho]; [by eapply list_elem_of_lookup_2 |].
    destruct (newShard_Ok cl db i h o Ho) as (h1 & -> & Hp & _).
    unfold index_set.
    destruct (decide (i < 0)); [lia |].
    destruct (decide (Z.to_nat i < length (shards cl))%nat);
      [| unfold len in *; lia].
    apply IH; simpl; auto; [lia | |].
    + intros db' Hin. destruct (Hvalid db' Hin) as [o' Ho'].
      exists o'. by eapply deref_prefix.
    + unfold len in *. rewrite length_insert. lia.
Qed.

(** What the first loop of [init] establishes: a duplicate-free list of the
    handles of [cl.dbs]. *)
Lemma init_servers_spec l : forall dbSet acc,
  (forall x, x ∈ dbSet <-> x ∈ acc) ->
  NoDup acc ->
  NoDup (init_servers l dbSet acc)
  /\ (forall x, x ∈ init_servers l dbSet acc <-> x ∈ acc \/ x ∈ l).
Proof.
  induction l as [|db rest IH]; intros dbSet acc Hset Hnd; simpl.
  - split; [done |]. intros x. rewrite elem_of_nil. tauto.
  - destruct (decide (db ∈ dbSet)) as [Hin|Hnin].
    + destruct (IH dbSet acc Hset Hnd) as [Hnd' Hel]. split; [done |].
      intros x. rewrite Hel, elem_of_cons.
      apply Hset in Hin. split; [tauto |].
      intros [?|[->|?]]; tauto.
    + destruct (IH ({[db]} ∪ dbSet) (acc ++ [db])) as [Hnd' Hel].
      * intros x. rewrite elem_of_union, elem_of_singleton, elem_of_app,
          list_elem_of_singleton, Hset. tauto.
      * apply NoDup_app. repeat split; [done | | apply NoDup_singleton].
        intros x Hx. rewrite list_elem_of_singleton. intros ->.
        apply Hnin, Hset, Hx.
      * split; [done |]. intros x.
        rewrite Hel, elem_of_app, list_elem_of_singleton, elem_of_cons. tauto.
Qed.

Lemma init_servers_NoDup l : NoDup (init_servers l ∅ []).
Proof.
  apply init_servers_spec; [| apply NoDup_nil_2].
  intros x. rewrite elem_of_nil. set_solver.
Qed.

Lemma init_servers_elem l x : x ∈ init_servers l ∅ [] <-> x ∈ l.
Proof.
  destruct (init_servers_spec l ∅ []) as [_ H].
  - intros y. rewrite elem_of_nil. set_solver.
  - apply NoDup_nil_2.
  - rewrite H, elem_of_nil. tauto.
Qed.


Lemma NewClusterWithGen_inv D dbs0 nshards gen0 (h : Heap) cl (h' : Heap) :
  NewClusterWithGen D dbs0 nshards gen0 h = Ok (cl, h') ->
  ~ invariant_violated (gen_or D gen0) dbs0 nshards
  /\ dbs cl = dbs0 /\ gen cl = gen_or D gen0 /\ len (shards cl) = nshards
  /\ h `prefix_of` h' /\ constructed h' cl.
Proof.
  unfold NewClusterWithGen. fold (gen_or D gen0). unfold panic.
  repeat (case_decide; [done |]).
  unfold bind, lift, go_rem. case_decide; [done |].
  case_decide; [done |].
  unfold make_slice. case_decide; [done |].
  unfold init. simpl. rewrite length_replicate.
  intros Hrun.
  apply init_shards_inv in Hrun as (Hg & Hsv & Hd & Hl & Hp & _ & Hhigh);
    [| lia].
  simpl in *. rewrite length_replicate in Hl.
  assert (Hlen : len (shards cl) = nshards) by (unfold len; lia).
  assert (Hnv : ~ invariant_violated (gen_or D gen0) dbs0 nshards).
  { unfold invariant_violated. unfold len in *. lia. }
  repeat split; auto.
  all: rewrite ?Hd, ?Hg, ?Hlen; unfold len in *; try lia; auto.
  intros j Hj. destruct (Hhigh j) as (a & db & o & Hs & Hdb & Ho & Hobj);
    [lia |].
  exists (Addr a), db. repeat split; auto. by exists o.
Qed.

Lemma NewClusterWithGen_Ok D dbs0 nshards gen0 (h : Heap) :
  ~ invariant_violated (gen_or D gen0) dbs0 nshards ->
  (forall db, db ∈ dbs0 -> is_Some (deref h db)) ->
  exists cl h', NewClusterWithGen D dbs0 nshards gen0 h = Ok (cl, h').
Proof.
  unfold invariant_violated, NewClusterWithGen. fold (gen_or D gen0).
  intros Hv Hvalid.
  repeat (case_decide; [exfalso; tauto |]).
  unfold bind, lift, go_rem. case_decide; [lia |].
  case_decide; [exfalso; tauto |].
  unfold make_slice. case_decide; [unfold len in *; lia |].
  unfold init. simpl. rewrite length_replicate.
  apply init_shards_Ok; simpl; auto; unfold len; rewrite ?length_replicate;
    lia.
Qed.

(** ** Lookups *)

Lemma rem_rem_multiple a n m :
  0 < m -> 0 < n -> Z.rem n m = 0 -> Z.rem (Z.rem a n) m = Z.rem a m.
Proof.
  intros Hm Hn Hdiv.
  assert (Hd : (m | n)).
  { apply Z.rem_divide; [lia | done]. }
  assert (Hpos : forall b, 0 <= b -> Z.rem (Z.rem b n) m = Z.rem b m).
  { intros b Hb.
    rewrite (Z.rem_mod_nonneg b n), (Z.rem_mod_nonneg b m) by lia.
    rewrite Z.rem_mod_nonneg;
      [| apply Z.mod_pos_bound; lia | lia].
    by apply Z.mod_mod_divide. }
  destruct (decide (0 <= a)) as [Ha|Ha]; [by apply Hpos |].
  assert (Hb : exists b, 0 <= b /\ a = - b) by (exists (- a); lia).
  destruct Hb as (b & Hb & ->).
  rewrite (Z.rem_opp_l b n), (Z.rem_opp_l _ m), (Z.rem_opp_l b m) by lia.
  by rewrite Hpos.
Qed.

Lemma constructed_lookup_shard (h : Heap) cl j :
  constructed h cl -> 0 <= j < len (shards cl) ->
  exists s, index (shards cl) j = Ok s.
Proof.
  intros Hc Hj. destruct (c_bound _ _ Hc j Hj) as (s & _ & Hs & _).
  exists s. apply index_Ok. split; [lia | done].
Qed.

Lemma index_neg {A} (s : list A) i : i < 0 -> index s i = Panic index_error.
Proof. intros Hi. unfold index. by case_decide. Qed.

Lemma rem_nonneg_mod a m : 0 < m -> 0 <= Z.rem a m -> a mod m = Z.rem a m.
Proof.
  intros Hm Hr. destruct (decide (0 <= a)) as [Ha|Ha].
  - by rewrite Z.rem_mod_nonneg by lia.
  - pose proof (Z.rem_bound_pos_neg a m Hm ltac:(lia)) as Hb.
    assert (Hz : Z.rem a m = 0) by lia.
    rewrite Hz. apply Z.rem_divide in Hz; [| lia].
    apply Z.mod_divide; [lia | done].
Qed.

Lemma sample_cluster_AABB :
  NewClusterWithGen sampleGen [serverA; serverA; serverB; serverB] 4 None
    heapAB
  = Ok (clusterAABB, heapAABB4).
Proof. vm_compute. reflexivity. Qed.

Lemma sample_cluster :
  NewClusterWithGen sampleGen [serverA; serverB] 4 None heapAB
    = Ok (clusterAB, heapAB4).
Proof. vm_compute. reflexivity. Qed.





(** C3, as the code has it.  [Shard] takes Go's truncated remainder and does
    not normalize it: for a non-negative number (and for a negative multiple
    of the shard count) it returns [shards[number mod shardCount]]; for any
    other negative number the remainder is negative and the lookup panics
    with an index out of range. *)
Theorem C3_Shard_truncated_remainder D dbs0 nshards gen0 (h : Heap) cl
  (h' : Heap) number :
  NewClusterWithGen D dbs0 nshards gen0 h = Ok (cl, h') ->
  (0 <= number \/ Z.rem number (len (shards cl)) = 0 ->
   Shard cl number = Shard_normalized cl number
   /\ exists s, Shard cl number = Ok s
                /\ shards cl !! Z.to_nat (number mod len (shards cl)) = Some s)
  /\ (number < 0 -> Z.rem number (len (shards cl)) <> 0 ->
      Shard cl number = Panic index_error).
Proof.
  intros Hnew.
  apply NewClusterWithGen_inv in Hnew as (_ & _ & _ & _ & _ & Hc).
  pose proof (c_dbs_pos _ _ Hc) as Hpos. pose proof (c_shards_ge _ _ Hc) as Hge.
  assert (Hn : 0 < len (shards cl)) by lia.
  unfold Shard, Shard_normalized, go_rem. simpl.
  destruct (decide (len (shards cl) = 0)); [lia |].
  split.
  - intros Hnum.
    assert (Hr : 0 <= Z.rem number (len (shards cl))).
    { destruct Hnum as [Hnum|Hnum]; [| lia].
      apply Z.rem_nonneg; lia. }
    rewrite (rem_nonneg_mod _ _ Hn Hr). split; [done |].
    destruct (constructed_lookup_shard h' cl (Z.rem number (len (shards cl))))
      as [s Hs]; [done | |].
    + split; [done |]. rewrite <- (rem_nonneg_mod _ _ Hn Hr).
      apply Z.mod_pos_bound. lia.
    + exists s. split; [done |]. by apply index_Ok in Hs as [_ Hs].
  - intros Hneg Hnz. apply index_neg.
    pose proof (Z.rem_bound_pos_neg number (len (shards cl)) Hn ltac:(lia)).
    lia.
Qed.

Lemma C3_witness :
  NewClusterWithGen sampleGen [serverA; serverB] 4 None heapAB
    = Ok (clusterAB, heapAB4)
  /\ Shard clusterAB 6 = Ok (Addr 10)
  /\ Shard clusterAB (-3) = Panic index_error.
Proof.
  split; [exact sample_cluster |].
  destruct (C3_Shard_truncated_remainder _ _ _ _ _ _ _ 6 sample_cluster)
    as [Hpos _].
  destruct (C3_Shard_truncated_remainder _ _ _ _ _ _ _ (-3) sample_cluster)
    as [_ Hneg].
  split.
  - destruct Hpos as [-> _]; [left; lia |]. reflexivity.
  - apply Hneg; [lia |]. vm_compute. congruence.
Defined.

(** C3, as the specification states it, fails: on the cluster of two servers
    and four shards, [Shard(-1)] panics, where the normalized remainder
    would select shard 3. *)
Lemma C3_counterexample :
  exists cl h',
    NewClusterWithGen sampleGen [serverA; serverB] 4 None heapAB = Ok (cl, h')
    /\ Shard_normalized cl (-1) = Ok (Addr 13)
    /\ Shard cl (-1) = Panic index_error.
Proof.
  exists clusterAB, heapAB4. split; [exact sample_cluster |].
  split; vm_compute; reflexivity.
Qed.

(** C4. On a constructed cluster the double-modulus resolution of [DB]
    equals the single-modulus form, for every number; and whenever [DB]
    returns a server, it is [placementList[number mod len(placementList)]]. *)
Theorem C4_DB_double_modulus D dbs0 nshards gen0 (h : Heap) cl (h' : Heap)
  number :
  NewClusterWithGen D dbs0 nshards gen0 h = Ok (cl, h') ->
  DB cl number = DB_single cl number
  /\ forall db, DB cl number = Ok db ->
       dbs cl !! Z.to_nat (number mod len (dbs cl)) = Some db.
Proof.
  intros Hnew.
  apply NewClusterWithGen_inv in Hnew as (_ & _ & _ & _ & _ & Hc).
  pose proof (c_dbs_pos _ _ Hc) as Hpos. pose proof (c_shards_ge _ _ Hc) as Hge.
  pose proof (c_shards_rem _ _ Hc) as Hrem.
  assert (E : DB cl number = DB_single cl number).
  { unfold DB, DB_single, go_rem. simpl.
    destruct (decide (len (shards cl) = 0)); [lia |].
    destruct (decide (len (dbs cl) = 0)); [lia |]. simpl.
    by rewrite rem_rem_multiple by lia. }
  split; [done |].
  intros db. rewrite E. unfold DB_single, go_rem.
  destruct (decide (len (dbs cl) = 0)); [lia |]. simpl.
  intros [Hr Hdb]%index_Ok. by rewrite rem_nonneg_mod by lia.
Qed.

Lemma C4_witness :
  NewClusterWithGen sampleGen [serverA; serverB] 4 None heapAB
    = Ok (clusterAB, heapAB4)
  /\ DB clusterAB 5 = DB_single clusterAB 5
  /\ DB clusterAB 5 = Ok serverB
  /\ DB clusterAB 1 = Ok serverB.
Proof.
  split; [exact sample_cluster |].
  destruct (C4_DB_double_modulus _ _ _ _ _ _ _ 5 sample_cluster) as [E _].
  split; [exact E |]. split; reflexivity.
Defined.

(** ** Sub-clusters *)

Lemma SubCluster_loop_Ok cl clusterId todo : forall i (ss : list ptr),
  0 <= clusterId ->
  len (shards cl) < 2 ^ 63 ->
  clusterId + Z.of_nat i + Z.of_nat todo <= len (shards cl) ->
  (i + todo <= length ss)%nat ->
  SubCluster_loop cl clusterId todo (Z.of_nat i) ss
    = Ok (take i ss
          ++ take todo (drop (Z.to_nat clusterId + i) (shards cl))
          ++ drop (i + todo) ss).
Proof.
  induction todo as [|todo IH]; intros i ss Hc Hint Hb Hl; simpl.
  - rewrite Nat.add_0_r. by rewrite take_drop.
  - unfold go_add. rewrite wrap64_id by (unfold is_int64, len in *; lia).
    destruct (lookup_lt_is_Some_2 (shards cl) (Z.to_nat clusterId + i))
      as [s Hs]; [unfold len in *; lia |].
    assert (Hidx : index (shards cl) (clusterId + Z.of_nat i) = Ok s).
    { apply index_Ok. split; [lia |].
      by replace (Z.to_nat (clusterId + Z.of_nat i))
        with (Z.to_nat clusterId + i)%nat by lia. }
    rewrite Hidx. simpl. unfold index_set.
    destruct (decide (Z.of_nat i < 0)); [lia |].
    rewrite Nat2Z.id.
    destruct (decide (i < length ss)%nat); [| lia]. simpl.
    replace (Z.of_nat i + 1) with (Z.of_nat (S i)) by lia.
    rewrite IH; [| done | done | lia | rewrite length_insert; lia].
    f_equal.
    rewrite (take_S_r _ _ s) by (apply list_lookup_insert_eq; lia).
    rewrite take_insert_ge by lia.
    rewrite drop_insert_lt by lia.
    rewrite (drop_S _ _ _ Hs). simpl.
    rewrite <- app_assoc. simpl.
    replace (Z.to_nat clusterId + S i)%nat
      with (S (Z.to_nat clusterId + i)) by lia.
    by replace (S (i + todo)) with (i + S todo)%nat by lia.
Qed.

Lemma SubCluster_size_nonpos cl number size :
  size <= 0 -> exists msg, Cluster_SubCluster cl number size = Panic msg.
Proof.
  intros Hsz. unfold Cluster_SubCluster.
  destruct (decide (size > len (shards cl))); [unfold len in *; lia |].
  unfold go_div. destruct (decide (size = 0)); [simpl; eauto |]. simpl.
  unfold go_rem. case_decide; [simpl; eauto |]. simpl.
  unfold make_slice. destruct (decide (size < 0)); [| lia]. simpl. eauto.
Qed.

(** The quantities [cl.SubCluster] computes, for a size of at least one on
    a cluster with at least one shard. *)
Lemma SubCluster_arith n number size :
  1 <= n -> 1 <= size ->
  let size' := Z.min size n in
  let step := Z.quot n size' in
  let offset := Z.rem number step * size' in
  1 <= size' <= n /\ 1 <= step <= n /\ - n < offset < n
  /\ (0 <= offset -> offset + size' <= n)
  /\ (0 <= number -> 0 <= offset /\ offset = (number mod step) * size').
Proof.
  intros Hn Hsz size' step offset.
  assert (Hs' : 1 <= size' <= n) by (unfold size'; lia).
  assert (Hquot : step = n / size').
  { unfold step. apply Z.quot_div_nonneg; lia. }
  assert (Hstep : 1 <= step <= n).
  { rewrite Hquot. split.
    - apply Z.div_le_lower_bound; lia.
    - apply Z.div_le_upper_bound; nia. }
  assert (Hmul : step * size' <= n).
  { rewrite Hquot. rewrite Z.mul_comm. apply Z.mul_div_le. lia. }
  assert (Hr : - step < Z.rem number step < step).
  { destruct (decide (0 <= number)).
    - pose proof (Z.rem_bound_pos number step ltac:(lia) ltac:(lia)). lia.
    - pose proof (Z.rem_bound_pos_neg number step ltac:(lia) ltac:(lia)).
      lia. }
  repeat split; try lia.
  - unfold offset. nia.
  - unfold offset. nia.
  - intros Ho. unfold offset in *. nia.
  - unfold offset.
    pose proof (Z.rem_bound_pos number step ltac:(lia) ltac:(lia)). nia.
  - unfold offset. by rewrite Z.rem_mod_nonneg by lia.
Qed.

(** What [cl.SubCluster] computes on a constructed cluster, for a size of at
    least one. *)
Lemma SubCluster_run D dbs0 nshards gen0 (h : Heap) cl (h' : Heap)
  number size :
  is_int64 nshards ->
  NewClusterWithGen D dbs0 nshards gen0 h = Ok (cl, h') ->
  1 <= size ->
  let size' := Z.min size (len (shards cl)) in
  let step := Z.quot (len (shards cl)) size' in
  let offset := Z.rem number step * size' in
  1 <= step
  /\ (0 <= number -> 0 <= offset /\ offset = (number mod step) * size')
  /\ (0 <= offset ->
      offset + size' <= len (shards cl)
      /\ Cluster_SubCluster cl number size =
           Ok {| sub_cl := cl;
                 sub_shards := take (Z.to_nat size')
                                 (drop (Z.to_nat offset) (shards cl)) |})
  /\ (offset < 0 -> Cluster_SubCluster cl number size = Panic index_error).
Proof.
  intros Hint Hnew Hsz size' step offset.
  apply NewClusterWithGen_inv in Hnew as (_ & _ & _ & Hlen & _ & Hc).
  pose proof (c_dbs_pos _ _ Hc) as Hpos. pose proof (c_shards_ge _ _ Hc) as Hge.
  assert (Hn : 1 <= len (shards cl)) by lia.
  destruct (SubCluster_arith (len (shards cl)) number size Hn Hsz)
    as (Hs' & Hstep & Hoff & Hfit & Hnum).
  fold size' step offset in Hs', Hstep, Hoff, Hfit, Hnum.
  assert (Hrun : Cluster_SubCluster cl number size =
    let? ss' := SubCluster_loop cl offset (Z.to_nat size') 0
                  (replicate (Z.to_nat size') Nil) in
    Ok {| sub_cl := cl; sub_shards := ss' |}).
  { unfold Cluster_SubCluster.
    replace (if decide (size > len (shards cl)) then len (shards cl) else size)
      with size' by (unfold size'; case_decide; lia).
    unfold go_div. destruct (decide (size' = 0)); [lia |]. simpl.
    rewrite wrap64_id by (unfold is_int64 in *; fold step; lia).
    fold step. unfold go_rem. destruct (decide (step = 0)); [lia |]. simpl.
    unfold go_mul. fold offset.
    rewrite wrap64_id by (unfold is_int64 in *; lia).
    unfold make_slice. destruct (decide (size' < 0)); [lia |]. done. }
  split; [lia |]. split; [done |]. split.
  - intros Ho. split; [by apply Hfit |]. rewrite Hrun.
    specialize (Hfit Ho).
    rewrite (SubCluster_loop_Ok cl offset (Z.to_nat size') 0%nat);
      [| done | unfold is_int64 in *; lia | lia
       | rewrite length_replicate; lia].
    rewrite Nat.add_0_r, Nat.add_0_l, take_0.
    rewrite (drop_ge (replicate _ _)) by (rewrite length_replicate; lia).
    by rewrite app_nil_r.
  - intros Ho. rewrite Hrun.
    destruct (Z.to_nat size') as [|todo] eqn:Htodo; [lia |]. simpl.
    unfold go_add. rewrite wrap64_id by (unfold is_int64 in *; lia).
    rewrite index_neg by lia. done.
Qed.



(** C10. [cl.SubCluster] does not check its size: a size of zero divides
    the shard count by zero and panics; no call with a size below one returns
    a sub-cluster; on a constructed cluster a size of at least one never
    divides by zero. *)
Theorem C10_SubCluster_size_unchecked D dbs0 nshards gen0 (h : Heap) cl
  (h' : Heap) number size :
  is_int64 nshards ->
  NewClusterWithGen D dbs0 nshards gen0 h = Ok (cl, h') ->
  Cluster_SubCluster cl number 0 = Panic divide_error
  /\ (forall sc, Cluster_SubCluster cl number size = Ok sc -> 1 <= size)
  /\ (1 <= size -> Cluster_SubCluster cl number size <> Panic divide_error).
Proof.
  intros Hint Hnew. split; [| split].
  - unfold Cluster_SubCluster.
    destruct (decide (0 > len (shards cl))); [unfold len in *; lia |].
    reflexivity.
  - intros sc Hsc. destruct (decide (1 <= size)) as [|Hsz]; [done |].
    destruct (SubCluster_size_nonpos cl number size) as [msg Hp]; [lia |].
    congruence.
  - intros Hsz.
    destruct (SubCluster_run D dbs0 nshards gen0 h cl h' number size
                Hint Hnew Hsz) as (_ & _ & Hwin & Hout).
    destruct (decide (0 <= Z.rem number
                (Z.quot (len (shards cl)) (Z.min size (len (shards cl))))
                * Z.min size (len (shards cl)))) as [Ho|Ho].
    + destruct (Hwin Ho) as [_ ->]. discriminate.
    + rewrite Hout by lia. discriminate.
Qed.

Lemma C10_witness :
  (is_int64 4
   /\ NewClusterWithGen sampleGen [serverA; serverB] 4 None heapAB
       = Ok (clusterAB, heapAB4))
  /\ Cluster_SubCluster clusterAB 1 0 = Panic divide_error
  /\ (forall sc, Cluster_SubCluster clusterAB 1 2 = Ok sc -> 1 <= 2)
  /\ (1 <= 2 -> Cluster_SubCluster clusterAB 1 2 <> Panic divide_error).
Proof.
  assert (Hint : is_int64 4) by (unfold is_int64; lia).
  split; [exact (conj Hint sample_cluster) |].
  destruct (C10_SubCluster_size_unchecked sampleGen [serverA; serverB] 4 None
              heapAB clusterAB heapAB4 1 2 Hint sample_cluster)
    as (_ & Hok & Hnz).
  split; [| exact (conj Hok Hnz)].
  exact (proj1 (C10_SubCluster_size_unchecked sampleGen [serverA; serverB] 4
                  None heapAB clusterAB heapAB4 1 0 Hint sample_cluster)).
Defined.

(** ** Close *)

Lemma close_each_handles {World} (pgClose : ptr -> World -> error * World) l :
  forall w, (close_each pgClose l w).1.*1 = l.
Proof.
  induction l as [|db rest IH]; intros w; simpl; [done |].
  destruct (pgClose db w) as [err w1].
  specialize (IH w1). destruct (close_each pgClose rest w1) as [calls w2].
  simpl in *. by f_equal.
Qed.

Lemma Close_loop_spec {World} (pgClose : ptr -> World -> error * World) l :
  forall retErr w calls,
    Close_loop pgClose l retErr w calls =
      (match retErr with
       | Some _ => retErr
       | None => first_error (close_each pgClose l w).1.*2
       end,
       (close_each pgClose l w).2,
       calls ++ (close_each pgClose l w).1).
Proof.
  induction l as [|db rest IH]; intros retErr w calls; simpl.
  - rewrite app_nil_r. by destruct retErr.
  - destruct (pgClose db w) as [err w1]. rewrite IH.
    destruct (close_each pgClose rest w1) as [calls' w2]. simpl.
    rewrite <- app_assoc. simpl.
    destruct err, retErr; reflexivity.
Qed.

(** C9. On a constructed cluster [Close] calls the client's [Close] once on
    each distinct server of the placement list, in the order of first
    occurrence, whatever the calls answer, and returns the first non-nil
    answer (nil when there is none). *)
Theorem C9_Close_every_server_once {World}
  (pgClose : ptr -> World -> error * World) D dbs0 nshards gen0 (h : Heap) cl
  (h' : Heap) (w w' : World) retErr calls :
  NewClusterWithGen D dbs0 nshards gen0 h = Ok (cl, h') ->
  Close pgClose cl w = (retErr, w', calls) ->
  (calls, w') = close_each pgClose (servers cl) w
  /\ calls.*1 = servers cl
  /\ NoDup calls.*1
  /\ (forall db, db ∈ calls.*1 <-> db ∈ dbs0)
  /\ retErr = first_error calls.*2.
Proof.
  intros Hnew Hclose.
  apply NewClusterWithGen_inv in Hnew as (_ & Hd & _ & _ & _ & Hc).
  unfold Close in Hclose. rewrite Close_loop_spec in Hclose. simpl in Hclose.
  pose proof (close_each_handles pgClose (servers cl) w) as Hh.
  destruct (close_each pgClose (servers cl) w) as [calls1 w1]. simpl in *.
  injection Hclose as <- <- <-.
  rewrite Hh, (c_servers _ _ Hc), Hd.
  repeat split.
  - apply init_servers_NoDup.
  - apply init_servers_elem.
  - apply init_servers_elem.
Qed.

Lemma C9_witness :
  NewClusterWithGen sampleGen [serverA; serverA; serverB; serverB] 4 None
    heapAB
  = Ok (clusterAABB, heapAABB4)
  /\ Close closeB clusterAABB []
     = (Some "closed", [serverA; serverB],
        [(serverA, None); (serverB, Some "closed")]).
Proof.
  split; [exact sample_cluster_AABB |].
  destruct (Close closeB clusterAABB []) as [[retErr w'] calls] eqn:Hclose.
  destruct (C9_Close_every_server_once closeB _ _ _ _ _ _ _ [] _ _ _
              sample_cluster_AABB Hclose) as (Hrun & _ & _ & _ & Herr).
  injection Hrun as -> ->. rewrite Herr. reflexivity.
Defined.

(** ** Fan-out: interleavings *)

Lemma insert_middle {A} (l1 l2 : list A) x y :
  <[length l1 := y]> (l1 ++ x :: l2) = l1 ++ y :: l2.
Proof.
  rewrite <- (Nat.add_0_r (length l1)). by rewrite insert_app_r.
Qed.

Lemma interleave_extend {A} (ls : list (list A)) l :
  interleave ls l -> interleave (ls ++ [[]]) l.
Proof.
  induction 1 as [n|ls i a x l _ IH Hi].
  - change [[]] with (replicate 1 (@nil A)).
    rewrite <- replicate_add. constructor.
  - rewrite <- insert_app_l by (by eapply lookup_lt_Some).
    constructor; [done |]. by apply lookup_app_l_Some.
Qed.

Lemma concat_insert_snoc {A} (ls : list (list A)) i a x :
  ls !! i = Some a ->
  concat (<[i := a ++ [x]]> ls) ≡ₚ concat ls ++ [x].
Proof.
  intros Hi.
  rewrite insert_take_drop by (by eapply lookup_lt_Some).
  rewrite <- (take_drop_middle ls i a Hi) at 3.
  rewrite !concat_app. simpl.
  rewrite <- !app_assoc. apply Permutation_app_head.
  apply Permutation_app_head. apply Permutation_app_comm.
Qed.

Lemma interleave_Permutation {A} (ls : list (list A)) l :
  interleave ls l -> l ≡ₚ concat ls.
Proof.
  induction 1 as [n|ls i a x l _ IH Hi].
  - induction n as [|n IHn]; simpl; [done |]. done.
  - rewrite concat_insert_snoc by done. by rewrite IH.
Qed.

Lemma interleave_filter {A} (P : A -> Prop) `{forall x, Decision (P x)}
  (ls : list (list A)) l :
  interleave ls l -> interleave (filter P <$> ls) (filter P l).
Proof.
  induction 1 as [n|ls i a x l _ IH Hi].
  - rewrite fmap_replicate. simpl. constructor.
  - rewrite list_fmap_insert, !filter_app.
    destruct (decide (P x)) as [Hx|Hx].
    + rewrite (filter_cons_True P x []) by done. simpl.
      constructor; [done |]. by rewrite list_lookup_fmap, Hi.
    + rewrite (filter_cons_False P x []) by done. simpl.
      rewrite !app_nil_r. rewrite list_insert_id; [done |].
      by rewrite list_lookup_fmap, Hi.
Qed.

(** When all sequences but one are empty, the interleaving is that one. *)
Lemma interleave_single {A} (ls : list (list A)) l :
  interleave ls l ->
  forall i0 m,
    ls !! i0 = Some m ->
    (forall j b, ls !! j = Some b -> j <> i0 -> b = []) ->
    l = m.
Proof.
  induction 1 as [n|ls i a x l _ IH Hi]; intros i0 m Hm Hothers.
  - apply lookup_replicate in Hm as [-> _]. done.
  - assert (Hlt : (i < length ls)%nat) by (by eapply lookup_lt_Some).
    destruct (decide (i = i0)) as [->|Hne].
    + rewrite list_lookup_insert_eq in Hm by done. injection Hm as <-.
      f_equal. apply (IH i0); [done |].
      intros j b Hj Hji. apply (Hothers j); [| done].
      by rewrite list_lookup_insert_ne.
    + exfalso. specialize (Hothers i (a ++ [x])).
      rewrite list_lookup_insert_eq in Hothers by done.
      specialize (Hothers eq_refl Hne). by destruct a.
Qed.

(** ** Fan-out: ForEachDB *)

Lemma filter_ext_in {A} (P Q : A -> Prop) `{forall x, Decision (P x)}
  `{forall x, Decision (Q x)} (l : list A) :
  (forall x, x ∈ l -> P x <-> Q x) -> filter P l = filter Q l.
Proof.
  induction l as [|x l IH]; intros Hext; [done |].
  rewrite !filter_cons.
  rewrite IH by (intros y Hy; apply Hext; by right).
  destruct (decide (P x)) as [HP|HP], (decide (Q x)) as [HQ|HQ]; try done.
  - exfalso. apply HQ, Hext; [by left | done].
  - exfalso. apply HP, Hext; [by left | done].
Qed.

Lemma filter_none {A} (P : A -> Prop) `{forall x, Decision (P x)} (l : list A) :
  (forall x, x ∈ l -> ~ P x) -> filter P l = [].
Proof.
  induction l as [|x l IH]; intros Hno; [done |].
  rewrite filter_cons_False by (apply Hno; by left).
  apply IH. intros y Hy. apply Hno. by right.
Qed.

Lemma filter_insert_length {A} (P : A -> Prop) `{forall x, Decision (P x)}
  (l : list A) i x y :
  l !! i = Some x ->
  (length (filter P (<[i := y]> l)) + (if decide (P x) then 1 else 0)
   = length (filter P l) + (if decide (P y) then 1 else 0))%nat.
Proof.
  intros Hi.
  destruct (list_elem_of_split_length l i x Hi) as (l1 & l2 & -> & ->).
  rewrite insert_middle.
  rewrite !filter_app, !filter_cons, !length_app.
  destruct (decide (P x)), (decide (P y)); simpl; lia.
Qed.

Lemma filter_length_0 {A} (P : A -> Prop) `{forall x, Decision (P x)}
  (l : list A) :
  length (filter P l) = 0%nat -> Forall (fun x => ~ P x) l.
Proof.
  induction l as [|x l IH]; [constructor |].
  rewrite filter_cons. destruct (decide (P x)); simpl; [done |].
  intros Hl. constructor; auto.
Qed.

Lemma Forall2_insert_r {A B} (P : A -> B -> Prop) l k i y y' :
  Forall2 P l k ->
  k !! i = Some y ->
  (forall x, P x y -> P x y') ->
  Forall2 P l (<[i := y']> k).
Proof.
  intros HF Hi Hy.
  apply Forall2_same_length_lookup. split.
  - rewrite length_insert. by eapply Forall2_length.
  - intros j a b Ha Hb. destruct (decide (j = i)) as [->|Hne].
    + rewrite list_lookup_insert_eq in Hb by (by eapply lookup_lt_Some).
      injection Hb as <-. apply Hy. eapply Forall2_lookup_lr; eauto.
    + rewrite list_lookup_insert_ne in Hb by done.
      eapply Forall2_lookup_lr; eauto.
Qed.

Lemma Fan_inv_init body cl : Fan_inv body (servers cl) (Fan_init cl).
Proof.
  simpl. split; [| split; [| split]].
  - exists []. split; [done | constructor].
  - apply (interleave_nil 0).
  - lia.
  - constructor.
Qed.

Lemma Fan_inv_step body srv c c' :
  Fan_inv body srv c -> Fan_step body c c' -> Fan_inv body srv c'.
Proof.
  intros Hinv Hstep.
  destruct Hstep as
    [db rest ts wg ch calls o Hbody
    |i tr a k c rest ts wg ch calls Hi Hk
    |i tr rest ts wg ch calls Hi
    |i tr e rest ts wg ch calls Hi
    |i tr msg rest ts wg ch calls Hi
    |i tr e rest ts wg ch calls Hi
    |i o rest ts wg ch calls Hi
    |ts ch calls];
    simpl in Hinv;
    destruct Hinv as ((launched & Hsrv & HF) & Hil & Hwg & Hwf);
    simpl in *.
  - (* a goroutine starts *)
    split; [| split; [| split]].
    + exists (launched ++ [db]). split; [by rewrite <- app_assoc |].
      apply Forall2_app; [done |]. by repeat constructor.
    + rewrite fmap_app. simpl. by apply interleave_extend.
    + rewrite filter_app, length_app, filter_cons_True by done.
      simpl. lia.
    + apply Forall_app. split; [done |]. repeat constructor.
      unfold task_wf. simpl. lia.
  - (* a call *)
    split; [| split; [| split]].
    + exists launched. split; [done |].
      eapply Forall2_insert_r; [done | done | done].
    + rewrite list_fmap_insert. unfold consumed at 1. simpl.
      rewrite (take_S_r _ _ _ Hk).
      constructor; [done |]. by rewrite list_lookup_fmap, Hi.
    + pose proof (filter_insert_length task_live ts i _
                    (mkTask (tr, a) (TRun (S k))) Hi) as Hf.
      rewrite !decide_True in Hf by done. lia.
    + apply Forall_insert; [done |]. unfold task_wf. simpl.
      by apply lookup_lt_Some in Hk.
  - (* the function answers nil *)
    split; [| split; [| split]].
    + exists launched. split; [done |].
      eapply Forall2_insert_r; [done | done | done].
    + rewrite list_fmap_insert, list_insert_id; [done |].
      rewrite list_lookup_fmap, Hi. unfold consumed. simpl.
      by rewrite firstn_all.
    + pose proof (filter_insert_length task_live ts i _
                    (mkTask (tr, Ok None) TDone) Hi) as Hf.
      rewrite !decide_True in Hf by done. lia.
    + by apply Forall_insert.
  - (* the function answers an error *)
    split; [| split; [| split]].
    + exists launched. split; [done |].
      eapply Forall2_insert_r; [done | done | done].
    + rewrite list_fmap_insert, list_insert_id; [done |].
      rewrite list_lookup_fmap, Hi. unfold consumed. simpl.
      by rewrite firstn_all.
    + pose proof (filter_insert_length task_live ts i _
                    (mkTask (tr, Ok (Some e)) TSend) Hi) as Hf.
      rewrite !decide_True in Hf by done. lia.
    + apply Forall_insert; [done |]. unfold task_wf. simpl. eauto.
  - (* the function panics *)
    destruct (Forall2_lookup_r _ _ _ _ _ HF Hi) as (db & Hdb & Hbody).
    exists db, tr. split; [| done].
    rewrite Hsrv. apply elem_of_app. left.
    by eapply list_elem_of_lookup_2.
  - (* the send *)
    split; [| split; [| split]].
    + exists launched. split; [done |].
      eapply Forall2_insert_r; [done | done | done].
    + rewrite list_fmap_insert, list_insert_id; [done |].
      by rewrite list_lookup_fmap, Hi.
    + pose proof (filter_insert_length task_live ts i _
                    (mkTask (tr, Ok (Some e)) TDone) Hi) as Hf.
      rewrite !decide_True in Hf by done. lia.
    + by apply Forall_insert.
  - (* wg.Done() *)
    split; [| split; [| split]].
    + exists launched. split; [done |].
      eapply Forall2_insert_r; [done | done | done].
    + rewrite list_fmap_insert, list_insert_id; [done |].
      by rewrite list_lookup_fmap, Hi.
    + pose proof (filter_insert_length task_live ts i _
                    (mkTask o TGone) Hi) as Hf.
      rewrite decide_True in Hf by done.
      rewrite decide_False in Hf by (unfold task_live; simpl; tauto).
      lia.
    + by apply Forall_insert.
  - (* the return *)
    rewrite app_nil_r in Hsrv. subst launched.
    exists (t_out <$> ts). split.
    + by apply Forall2_fmap_r.
    + assert (Hall : Forall (fun t => ~ task_live t) ts).
      { apply (filter_length_0 task_live). lia. }
      replace ((t_out <$> ts).*1) with (consumed <$> ts); [done |].
      rewrite <- list_fmap_compose. apply Forall_fmap_ext_1.
      eapply Forall_impl; [exact Hall |].
      intros [o pc] Hnl. unfold task_live, consumed in *. simpl in *.
      destruct pc; try done. exfalso. by apply Hnl.
Qed.

Lemma Fan_inv_reachable body cl c :
  rtc (Fan_step body) (Fan_init cl) c -> Fan_inv body (servers cl) c.
Proof.
  revert c. apply rtc_ind_r.
  - apply Fan_inv_init.
  - intros c c' _ Hstep Hinv. by eapply Fan_inv_step.
Qed.

Lemma Fan_run_calls body rest wg ch tr a : forall n k ts calls i,
  length tr = (k + n)%nat ->
  ts !! i = Some (mkTask (tr, a) (TRun k)) ->
  rtc (Fan_step body)
    (FLive (mkFan rest ts wg ch calls))
    (FLive (mkFan rest (<[i := mkTask (tr, a) (TRun (length tr))]> ts) wg ch
              (calls ++ drop k tr))).
Proof.
  induction n as [|n IH]; intros k ts calls i Hlen Hi.
  - rewrite Nat.add_0_r in Hlen. subst k.
    rewrite drop_all, app_nil_r, list_insert_id by done. done.
  - destruct (lookup_lt_is_Some_2 tr k) as [c Hc]; [lia |].
    eapply rtc_l; [by eapply F_call |].
    rewrite (drop_S _ _ _ Hc).
    replace (calls ++ c :: drop (S k) tr)
      with ((calls ++ [c]) ++ drop (S k) tr) by (by rewrite <- app_assoc).
    assert (Hlt : (i < length ts)%nat) by (by eapply lookup_lt_Some).
    rewrite <- (list_insert_insert_eq ts i
                  (mkTask (tr, a) (TRun (length tr)))
                  (mkTask (tr, a) (TRun (S k)))).
    apply IH; [lia |]. by apply list_lookup_insert_eq.
Qed.

Lemma Fan_sequential body : forall rest outs ts ch calls,
  Forall2 body rest outs ->
  Forall (fun o : Outcome => exists e, o.2 = Ok e) outs ->
  rtc (Fan_step body)
    (FLive (mkFan rest ts (length rest) ch calls))
    (FEnd (calls ++ concat outs.*1, Ok (foldl send_answer ch outs))).
Proof.
  intros rest outs ts ch calls HF. revert ts ch calls.
  induction HF as [|db [tr a] rest outs Hbody HF IH]; intros ts ch calls Hok.
  - simpl. rewrite app_nil_r. apply rtc_once. constructor.
  - apply Forall_cons in Hok as [[e He] Hok]. simpl in He. subst a.
    eapply rtc_l; [by eapply F_go |].
    etrans.
    { apply (Fan_run_calls body rest _ ch tr (Ok e) (length tr) 0%nat _ calls
               (length ts)); [done |].
      by apply list_lookup_middle. }
    rewrite insert_middle. rewrite drop_0. simpl.
    rewrite app_assoc.
    destruct e as [e|].
    + eapply rtc_l.
      { eapply (F_err _ (length ts)). by apply list_lookup_middle. }
      rewrite insert_middle.
      eapply rtc_l.
      { eapply (F_send _ (length ts)). by apply list_lookup_middle. }
      rewrite insert_middle.
      eapply rtc_l.
      { eapply (F_done _ (length ts)). by apply list_lookup_middle. }
      rewrite insert_middle. by apply IH.
    + eapply rtc_l.
      { eapply (F_nil _ (length ts)). by apply list_lookup_middle. }
      rewrite insert_middle.
      eapply rtc_l.
      { eapply (F_done _ (length ts)). by apply list_lookup_middle. }
      rewrite insert_middle. by apply IH.
Qed.

(** Every execution of [ForEachDB] can be completed: no configuration it
    reaches is a dead end. *)

Lemma sum_list_with_insert {A} (f : A -> nat) (l : list A) i x y :
  l !! i = Some x ->
  (sum_list_with f (<[i := y]> l) + f x = sum_list_with f l + f y)%nat.
Proof.
  intros Hi.
  destruct (list_elem_of_split_length l i x Hi) as (l1 & l2 & -> & ->).
  rewrite insert_middle, !sum_list_with_app. simpl. lia.
Qed.

Lemma sum_list_with_pos {A} (f : A -> nat) (l : list A) :
  (0 < sum_list_with f l)%nat ->
  exists i x, l !! i = Some x /\ (0 < f x)%nat.
Proof.
  induction l as [|x l IH]; simpl; [lia |]. intros Hpos.
  destruct (decide (0 < f x)%nat) as [Hx|Hx].
  - by exists 0%nat, x.
  - destruct IH as (i & y & Hi & Hy); [lia |]. by exists (S i), y.
Qed.

Lemma filter_lookup_pos {A} (P : A -> Prop) `{forall x, Decision (P x)}
  (l : list A) i x :
  l !! i = Some x -> P x -> (0 < length (filter P l))%nat.
Proof.
  intros Hi HP.
  destruct (list_elem_of_split_length l i x Hi) as (l1 & l2 & -> & _).
  rewrite filter_app, filter_cons_True, length_app by done. simpl. lia.
Qed.

Lemma no_weight_no_live ts :
  sum_list_with task_weight ts = 0%nat ->
  length (filter task_live ts) = 0%nat.
Proof.
  induction ts as [|[o pc] ts IH]; simpl; [done |]. intros Hsum.
  rewrite filter_cons_False.
  - apply IH. lia.
  - unfold task_live, task_weight in *. simpl in *.
    destruct pc; try lia. tauto.
Qed.

(** A goroutine that has not finished can make a step. *)
Lemma Fan_task_step body srv f i t :
  Fan_inv body srv (FLive f) ->
  f_tasks f !! i = Some t ->
  (0 < task_weight t)%nat ->
  exists c',
    Fan_step body (FLive f) c'
    /\ match c' with
       | FLive f' =>
           f_rest f' = f_rest f
           /\ (sum_list_with task_weight (f_tasks f')
               < sum_list_with task_weight (f_tasks f))%nat
       | FEnd _ => True
       end.
Proof.
  destruct f as [rest ts wg ch calls]. simpl.
  intros (_ & _ & Hwg & Hwf) Hi Hpos. simpl in *.
  pose proof (Forall_lookup_1 _ _ _ _ Hwf Hi) as Ht.
  destruct t as [[tr a] pc].
  unfold task_wf in Ht. unfold task_weight in Hpos. simpl in *.
  destruct pc as [k| | |]; [| | | lia].
  - destruct (decide (k < length tr)%nat) as [Hk|Hk].
    + destruct (lookup_lt_is_Some_2 tr k Hk) as [c Hc].
      eexists. split; [by eapply F_call |]. simpl. split; [done |].
      pose proof (sum_list_with_insert task_weight ts i _
                    (mkTask (tr, a) (TRun (S k))) Hi) as Hs.
      cbn in Hs. lia.
    + assert (k = length tr) by lia. subst k.
      destruct a as [[e|]|msg].
      * eexists. split; [by eapply F_err |]. simpl. split; [done |].
        pose proof (sum_list_with_insert task_weight ts i _
                      (mkTask (tr, Ok (Some e)) TSend) Hi) as Hs.
        cbn in Hs. lia.
      * eexists. split; [by eapply F_nil |]. simpl. split; [done |].
        pose proof (sum_list_with_insert task_weight ts i _
                      (mkTask (tr, Ok None) TDone) Hi) as Hs.
        cbn in Hs. lia.
      * eexists. split; [by eapply F_panic |]. done.
  - destruct Ht as [e ->].
    eexists. split; [by eapply F_send |]. simpl. split; [done |].
    pose proof (sum_list_with_insert task_weight ts i _
                  (mkTask (tr, Ok (Some e)) TDone) Hi) as Hs.
    cbn in Hs. lia.
  - pose proof (filter_lookup_pos task_live ts i _ Hi) as Hlive.
    destruct wg as [|wg].
    { unfold task_live in Hlive at 1. simpl in Hlive.
      specialize (Hlive ltac:(done)). exfalso. lia. }
    eexists. split; [by eapply F_done |]. simpl. split; [done |].
    pose proof (sum_list_with_insert task_weight ts i _
                  (mkTask (tr, a) TGone) Hi) as Hs.
    cbn in Hs. lia.
Qed.

(** The goroutines started can all be run to their end. *)
Lemma Fan_finish_tasks body srv : forall m f,
  (sum_list_with task_weight (f_tasks f) <= m)%nat ->
  Fan_inv body srv (FLive f) ->
  (exists o, rtc (Fan_step body) (FLive f) (FEnd o))
  \/ (exists f',
        rtc (Fan_step body) (FLive f) (FLive f')
        /\ Fan_inv body srv (FLive f')
        /\ f_rest f' = f_rest f
        /\ sum_list_with task_weight (f_tasks f') = 0%nat).
Proof.
  induction m as [|m IH]; intros f Hm Hinv.
  - right. exists f. split; [done |]. split; [done |]. split; [done | lia].
  - destruct (decide (sum_list_with task_weight (f_tasks f) = 0%nat))
      as [Hz|Hnz].
    { right. by exists f. }
    destruct (sum_list_with_pos task_weight (f_tasks f))
      as (i & t & Hi & Ht); [lia |].
    destruct (Fan_task_step body srv f i t Hinv Hi Ht) as (c' & Hstep & Hc').
    destruct c' as [f'|o].
    + destruct Hc' as [Hrest Hlt].
      destruct (IH f') as [[o Ho]|(f'' & Hrun & Hinv'' & Hrest'' & Hz'')];
        [lia | by eapply Fan_inv_step | |].
      * left. exists o. by eapply rtc_l.
      * right. exists f''. split; [by eapply rtc_l |]. split; [done |].
        split; [by rewrite Hrest'' | done].
    + left. exists o. by apply rtc_once.
Qed.

Lemma Fan_can_finish body srv : forall n f,
  length (f_rest f) = n ->
  Fan_inv body srv (FLive f) ->
  (forall db, db ∈ f_rest f -> exists o, body db o) ->
  exists o, rtc (Fan_step body) (FLive f) (FEnd o).
Proof.
  induction n as [|n IH]; intros f Hn Hinv Htotal;
    (destruct (Fan_finish_tasks body srv _ f (Nat.le_refl _) Hinv)
       as [Hend|(f' & Hrun & Hinv' & Hrest & Hz)]; [done |]);
    destruct f' as [rest ts wg ch calls]; simpl in *;
    pose proof Hinv' as (_ & _ & Hwg & _); simpl in Hwg;
    rewrite (no_weight_no_live ts Hz), Nat.add_0_r in Hwg;
    rewrite <- Hrest in Hn.
  - destruct rest; [| simpl in *; lia]. subst wg.
    eexists. etrans; [exact Hrun |]. apply rtc_once. constructor.
  - destruct rest as [|db rest]; [simpl in *; lia |].
    destruct (Htotal db) as [o Ho]; [rewrite <- Hrest; by left |].
    pose proof (F_go body db rest ts wg ch calls o Ho) as Hstep.
    destruct (IH (mkFan rest (ts ++ [mkTask o (TRun 0)]) wg ch calls))
      as [o' Ho'].
    + simpl in *. lia.
    + exact (Fan_inv_step body srv
               (FLive (mkFan (db :: rest) ts wg ch calls)) _ Hinv' Hstep).
    + simpl. intros db' Hdb'. apply Htotal. rewrite <- Hrest. by right.
    + exists o'. etrans; [exact Hrun |]. by eapply rtc_l.
Qed.

Lemma ForEachDB_with_never_stuck cl body :
  (forall db, db ∈ servers cl -> exists o, body db o) ->
  never_stuck cl body.
Proof.
  intros Htotal c Hrun. pose proof (Fan_inv_reachable _ _ _ Hrun) as Hinv.
  destruct c as [f|o]; [| by exists o].
  apply (Fan_can_finish body (servers cl) _ f eq_refl Hinv).
  intros db Hdb. apply Htotal.
  destruct Hinv as ((launched & -> & _) & _).
  apply elem_of_app. by right.
Qed.

(** Every step of [ForEachDB] uses up the bound. *)
Lemma Fan_step_measure body srv F c c' :
  (forall db o, db ∈ srv -> body db o -> o = F db) ->
  Fan_inv body srv c ->
  Fan_step body c c' ->
  (fan_measure F c' < fan_measure F c)%nat.
Proof.
  intros Hfun Hinv Hstep.
  destruct Hstep as
    [db rest ts wg ch calls o Hbody
    |i tr a k c rest ts wg ch calls Hi Hk
    |i tr rest ts wg ch calls Hi
    |i tr e rest ts wg ch calls Hi
    |i tr msg rest ts wg ch calls Hi
    |i tr e rest ts wg ch calls Hi
    |i o rest ts wg ch calls Hi
    |ts ch calls];
    simpl; try lia.
  - destruct Hinv as ((launched & -> & _) & _). simpl in *.
    rewrite (Hfun db o) by (try done; apply elem_of_app; right; by left).
    rewrite sum_list_with_app. simpl. unfold task_weight at 2. simpl. lia.
  - pose proof (sum_list_with_insert task_weight ts i _
                  (mkTask (tr, a) (TRun (S k))) Hi) as Hs.
    apply lookup_lt_Some in Hk. cbn in Hs. lia.
  - pose proof (sum_list_with_insert task_weight ts i _
                  (mkTask (tr, Ok None) TDone) Hi) as Hs.
    cbn in Hs. lia.
  - pose proof (sum_list_with_insert task_weight ts i _
                  (mkTask (tr, Ok (Some e)) TSend) Hi) as Hs.
    cbn in Hs. lia.
  - pose proof (sum_list_with_insert task_weight ts i _
                  (mkTask (tr, Ok (Some e)) TDone) Hi) as Hs.
    cbn in Hs. lia.
  - pose proof (sum_list_with_insert task_weight ts i _
                  (mkTask o TGone) Hi) as Hs.
    cbn in Hs. lia.
Qed.

Lemma Fan_bounded body cl F :
  (forall db o, db ∈ servers cl -> body db o -> o = F db) ->
  forall n c,
    nsteps (Fan_step body) n (Fan_init cl) c ->
    (n + fan_measure F c <= fan_measure F (Fan_init cl))%nat.
Proof.
  intros Hfun. induction n as [|n IH]; intros c Hn.
  - inversion Hn; subst. simpl. lia.
  - apply nsteps_inv_r in Hn as (c1 & Hn & Hstep).
    specialize (IH c1 Hn).
    pose proof (Fan_inv_reachable body cl c1 (rtc_nsteps_2 _ _ _ Hn)) as Hinv.
    pose proof (Fan_step_measure body (servers cl) F c1 c Hfun Hinv Hstep).
    lia.
Qed.

Lemma ForEachDB_with_always_ends cl body F :
  (forall db o, db ∈ servers cl -> body db o <-> o = F db) ->
  always_ends cl body.
Proof.
  intros Hfun. split.
  - apply ForEachDB_with_never_stuck. intros db Hdb.
    exists (F db). by apply Hfun.
  - exists (fan_measure F (Fan_init cl)). intros n c Hn.
    pose proof (Fan_bounded body cl F
                  (fun db o Hdb Ho => proj1 (Hfun db o Hdb) Ho) n c Hn).
    lia.
Qed.

Lemma Forall2_fun_fmap {A B} (F : A -> B) l k :
  Forall2 (fun x y => y = F x) l k <-> k = F <$> l.
Proof.
  split.
  - induction 1 as [|x y l k -> _ IH]; csimpl; [done |]. by rewrite IH.
  - intros ->. induction l; constructor; auto.
Qed.

Lemma concat_singletons {A} (l : list A) : concat ((fun x => [x]) <$> l) = l.
Proof. induction l as [|x l IH]; csimpl; [done |]. by rewrite IH. Qed.

(** C6. On a constructed cluster, no execution of [ForEachDB(fn)] gets
    stuck or runs for ever, and every execution returns having called [fn]
    exactly once on each distinct handle of the placement list: no handle
    twice, and every handle of the list. *)
Theorem C6_ForEachDB_once_per_server D dbs0 nshards gen0 (h : Heap) cl
  (h' : Heap) (fn : ptr -> error) :
  NewClusterWithGen D dbs0 nshards gen0 h = Ok (cl, h') ->
  always_ends cl (plain_fn fn)
  /\ (exists calls e, ForEachDB cl fn (calls, Ok e))
  /\ forall calls r,
      ForEachDB cl fn (calls, r) ->
      (exists e, r = Ok e)
      /\ NoDup calls
      /\ (forall db, db ∈ calls <-> db ∈ dbs0)
      /\ calls ≡ₚ servers cl.
Proof.
  intros Hnew.
  apply NewClusterWithGen_inv in Hnew as (_ & Hd & _ & _ & _ & Hc).
  split; [| split].
  - by apply (ForEachDB_with_always_ends cl _
                 (fun db => ([db], Ok (fn db)))).
  - exists (concat ((fun db => [db]) <$> servers cl)), 
      (foldl send_answer None ((fun db => ([db], Ok (fn db))) <$> servers cl)).
    pose proof (Fan_sequential (fun db o' => o' = ([db], Ok (fn db)))
                  (servers cl)
                  ((fun db => ([db], Ok (fn db))) <$> servers cl)
                  [] None []) as Hrun.
    simpl in Hrun. rewrite <- list_fmap_compose in Hrun.
    apply Hrun.
    + by apply Forall2_fun_fmap.
    + apply Forall_fmap, Forall_forall. intros db _. simpl. eauto.
  - intros calls r Hrun. apply Fan_inv_reachable in Hrun.
    destruct r as [e|msg]; simpl in Hrun.
    + destruct Hrun as (outs & HF & Hil).
      apply Forall2_fun_fmap in HF. subst outs.
      rewrite <- list_fmap_compose in Hil.
      apply interleave_Permutation in Hil.
      change (fst ∘ (fun db => ([db], Ok (fn db))))
        with (fun db : ptr => [db]) in Hil.
      rewrite concat_singletons in Hil.
      split; [eauto |]. split; [| split; [| done]].
      * rewrite Hil, (c_servers _ _ Hc). apply init_servers_NoDup.
      * intros db. rewrite Hil, (c_servers _ _ Hc), Hd.
        apply init_servers_elem.
    + destruct Hrun as (db & tr & _ & [=]).
Qed.

Lemma C6_witness :
  NewClusterWithGen sampleGen [serverA; serverA; serverB; serverB] 4 None
    heapAB
  = Ok (clusterAABB, heapAABB4)
  /\ (exists calls e, ForEachDB clusterAABB (fun _ => None) (calls, Ok e))
  /\ (forall calls r,
        ForEachDB clusterAABB (fun _ => None) (calls, r) ->
        calls ≡ₚ [serverA; serverB]).
Proof.
  split; [exact sample_cluster_AABB |].
  destruct (C6_ForEachDB_once_per_server _ _ _ _ _ _ _ (fun _ => None)
              sample_cluster_AABB) as (_ & Hex & Hall).
  split; [exact Hex |].
  intros calls r Hrun. destruct (Hall calls r Hrun) as (_ & _ & _ & Hp).
  exact Hp.
Defined.

(** ** Fan-out: the pool of ForEachNShards with one token *)

Lemma absorb_idle fn ws : forall st,
  Forall (fun w => ~ holds_token w) ws -> foldl (absorb fn) st ws = st.
Proof.
  induction ws as [|w ws IH]; intros st Hws; simpl; [done |].
  apply Forall_cons in Hws as [Hw Hws].
  rewrite IH by done. by destruct w; simpl in *.
Qed.

Lemma ForEachShard_fn_call h fn db shard rest firstErr calls :
  Options_differ h shard db = Ok false ->
  ForEachShard_fn h fn db (shard :: rest) firstErr calls =
  ForEachShard_fn h fn db rest
    (match fn shard with Some e => try_send firstErr e | None => firstErr end)
    (calls ++ [shard]).
Proof.
  intros Hd. simpl. rewrite Hd.
  by destruct (fn shard), firstErr.
Qed.

Ltac split_workers Hi :=
  let ws1 := fresh "ws1" in
  let ws2 := fresh "ws2" in
  apply list_elem_of_split_length in Hi as (ws1 & ws2 & -> & ->);
  rewrite ?insert_middle in *;
  rewrite ?filter_app, ?filter_cons, ?length_app, ?foldl_app in *;
  simpl in *.

Ltac idle_others Htok :=
  repeat match goal with
  | |- context [foldl (absorb ?fn) ?st ?ws] =>
      rewrite (absorb_idle fn ws st)
        by (apply (filter_length_0 holds_token); lia)
  | H : context [foldl (absorb ?fn) ?st ?ws] |- _ =>
      rewrite (absorb_idle fn ws st) in H
        by (apply (filter_length_0 holds_token); lia)
  end.

Lemma Pool_inv1_step h fn db target c c' :
  Pool_inv1 h fn db target c ->
  Pool_step h 1 fn db c c' ->
  Pool_inv1 h fn db target c'.
Proof.
  intros Hinv Hstep.
  destruct Hstep as
    [shard rest ws lim wg ch calls Hd
    |shard rest ws lim wg ch calls msg Hd
    |shard rest ws lim wg ch calls Hd Hroom
    |i shard rest ws lim wg ch calls Hi
    |i e rest ws lim wg ch calls Hi
    |i rest ws lim wg ch calls Hi
    |i rest ws lim wg ch calls Hi
    |ws lim ch calls];
    simpl in Hinv; destruct Hinv as (Htok & Hle & Hwg & Hnn & Htarget);
    simpl in *.
  - (* continue *)
    apply Forall_cons in Hnn as [_ Hnn].
    repeat split; auto. by rewrite Hd in Htarget.
  - (* nil handle *)
    apply Forall_cons in Hnn as [[b Hb] _]. congruence.
  - (* a goroutine starts *)
    apply Forall_cons in Hnn as [_ Hnn].
    assert (lim = 0%nat) by lia. subst lim.
    rewrite filter_app, length_app, foldl_app.
    rewrite (filter_cons_True holds_token) by done.
    rewrite (filter_app worker_live), (filter_cons_True worker_live) by done.
    rewrite length_app. simpl.
    rewrite (absorb_idle fn ws) in *
      by (apply (filter_length_0 holds_token); lia).
    simpl in *.
    repeat split; auto; try lia.
    rewrite Hd in Htarget. rewrite <- Htarget.
    by destruct (fn shard), ch.
  - (* the call *)
    split_workers Hi.
    destruct (fn shard) as [e|]; simpl in *; idle_others Htok; simpl in *;
      repeat split; auto; lia.
  - (* the send *)
    split_workers Hi. idle_others Htok. simpl in *.
    repeat split; auto; lia.
  - (* the token goes back *)
    split_workers Hi. repeat split; auto; lia.
  - (* wg.Done() *)
    split_workers Hi. repeat split; auto; lia.
  - (* the return *)
    assert (Hall : Forall (fun w => ~ worker_live w) ws).
    { apply (filter_length_0 worker_live). lia. }
    rewrite absorb_idle in Htarget; [done |].
    eapply Forall_impl; [exact Hall |].
    intros w Hw Ht. apply Hw. unfold worker_live. by destruct w.
Qed.

Lemma Pool_inv1_reachable h fn db l c :
  no_nil h db l ->
  rtc (Pool_step h 1 fn db) (Pool_init 1 l) c ->
  Pool_inv1 h fn db (ForEachShard_fn h fn db l None []) c.
Proof.
  intros Hnn. unfold Pool_init. destruct (decide (1 < 0)); [lia |].
  revert c. apply rtc_ind_r.
  - simpl. repeat split; auto.
  - intros c c' _ Hstep Hinv. by eapply Pool_inv1_step.
Qed.

Lemma Pool_one_token_sound h fn db l o :
  no_nil h db l ->
  ForEachNShards_fn h 1 fn db l o ->
  o = ForEachShard_fn h fn db l None [].
Proof.
  intros Hnn Hrun. exact (Pool_inv1_reachable h fn db l _ Hnn Hrun).
Qed.

Lemma Pool_one_token_complete h fn db : forall rest ws ch calls,
  rtc (Pool_step h 1 fn db)
    (PLive (mkPool rest ws 0 0 ch calls))
    (PEnd (ForEachShard_fn h fn db rest ch calls)).
Proof.
  induction rest as [|shard rest IH]; intros ws ch calls.
  - simpl. apply rtc_once. constructor.
  - destruct (Options_differ h shard db) as [[|]|msg] eqn:Hd.
    + eapply rtc_l; [by apply P_skip |].
      simpl. rewrite Hd. apply IH.
    + rewrite ForEachShard_fn_call by done.
      eapply rtc_l; [apply P_go; [done | lia] |].
      eapply rtc_l.
      { apply (P_call _ _ _ _ (length ws)). by apply list_lookup_middle. }
      rewrite insert_middle.
      destruct (fn shard) as [e|].
      * eapply rtc_l.
        { apply (P_send _ _ _ _ (length ws)). by apply list_lookup_middle. }
        rewrite insert_middle.
        eapply rtc_l.
        { apply (P_release _ _ _ _ (length ws)). by apply list_lookup_middle. }
        rewrite insert_middle.
        eapply rtc_l.
        { apply (P_done _ _ _ _ (length ws)). by apply list_lookup_middle. }
        rewrite insert_middle. apply IH.
      * eapply rtc_l.
        { apply (P_release _ _ _ _ (length ws)). by apply list_lookup_middle. }
        rewrite insert_middle.
        eapply rtc_l.
        { apply (P_done _ _ _ _ (length ws)). by apply list_lookup_middle. }
        rewrite insert_middle. apply IH.
    + simpl. rewrite Hd. apply rtc_once. by apply P_nil.
Qed.

(** With one token, every execution of the function of [ForEachNShards]
    can be completed: no configuration it reaches is a dead end. *)

Lemma no_weight_no_worker ws :
  sum_list_with worker_weight ws = 0%nat ->
  Forall (fun w => w = WGone) ws.
Proof.
  induction ws as [|w ws IH]; simpl; [constructor |]. intros Hsum.
  constructor; [destruct w; simpl in *; done || lia | apply IH; lia].
Qed.

(** A goroutine that has not finished can make a step. *)
Lemma Pool_worker_step h fn db target p i w :
  Pool_inv1 h fn db target (PLive p) ->
  p_workers p !! i = Some w ->
  (0 < worker_weight w)%nat ->
  exists p',
    Pool_step h 1 fn db (PLive p) (PLive p')
    /\ p_rest p' = p_rest p
    /\ (sum_list_with worker_weight (p_workers p')
        < sum_list_with worker_weight (p_workers p))%nat.
Proof.
  destruct p as [rest ws lim wg ch calls]. simpl.
  intros (Htok & _ & Hwg & _) Hi Hpos. simpl in *.
  destruct w as [s|e| | |]; simpl in Hpos; [| | | | lia].
  - eexists. split; [by eapply P_call |]. simpl. split; [done |].
    pose proof (sum_list_with_insert worker_weight ws i _
                  (match fn s with Some e => WSend e | None => WRelease end)
                  Hi) as Hs.
    destruct (fn s); simpl in Hs; lia.
  - eexists. split; [by eapply P_send |]. simpl. split; [done |].
    pose proof (sum_list_with_insert worker_weight ws i _ WRelease Hi) as Hs.
    simpl in Hs. lia.
  - pose proof (filter_lookup_pos holds_token ws i _ Hi I) as Hh.
    destruct lim as [|lim]; [exfalso; lia |].
    eexists. split; [by eapply P_release |]. simpl. split; [done |].
    pose proof (sum_list_with_insert worker_weight ws i _ WDone Hi) as Hs.
    simpl in Hs. lia.
  - pose proof (filter_lookup_pos worker_live ws i _ Hi) as Hl.
    destruct wg as [|wg]; [exfalso; specialize (Hl ltac:(done)); lia |].
    eexists. split; [by eapply P_done |]. simpl. split; [done |].
    pose proof (sum_list_with_insert worker_weight ws i _ WGone Hi) as Hs.
    simpl in Hs. lia.
Qed.

(** The goroutines started can all be run to their end. *)
Lemma Pool_finish_workers h fn db target : forall m p,
  (sum_list_with worker_weight (p_workers p) <= m)%nat ->
  Pool_inv1 h fn db target (PLive p) ->
  exists p',
    rtc (Pool_step h 1 fn db) (PLive p) (PLive p')
    /\ Pool_inv1 h fn db target (PLive p')
    /\ sum_list_with worker_weight (p_workers p') = 0%nat.
Proof.
  induction m as [|m IH]; intros p Hm Hinv.
  - exists p. split; [done |]. split; [done | lia].
  - destruct (decide (sum_list_with worker_weight (p_workers p) = 0%nat))
      as [Hz|Hnz].
    { by exists p. }
    destruct (sum_list_with_pos worker_weight (p_workers p))
      as (i & w & Hi & Hw); [lia |].
    destruct (Pool_worker_step h fn db target p i w Hinv Hi Hw)
      as (p' & Hstep & _ & Hlt).
    destruct (IH p') as (p'' & Hrun & Hinv'' & Hz'');
      [lia | by eapply Pool_inv1_step |].
    exists p''. split; [by eapply rtc_l | done].
Qed.

Lemma Pool_can_finish h fn db target p :
  Pool_inv1 h fn db target (PLive p) ->
  rtc (Pool_step h 1 fn db) (PLive p) (PEnd target).
Proof.
  intros Hinv.
  destruct (Pool_finish_workers h fn db target _ p (Nat.le_refl _) Hinv)
    as ([rest ws lim wg ch calls] & Hrun & Hinv' & Hz).
  simpl in *. destruct Hinv' as (Htok & _ & Hwg & _ & Htarget). simpl in *.
  pose proof (no_weight_no_worker ws Hz) as Hgone.
  assert (Hidle : Forall (fun w => ~ holds_token w) ws).
  { eapply Forall_impl; [exact Hgone |]. intros w -> Ht. exact Ht. }
  assert (Hdead : Forall (fun w => ~ worker_live w) ws).
  { eapply Forall_impl; [exact Hgone |]. intros w -> Hl. by apply Hl. }
  rewrite absorb_idle in Htarget by done. simpl in Htarget.
  rewrite (filter_none holds_token ws) in Htok
    by (intros w Hw; by apply (proj1 (Forall_forall _ _) Hidle)).
  rewrite (filter_none worker_live ws) in Hwg
    by (intros w Hw; by apply (proj1 (Forall_forall _ _) Hdead)).
  simpl in *. subst lim wg target.
  etrans; [exact Hrun |]. apply Pool_one_token_complete.
Qed.

Lemma ForEachNShards_fn_one_completes h fn db l c :
  no_nil h db l ->
  rtc (Pool_step h 1 fn db) (Pool_init 1 l) c ->
  rtc (Pool_step h 1 fn db) c (PEnd (ForEachShard_fn h fn db l None [])).
Proof.
  intros Hnn Hrun.
  pose proof (Pool_inv1_reachable h fn db l c Hnn Hrun) as Hinv.
  destruct c as [p|o].
  - by apply Pool_can_finish.
  - simpl in Hinv. by subst o.
Qed.

(** Every step of the function of [ForEachNShards] uses up the bound,
    whatever the number of tokens. *)
Lemma Pool_step_measure h n fn db c c' :
  Pool_step h n fn db c c' -> (pool_measure c' < pool_measure c)%nat.
Proof.
  intros Hstep.
  destruct Hstep as
    [shard rest ws lim wg ch calls Hd
    |shard rest ws lim wg ch calls msg Hd
    |shard rest ws lim wg ch calls Hd Hroom
    |i shard rest ws lim wg ch calls Hi
    |i e rest ws lim wg ch calls Hi
    |i rest ws lim wg ch calls Hi
    |i rest ws lim wg ch calls Hi
    |ws lim ch calls];
    simpl; try lia.
  - rewrite sum_list_with_app. simpl. lia.
  - pose proof (sum_list_with_insert worker_weight ws i _
                  (match fn shard with Some e => WSend e | None => WRelease end)
                  Hi) as Hs.
    destruct (fn shard); simpl in Hs; lia.
  - pose proof (sum_list_with_insert worker_weight ws i _ WRelease Hi) as Hs.
    simpl in Hs. lia.
  - pose proof (sum_list_with_insert worker_weight ws i _ WDone Hi) as Hs.
    simpl in Hs. lia.
  - pose proof (sum_list_with_insert worker_weight ws i _ WGone Hi) as Hs.
    simpl in Hs. lia.
Qed.

Lemma Pool_bounded h n fn db k c c' :
  nsteps (Pool_step h n fn db) k c c' ->
  (k + pool_measure c' <= pool_measure c)%nat.
Proof.
  induction 1 as [c|k c c1 c' Hstep _ IH]; [lia |].
  pose proof (Pool_step_measure h n fn db c c1 Hstep). lia.
Qed.

(** With one token, the function of [ForEachNShards] has one outcome, the
    outcome of the function of [ForEachShard]. *)
Lemma ForEachNShards_fn_one h fn db l o :
  no_nil h db l ->
  ForEachNShards_fn h 1 fn db l o <-> o = ForEachShard_fn h fn db l None [].
Proof.
  intros Hnn. split; [by apply Pool_one_token_sound |].
  intros ->. unfold ForEachNShards_fn, Pool_init.
  destruct (decide (1 < 0)); [lia |]. apply Pool_one_token_complete.
Qed.

(** The executions of [ForEachDB] depend on the function only through its
    outcomes on the servers. *)
Lemma Fan_rtc_ext body1 body2 (P : ptr -> Prop) :
  (forall db o, P db -> body1 db o -> body2 db o) ->
  forall c c',
    rtc (Fan_step body1) c c' ->
    match c with FLive f => Forall P (f_rest f) | FEnd _ => True end ->
    rtc (Fan_step body2) c c'.
Proof.
  intros Hext c c' Hrun.
  induction Hrun as [c|c c1 c' Hstep _ IH]; intros HP; [done |].
  destruct Hstep; simpl in *.
  - apply Forall_cons in HP as [Hdb HP].
    eapply rtc_l; [apply F_go; by apply Hext |]. by apply IH.
  - eapply rtc_l; [by eapply F_call |]. by apply IH.
  - eapply rtc_l; [by eapply F_nil |]. by apply IH.
  - eapply rtc_l; [by eapply F_err |]. by apply IH.
  - eapply rtc_l; [by eapply F_panic |]. by apply IH.
  - eapply rtc_l; [by eapply F_send |]. by apply IH.
  - eapply rtc_l; [by eapply F_done |]. by apply IH.
  - eapply rtc_l; [by eapply F_return |]. by apply IH.
Qed.

Lemma ForEachDB_with_ext cl body1 body2 o :
  (forall db o', db ∈ servers cl -> body1 db o' <-> body2 db o') ->
  ForEachDB_with cl body1 o <-> ForEachDB_with cl body2 o.
Proof.
  intros Hext. unfold ForEachDB_with.
  split; intros Hrun;
    (eapply (Fan_rtc_ext _ _ (fun db => db ∈ servers cl));
     [| exact Hrun | simpl; by apply Forall_forall]);
    intros db o' Hdb Hb; by apply (Hext db o' Hdb).
Qed.

(** ** Handles of a constructed cluster *)

Lemma constructed_server_live (h : Heap) cl db :
  constructed h cl -> db ∈ dbs cl -> is_Some (deref h db).
Proof.
  intros Hc Hin. apply list_elem_of_lookup in Hin as [j Hj].
  pose proof (lookup_lt_Some _ _ _ Hj) as Hlt.
  pose proof (c_shards_ge _ _ Hc) as Hge.
  destruct (c_bound _ _ Hc (Z.of_nat j)) as (s & db' & _ & Hdb' & o & Ho & _).
  { unfold len in *. lia. }
  rewrite Z.mod_small in Hdb' by (unfold len; lia).
  rewrite Nat2Z.id in Hdb'. rewrite Hj in Hdb'. injection Hdb' as <-.
  by exists o.
Qed.

Lemma constructed_shard (h : Heap) cl s :
  constructed h cl -> s ∈ shards cl ->
  exists j db o,
    0 <= j < len (shards cl)
    /\ shards cl !! Z.to_nat j = Some s
    /\ dbs cl !! Z.to_nat (j mod len (dbs cl)) = Some db
    /\ deref h db = Some o
    /\ deref h s = Some (shardObj (gen cl) o j).
Proof.
  intros Hc Hin. apply list_elem_of_lookup in Hin as [j Hj].
  pose proof (lookup_lt_Some _ _ _ Hj) as Hlt.
  destruct (c_bound _ _ Hc (Z.of_nat j)) as (s' & db & Hs' & Hdb & o & Ho & Hs).
  { unfold len. lia. }
  rewrite Nat2Z.id in Hs'. rewrite Hj in Hs'. injection Hs' as <-.
  exists (Z.of_nat j), db, o. rewrite Nat2Z.id.
  repeat split; auto; unfold len; lia.
Qed.

Lemma constructed_no_nil (h : Heap) cl db :
  constructed h cl -> db ∈ dbs cl -> no_nil h db (shards cl).
Proof.
  intros Hc Hdb. apply Forall_forall. intros s Hs.
  destruct (constructed_server_live h cl db Hc Hdb) as [o Ho].
  destruct (constructed_shard h cl s Hc Hs) as (j & db' & o' & _ & _ & _ & _ & Hso).
  unfold Options_differ, Options. rewrite Hso, Ho. simpl. eauto.
Qed.

(** ** Fan-out: ForEachShard *)

Lemma Options_differ_Ok h s db b :
  Options_differ h s db = Ok b -> (b = false <-> same_options h db s).
Proof.
  unfold Options_differ, same_options.
  destruct (Options h s) as [a|], (Options h db) as [a'|]; try done.
  intros [= <-]. rewrite bool_decide_eq_false. split.
  - intros Hn. f_equal. by destruct (decide (a = a')).
  - intros [= ->]. tauto.
Qed.

Lemma ForEachShard_fn_calls h fn db l :
  no_nil h db l ->
  forall e c, exists e',
    ForEachShard_fn h fn db l e c
    = (c ++ filter (same_options h db) l, Ok e').
Proof.
  induction l as [|s l IH]; intros Hnn e c.
  - exists e. simpl. by rewrite app_nil_r.
  - apply Forall_cons in Hnn as [[b Hb] Hnn].
    pose proof (Options_differ_Ok _ _ _ _ Hb) as Hsame.
    simpl. rewrite Hb. destruct b.
    + rewrite filter_cons_False by (intros Hs; by apply Hsame in Hs).
      by apply IH.
    + rewrite filter_cons_True by (by apply Hsame).
      destruct (IH Hnn (match fn s, e with
                        | Some e0, None => Some e0
                        | _, _ => e
                        end) (c ++ [s])) as [e' ->].
      exists e'. by rewrite <- app_assoc.
Qed.

Lemma constructed_shard_facts (h : Heap) cl j s :
  constructed h cl ->
  shards cl !! j = Some s ->
  shard_id h s = Some (Z.of_nat j)
  /\ exists db,
      db ∈ dbs cl
      /\ server_of cl h s = Some db
      /\ Options h s = Options h db.
Proof.
  intros Hc Hj.
  pose proof (lookup_lt_Some _ _ _ Hj) as Hlt.
  destruct (c_bound _ _ Hc (Z.of_nat j)) as (s' & db & Hs' & Hdb & o & Ho & Hs).
  { unfold len. lia. }
  rewrite Nat2Z.id in Hs'. rewrite Hj in Hs'. injection Hs' as <-.
  assert (Hid : shard_id h s = Some (Z.of_nat j)).
  { unfold shard_id. rewrite Hs. simpl.
    rewrite lookup_insert_ne by done. rewrite lookup_insert_ne by done.
    by rewrite lookup_insert_eq. }
  split; [done |]. exists db. split; [| split].
  - by eapply list_elem_of_lookup_2.
  - unfold server_of. by rewrite Hid.
  - unfold Options. by rewrite Hs, Ho.
Qed.

Lemma constructed_shards_NoDup (h : Heap) cl :
  constructed h cl -> NoDup (shards cl).
Proof.
  intros Hc. apply NoDup_alt. intros i j s Hi Hj.
  destruct (constructed_shard_facts h cl i s Hc Hi) as [Hidi _].
  destruct (constructed_shard_facts h cl j s Hc Hj) as [Hidj _].
  rewrite Hidi in Hidj. injection Hidj. lia.
Qed.

Lemma concat_filter_cons {A B} (P : A -> B -> Prop)
  `{forall a b, Decision (P a b)} (srv : list A) (s : B) (l : list B) a0 :
  NoDup srv ->
  a0 ∈ srv ->
  (forall a, a ∈ srv -> P a s <-> a = a0) ->
  concat ((fun a => filter (P a) (s :: l)) <$> srv)
  ≡ₚ s :: concat ((fun a => filter (P a) l) <$> srv).
Proof.
  induction srv as [|a srv IH]; intros Hnd Hin Hown.
  - by apply elem_of_nil in Hin.
  - apply NoDup_cons in Hnd as [Hnotin Hnd]. csimpl.
    destruct (decide (P a s)) as [HPa|HPa].
    + assert (a = a0) by (apply Hown; [by left | done]). subst a.
      rewrite filter_cons_True by done.
      simpl. apply Permutation_skip. apply Permutation_app_head.
      replace ((fun a => filter (P a) (s :: l)) <$> srv)
        with ((fun a => filter (P a) l) <$> srv); [done |].
      apply Forall_fmap_ext_1, Forall_forall. intros a Ha.
      rewrite filter_cons_False; [done |].
      intros HP. apply Hown in HP; [| by right]. by subst a.
    + rewrite filter_cons_False by done.
      rewrite IH; [| done | | ].
      * by rewrite Permutation_middle.
      * apply elem_of_cons in Hin as [->|Hin]; [| done].
        exfalso. apply HPa. apply Hown; [by left | done].
      * intros a' Ha'. apply Hown. by right.
Qed.

(** A list splits into the parts selected by the elements of [srv], when
    every element of the list is selected by exactly one of them. *)
Lemma concat_filter_partition {A B} (P : A -> B -> Prop)
  `{forall a b, Decision (P a b)} (srv : list A) (l : list B) :
  NoDup srv ->
  (forall s, s ∈ l ->
     exists a0, a0 ∈ srv /\ forall a, a ∈ srv -> P a s <-> a = a0) ->
  concat ((fun a => filter (P a) l) <$> srv) ≡ₚ l.
Proof.
  intros Hnd. induction l as [|s l IH]; intros Hown.
  - clear. induction srv as [|a srv IH]; csimpl; [done | exact IH].
  - destruct (Hown s) as (a0 & Ha0 & Hs); [by left |].
    rewrite (concat_filter_cons P srv s l a0) by done.
    apply Permutation_skip. apply IH.
    intros s' Hs'. apply Hown. by right.
Qed.

(** The shard ids of a selection of consecutive shards increase. *)
Lemma sorted_shard_ids h (P : ptr -> Prop) `{forall s, Decision (P s)} l :
  forall k,
    (forall i s, l !! i = Some s -> shard_id h s = Some (k + Z.of_nat i)) ->
    StronglySorted Z.lt (omap (shard_id h) (filter P l))
    /\ Forall (fun z => k <= z) (omap (shard_id h) (filter P l)).
Proof.
  induction l as [|s l IH]; intros k Hids.
  - split; constructor.
  - destruct (IH (k + 1)) as [Hsorted Hge].
    { intros i s' Hi. rewrite (Hids (S i) s' Hi). f_equal. lia. }
    rewrite filter_cons. destruct (decide (P s)); [| split].
    + csimpl. rewrite (Hids 0%nat s eq_refl). simpl. split.
      * apply SSorted_cons; [done |].
        eapply Forall_impl; [exact Hge |]. intros z Hz. simpl in Hz. lia.
      * constructor; [lia |].
        eapply Forall_impl; [exact Hge |]. intros z Hz. simpl in Hz. lia.
    + done.
    + eapply Forall_impl; [exact Hge |]. intros z Hz. simpl in Hz. lia.
Qed.

Lemma constructed_servers_dbs (h : Heap) cl db :
  constructed h cl -> db ∈ servers cl <-> db ∈ dbs cl.
Proof. intros Hc. rewrite (c_servers _ _ Hc). apply init_servers_elem. Qed.

(** Every shard of a constructed cluster whose servers answer distinct
    options has one server, the one it is placed on. *)
Lemma shard_owner (h : Heap) cl s :
  constructed h cl ->
  distinct_options h (dbs cl) ->
  s ∈ shards cl ->
  exists db0,
    db0 ∈ servers cl
    /\ server_of cl h s = Some db0
    /\ forall db, db ∈ servers cl -> same_options h db s <-> db = db0.
Proof.
  intros Hc Hdist Hs. apply list_elem_of_lookup in Hs as [j Hj].
  destruct (constructed_shard_facts h cl j s Hc Hj)
    as (_ & db0 & Hdb0 & Hsrv & Hopt).
  exists db0. split; [by apply (constructed_servers_dbs h) |].
  split; [done |]. intros db Hdb. unfold same_options. split.
  - intros Hsame. apply Hdist; [by apply (constructed_servers_dbs h cl) | done |].
    by rewrite <- Hsame.
  - by intros ->.
Qed.

Lemma ForEachShard_fn_constructed (h : Heap) cl fn db :
  constructed h cl ->
  db ∈ servers cl ->
  exists e,
    ForEachShard_fn h fn db (shards cl) None []
    = (filter (same_options h db) (shards cl), Ok e).
Proof.
  intros Hc Hdb.
  apply (ForEachShard_fn_calls h fn db (shards cl)).
  apply constructed_no_nil; [done |]. by apply (constructed_servers_dbs h).
Qed.

(** Every execution of [ForEachShard] on a constructed cluster returns, and
    its calls are an interleaving of the shards of each server, in the order
    of the shard list. *)
Lemma ForEachShard_interleave (h : Heap) cl fn calls r :
  constructed h cl ->
  ForEachShard h cl fn (calls, r) ->
  (exists e, r = Ok e)
  /\ interleave
       ((fun db => filter (same_options h db) (shards cl)) <$> servers cl)
       calls.
Proof.
  intros Hc Hrun. apply Fan_inv_reachable in Hrun.
  destruct r as [e|msg]; simpl in Hrun.
  - destruct Hrun as (outs & HF & Hil). split; [eauto |].
    apply Forall2_fun_fmap in HF. subst outs.
    rewrite <- list_fmap_compose in Hil.
    replace ((fun db => filter (same_options h db) (shards cl)) <$> servers cl)
      with (fst ∘ (fun db => ForEachShard_fn h fn db (shards cl) None [])
              <$> servers cl); [done |].
    apply Forall_fmap_ext_1, Forall_forall. intros db Hdb. simpl.
    by destruct (ForEachShard_fn_constructed h cl fn db Hc Hdb) as [e' ->].
  - destruct Hrun as (db & tr & Hdb & Hbody).
    destruct (ForEachShard_fn_constructed h cl fn db Hc Hdb) as [e' He'].
    congruence.
Qed.

Lemma ForEachShard_exists (h : Heap) cl fn :
  constructed h cl -> exists calls e, ForEachShard h cl fn (calls, Ok e).
Proof.
  intros Hc.
  pose proof (Fan_sequential
                (fun db o' => o' = ForEachShard_fn h fn db (shards cl) None [])
                (servers cl)
                ((fun db => ForEachShard_fn h fn db (shards cl) None [])
                   <$> servers cl)
                [] None []) as Hrun.
  eexists _, _. apply Hrun.
  - by apply Forall2_fun_fmap.
  - apply Forall_fmap, Forall_forall. intros db Hdb. simpl.
    destruct (ForEachShard_fn_constructed h cl fn db Hc Hdb) as [e' ->].
    simpl. eauto.
Qed.

(** C7, as the code has it.  On a constructed cluster whose servers answer
    pairwise distinct options, every execution of [ForEachShard(fn)] returns
    and calls [fn] exactly once on every shard (the shards are pairwise
    distinct and the calls are a permutation of the shard list), and the
    calls on the shards of any one server are these shards in the order of
    the shard list, that is in strictly ascending order of the shard id (the
    id of a shard is its index).  No execution gets stuck or runs for
    ever. *)
Theorem C7_ForEachShard_once_per_shard_in_order D dbs0 nshards gen0
  (h : Heap) cl (h' : Heap) (fn : ptr -> error) :
  NewClusterWithGen D dbs0 nshards gen0 h = Ok (cl, h') ->
  distinct_options h' dbs0 ->
  NoDup (shards cl)
  /\ (forall i s, shards cl !! i = Some s ->
       shard_id h' s = Some (Z.of_nat i)
       /\ exists db, db ∈ dbs0 /\ server_of cl h' s = Some db)
  /\ always_ends cl (ForEachShard_outcome h' cl fn)
  /\ (exists calls e, ForEachShard h' cl fn (calls, Ok e))
  /\ forall calls r,
      ForEachShard h' cl fn (calls, r) ->
      (exists e, r = Ok e)
      /\ calls ≡ₚ shards cl
      /\ forall db, db ∈ dbs0 ->
           filter (fun s => server_of cl h' s = Some db) calls
           = filter (fun s => server_of cl h' s = Some db) (shards cl)
           /\ StronglySorted Z.lt
                (omap (shard_id h')
                   (filter (fun s => server_of cl h' s = Some db) calls)).
Proof.
  intros Hnew Hdist.
  apply NewClusterWithGen_inv in Hnew as (_ & Hd & _ & _ & _ & Hc).
  rewrite <- Hd in *. clear Hd dbs0.
  split; [by eapply constructed_shards_NoDup |].
  split.
  { intros i s Hi.
    destruct (constructed_shard_facts h' cl i s Hc Hi)
      as (Hid & db & Hdb & Hsrv & _).
    split; [done |]. by exists db. }
  split.
  { by apply (ForEachDB_with_always_ends cl _
                (fun db => ForEachShard_fn h' fn db (shards cl) None [])). }
  split; [by apply ForEachShard_exists |].
  intros calls r Hrun.
  destruct (ForEachShard_interleave h' cl fn calls r Hc Hrun) as [Hok Hil].
  split; [done |].
  assert (Hnd : NoDup (servers cl)).
  { rewrite (c_servers _ _ Hc). apply init_servers_NoDup. }
  assert (Hperm : calls ≡ₚ shards cl).
  { rewrite (interleave_Permutation _ _ Hil).
    apply (concat_filter_partition (same_options h')); [done |].
    intros s Hs.
    destruct (shard_owner h' cl s Hc Hdist Hs) as (db0 & Hdb0 & _ & Hown).
    eauto. }
  split; [done |].
  intros db Hdb. apply (constructed_servers_dbs h' cl db Hc) in Hdb.
  assert (Hsel : forall l, l ⊆ shards cl ->
            filter (fun s => server_of cl h' s = Some db) l
            = filter (same_options h' db) l).
  { intros l Hl. apply filter_ext_in. intros s Hs.
    destruct (shard_owner h' cl s Hc Hdist (Hl s Hs))
      as (db0 & Hdb0 & Hsrv & Hown).
    rewrite Hsrv, (Hown db Hdb). split; [by intros [= ->] | by intros ->]. }
  rewrite Hsel by (intros s Hs; by rewrite <- Hperm).
  apply list_elem_of_lookup in Hdb as [i0 Hi0].
  assert (Hmine : filter (same_options h' db) calls
                  = filter (same_options h' db) (shards cl)).
  { apply (interleave_single _ _
             (interleave_filter (same_options h' db) _ _ Hil) i0).
    - rewrite !list_lookup_fmap, Hi0. simpl.
      rewrite list_filter_filter. f_equal.
      apply list_filter_iff. tauto.
    - intros j b Hj Hne.
      rewrite !list_lookup_fmap in Hj.
      destruct (servers cl !! j) as [db'|] eqn:Hdb'; [| done].
      simpl in Hj. injection Hj as <-.
      rewrite list_filter_filter. apply filter_none.
      intros s Hs [Hs1 Hs2].
      destruct (shard_owner h' cl s Hc Hdist Hs) as (db0 & _ & _ & Hown).
      apply Hown in Hs1; [| by eapply list_elem_of_lookup_2].
      apply Hown in Hs2; [| by eapply list_elem_of_lookup_2].
      subst db db'. apply Hne.
      by eapply (proj1 (NoDup_alt _) Hnd). }
  rewrite Hmine, <- Hsel by done. split; [done |].
  apply (sorted_shard_ids h' _ (shards cl) 0).
  intros i s Hi. rewrite Z.add_0_l.
  by destruct (constructed_shard_facts h' cl i s Hc Hi) as [-> _].
Qed.

Lemma sample_cluster_Twin :
  NewClusterWithGen sampleGen [serverA; serverB] 2 None heapTwin
    = Ok (clusterTwin, heapTwin2).
Proof. vm_compute. reflexivity. Qed.

Lemma distinct_options_AB : distinct_options heapAB4 [serverA; serverB].
Proof.
  intros db1 db2 H1 H2 Ho.
  apply elem_of_cons in H1 as [->|H1]; apply elem_of_cons in H2 as [->|H2];
    try done;
    repeat match goal with
    | H : _ ∈ [_] |- _ => apply list_elem_of_singleton in H; subst
    end;
    try done; vm_compute in Ho; congruence.
Qed.

Lemma C7_witness :
  (NewClusterWithGen sampleGen [serverA; serverB] 4 None heapAB
     = Ok (clusterAB, heapAB4)
   /\ distinct_options heapAB4 [serverA; serverB])
  /\ (exists calls e, ForEachShard heapAB4 clusterAB failOn7 (calls, Ok e))
  /\ (forall calls r,
        ForEachShard heapAB4 clusterAB failOn7 (calls, r) ->
        calls ≡ₚ [Addr 4; Addr 7; Addr 10; Addr 13]
        /\ StronglySorted Z.lt
             (omap (shard_id heapAB4)
                (filter (fun s => server_of clusterAB heapAB4 s = Some serverA)
                   calls))).
Proof.
  split; [exact (conj sample_cluster distinct_options_AB) |].
  destruct (C7_ForEachShard_once_per_shard_in_order _ _ _ _ _ _ _ failOn7
              sample_cluster distinct_options_AB)
    as (_ & _ & _ & Hex & Hall).
  split; [exact Hex |].
  intros calls r Hrun. destruct (Hall calls r Hrun) as (_ & Hp & Hs).
  split; [exact Hp |]. apply (Hs serverA). by left.
Defined.

(** C7, as the specification states it, fails: when two handles of the
    placement list answer the same options, the function [ForEachShard]
    passes to [ForEachDB] selects, on each of the two, the shards of both, and
    [fn] is called twice on every shard. *)
Lemma C7_counterexample :
  NewClusterWithGen sampleGen [serverA; serverB] 2 None heapTwin
    = Ok (clusterTwin, heapTwin2)
  /\ shards clusterTwin = [Addr 4; Addr 7]
  /\ ForEachShard heapTwin2 clusterTwin (fun _ => None)
       ([Addr 4; Addr 7; Addr 4; Addr 7], Ok None)
  /\ ~ [Addr 4; Addr 7; Addr 4; Addr 7] ≡ₚ shards clusterTwin.
Proof.
  split; [exact sample_cluster_Twin |]. split; [reflexivity |]. split.
  - unfold ForEachShard, ForEachDB_with, Fan_init.
    pose proof (Fan_sequential
      (fun db o' =>
         o' = ForEachShard_fn heapTwin2 (fun _ => None) db
                (shards clusterTwin) None [])
      (servers clusterTwin)
      ((fun db => ForEachShard_fn heapTwin2 (fun _ => None) db
                    (shards clusterTwin) None []) <$> servers clusterTwin)
      [] None []) as Hrun.
    replace ([Addr 4; Addr 7; Addr 4; Addr 7], Ok None)
      with ([] ++ concat
              ((fun db => ForEachShard_fn heapTwin2 (fun _ => None) db
                            (shards clusterTwin) None [])
                 <$> servers clusterTwin).*1,
            Ok (foldl send_answer None
                  ((fun db => ForEachShard_fn heapTwin2 (fun _ => None) db
                                (shards clusterTwin) None [])
                     <$> servers clusterTwin)) : Result error)
      by (vm_compute; reflexivity).
    apply Hrun.
    + by apply Forall2_fun_fmap.
    + repeat constructor; eexists; vm_compute; reflexivity.
  - intros Hp. apply Permutation_length in Hp. discriminate.
Qed.

(** ** Fan-out: ForEachNShards with one token *)

(** C8. On a constructed cluster, [ForEachNShards(1, fn)] and
    [ForEachShard(fn)] have the same results: on every server the function
    [ForEachNShards] passes to [ForEachDB] never gets stuck, makes a bounded
    number of steps and always ends with the outcome of the function of
    [ForEachShard] (the same calls of [fn] in the same order, the same first
    error), and the two operations
    have the same outcomes (calls made and returned error); no execution of
    [ForEachNShards(1, fn)] gets stuck or runs for ever. *)
Theorem C8_ForEachNShards_one_is_ForEachShard D dbs0 nshards gen0 (h : Heap)
  cl (h' : Heap) (fn : ptr -> error) :
  NewClusterWithGen D dbs0 nshards gen0 h = Ok (cl, h') ->
  (forall db o, db ∈ servers cl ->
     ForEachNShards_fn h' 1 fn db (shards cl) o
     <-> o = ForEachShard_fn h' fn db (shards cl) None [])
  /\ (forall db c, db ∈ servers cl ->
       rtc (Pool_step h' 1 fn db) (Pool_init 1 (shards cl)) c ->
       rtc (Pool_step h' 1 fn db) c
         (PEnd (ForEachShard_fn h' fn db (shards cl) None [])))
  /\ (forall db k c,
       nsteps (Pool_step h' 1 fn db) k (Pool_init 1 (shards cl)) c ->
       (k <= 1 + 5 * length (shards cl))%nat)
  /\ (forall o, ForEachNShards h' cl 1 fn o <-> ForEachShard h' cl fn o)
  /\ always_ends cl (ForEachNShards_outcome h' cl 1 fn)
  /\ (exists calls e, ForEachNShards h' cl 1 fn (calls, Ok e)).
Proof.
  intros Hnew.
  apply NewClusterWithGen_inv in Hnew as (_ & Hd & _ & _ & _ & Hc).
  assert (Hnn : forall db, db ∈ servers cl -> no_nil h' db (shards cl)).
  { intros db Hdb. apply constructed_no_nil; [done |].
    apply init_servers_elem. by rewrite <- (c_servers _ _ Hc). }
  assert (Hfn : forall db o, db ∈ servers cl ->
     ForEachNShards_fn h' 1 fn db (shards cl) o
     <-> o = ForEachShard_fn h' fn db (shards cl) None []).
  { intros db o Hdb. apply ForEachNShards_fn_one. by apply Hnn. }
  assert (Heq : forall o,
            ForEachNShards h' cl 1 fn o <-> ForEachShard h' cl fn o).
  { intros o. unfold ForEachNShards, ForEachShard.
    apply ForEachDB_with_ext. intros db o' Hdb. by apply Hfn. }
  split; [exact Hfn |].
  split.
  { intros db c Hdb. apply ForEachNShards_fn_one_completes. by apply Hnn. }
  split.
  { intros db k c Hk.
    pose proof (Pool_bounded _ _ _ _ _ _ _ Hk) as Hb.
    unfold Pool_init in Hb. simpl in Hb. lia. }
  split; [exact Heq |].
  split.
  { apply (ForEachDB_with_always_ends cl _
             (fun db => ForEachShard_fn h' fn db (shards cl) None [])).
    intros db o Hdb. by apply Hfn. }
  destruct (ForEachShard_exists h' cl fn Hc) as (calls & e & Hrun).
  exists calls, e. by apply Heq.
Qed.

Lemma C8_witness :
  NewClusterWithGen sampleGen [serverA; serverB] 4 None heapAB
    = Ok (clusterAB, heapAB4)
  /\ (forall o,
        ForEachNShards_fn heapAB4 1 failOn7 serverB (shards clusterAB) o
        <-> o = ([Addr 7; Addr 13], Ok (Some "failed")))
  /\ (forall o,
        ForEachNShards heapAB4 clusterAB 1 failOn7 o
        <-> ForEachShard heapAB4 clusterAB failOn7 o).
Proof.
  split; [exact sample_cluster |].
  destruct (C8_ForEachNShards_one_is_ForEachShard _ _ _ _ _ _ _ failOn7
              sample_cluster) as (Hfn & _ & _ & Heq & _).
  split; [| exact Heq].
  intros o. apply (Hfn serverB o). right. by left.
Defined.

(** * Further properties *)

(** ** Shards of a server *)

Lemma Shards_loop_placed cl db l : forall i acc,
  dbs cl <> [] ->
  Shards_loop cl db l (Z.of_nat i) acc = Ok (acc ++ placed_on cl db l i).
Proof.
  induction l as [|s l IH]; intros i acc Hne; simpl.
  - by rewrite app_nil_r.
  - assert (Hlen : (0 < length (dbs cl))%nat).
    { destruct (dbs cl); [done | simpl; lia]. }
    unfold go_rem, len. rewrite decide_False by lia. simpl.
    rewrite Z.rem_mod_nonneg by lia.
    rewrite <- Nat2Z.inj_mod.
    pose proof (Nat.mod_upper_bound i (length (dbs cl)) ltac:(lia)) as Hlt.
    destruct (lookup_lt_is_Some_2 (dbs cl) _ Hlt) as [d Hd].
    unfold index. rewrite decide_False by lia.
    rewrite Nat2Z.id, Hd. simpl.
    replace (Z.of_nat i + 1) with (Z.of_nat (S i)) by lia.
    rewrite IH by done.
    destruct (decide (d = db)) as [->|Hne'].
    + rewrite decide_True by done. by rewrite <- app_assoc.
    + rewrite decide_False by congruence. done.
Qed.

Lemma placed_on_elem cl db l : forall i s,
  s ∈ placed_on cl db l i <->
  exists j, l !! j = Some s
            /\ dbs cl !! ((i + j) mod length (dbs cl))%nat = Some db.
Proof.
  induction l as [|x l IH]; intros i s; simpl.
  - split; [by intros ?%elem_of_nil | by intros (j & ? & _)].
  - destruct (decide (dbs cl !! (i mod length (dbs cl))%nat = Some db))
      as [Hd|Hd].
    + rewrite elem_of_cons, IH. split.
      * intros [->|(j & Hj & Hdb)].
        -- exists 0%nat. by rewrite Nat.add_0_r.
        -- exists (S j). split; [done |].
           by replace (i + S j)%nat with (S i + j)%nat by lia.
      * intros ([|j] & Hj & Hdb).
        -- left. simpl in Hj. congruence.
        -- right. exists j. split; [done |].
           by replace (S i + j)%nat with (i + S j)%nat by lia.
    + rewrite IH. split.
      * intros (j & Hj & Hdb). exists (S j). split; [done |].
        by replace (i + S j)%nat with (S i + j)%nat by lia.
      * intros ([|j] & Hj & Hdb).
        -- rewrite Nat.add_0_r in Hdb. done.
        -- exists j. split; [done |].
           by replace (S i + j)%nat with (i + S j)%nat by lia.
Qed.

Lemma placed_on_sublist cl db l : forall i, placed_on cl db l i `sublist_of` l.
Proof.
  induction l as [|x l IH]; intros i; simpl; [done |].
  destruct (decide _); [by apply sublist_skip | by apply sublist_cons].
Qed.

Lemma placed_on_app cl db l1 l2 i :
  placed_on cl db (l1 ++ l2) i
  = placed_on cl db l1 i ++ placed_on cl db l2 (i + length l1).
Proof.
  revert i. induction l1 as [|x l1 IH]; intros i; simpl.
  - by rewrite Nat.add_0_r.
  - rewrite IH.
    replace (S i + length l1)%nat with (i + S (length l1))%nat by lia.
    by destruct (decide _).
Qed.

(** Within one round of the placement list, the loop keeps one shard for
    every entry that is [db]. *)
Lemma placed_on_round cl db l : forall i j,
  (j + length l <= length (dbs cl))%nat ->
  (i mod length (dbs cl) = j)%nat ->
  length (placed_on cl db l i)
  = length (filter (eq db) (take (length l) (drop j (dbs cl)))).
Proof.
  induction l as [|x l IH]; intros i j Hj Hi; simpl; [done |].
  simpl in Hj.
  assert (Hm : (0 < length (dbs cl))%nat) by lia.
  destruct (lookup_lt_is_Some_2 (dbs cl) j ltac:(lia)) as [d Hd].
  rewrite (drop_S _ _ _ Hd). simpl. rewrite Hi, Hd.
  assert (Hnext : (S i mod length (dbs cl) = S j)%nat
                  \/ length l = 0%nat).
  { destruct (decide (length l = 0%nat)) as [?|Hl]; [by right | left].
    replace (S i) with (1 + i)%nat by lia.
    rewrite <- Nat.Div0.add_mod_idemp_r, Hi.
    apply Nat.mod_small. lia. }
  destruct Hnext as [Hnext|Hl0].
  - specialize (IH (S i) (S j) ltac:(lia) Hnext).
    rewrite filter_cons.
    destruct (decide (Some d = Some db)) as [[= ->]|Hne].
    + rewrite decide_True by done. simpl. by rewrite IH.
    + rewrite decide_False by congruence. done.
  - destruct l; [| done]. simpl. rewrite take_0.
    rewrite filter_cons, filter_nil.
    destruct (decide (Some d = Some db)) as [[= ->]|Hne].
    + by rewrite decide_True.
    + rewrite decide_False by congruence. done.
Qed.

(** Over whole rounds, the loop keeps as many shards per round as the
    placement list has entries that are [db]. *)
Lemma placed_on_rounds cl db : forall q l i,
  dbs cl <> [] ->
  length l = (q * length (dbs cl))%nat ->
  (i mod length (dbs cl) = 0)%nat ->
  length (placed_on cl db l i)
  = (q * length (filter (eq db) (dbs cl)))%nat.
Proof.
  induction q as [|q IH]; intros l i Hne Hl Hi.
  - destruct l; [done | simpl in Hl; lia].
  - assert (Hm : (0 < length (dbs cl))%nat).
    { destruct (dbs cl); [done | simpl; lia]. }
    rewrite <- (take_drop (length (dbs cl)) l).
    rewrite placed_on_app, length_app.
    rewrite (placed_on_round cl db _ i 0%nat).
    + rewrite (IH (drop (length (dbs cl)) l)).
      * rewrite length_take. rewrite drop_0.
        replace (length (dbs cl) `min` length l)%nat
          with (length (dbs cl)) by lia.
        rewrite firstn_all. lia.
      * done.
      * rewrite length_drop. lia.
      * rewrite length_take.
        replace (length (dbs cl) `min` length l)%nat
          with (length (dbs cl)) by lia.
        rewrite <- Nat.Div0.add_mod_idemp_l, Hi. simpl.
        apply Nat.Div0.mod_same.
    + rewrite length_take. lia.
    + done.
Qed.

(** On the shards of a cluster, whose [shard_id] is their index, the loop of
    [Shards] selects by the placement entry of the shard. *)
Lemma placed_on_server_of h cl db l : forall i,
  dbs cl <> [] ->
  (forall j s, l !! j = Some s -> shard_id h s = Some (Z.of_nat (i + j))) ->
  placed_on cl db l i = filter (fun s => server_of cl h s = Some db) l.
Proof.
  induction l as [|x l IH]; intros i Hne Hid; simpl; [done |].
  assert (Hm : (0 < length (dbs cl))%nat).
  { destruct (dbs cl); [done | simpl; lia]. }
  rewrite filter_cons.
  assert (Hx : server_of cl h x = dbs cl !! (i mod length (dbs cl))%nat).
  { unfold server_of. rewrite (Hid 0%nat x eq_refl), Nat.add_0_r.
    unfold len. rewrite <- Nat2Z.inj_mod. by rewrite Nat2Z.id. }
  rewrite Hx.
  rewrite (IH (S i)); [by destruct (decide _) | done |].
  intros j s Hj. rewrite (Hid (S j) s Hj). f_equal. lia.
Qed.

Lemma constructed_dbs_ne (h : Heap) cl : constructed h cl -> dbs cl <> [].
Proof.
  intros Hc Hnil. pose proof (c_dbs_pos _ _ Hc) as Hp.
  rewrite Hnil in Hp. unfold len in Hp. simpl in Hp. lia.
Qed.

Lemma constructed_not_nil (h : Heap) cl : constructed h cl -> Nil ∉ dbs cl.
Proof.
  intros Hc Hin. by destruct (constructed_server_live h cl Nil Hc Hin).
Qed.

Lemma Shards_constructed (h : Heap) cl db :
  constructed h cl -> db <> Nil ->
  Shards cl db = Ok (placed_on cl db (shards cl) 0)
  /\ placed_on cl db (shards cl) 0
     = filter (fun s => server_of cl h s = Some db) (shards cl).
Proof.
  intros Hc Hdb. split.
  - unfold Shards. rewrite decide_False by done.
    apply (Shards_loop_placed cl db (shards cl) 0 []).
    by eapply constructed_dbs_ne.
  - apply placed_on_server_of; [by eapply constructed_dbs_ne |].
    intros j s Hj. by destruct (constructed_shard_facts h cl j s Hc Hj).
Qed.

(** X1. On a constructed cluster, [Shards(nil)] is the whole shard list, and
    [Shards(db)] never panics: it returns, in the order of the shard list, the
    shards whose index modulo the length of the placement list designates an
    entry equal to [db]; each of them is derived from [db], and the result is
    empty when [db] is not in the placement list. *)
Theorem Shards_of_server D dbs0 nshards gen0 (h : Heap) cl (h' : Heap) db :
  NewClusterWithGen D dbs0 nshards gen0 h = Ok (cl, h') ->
  Shards cl Nil = Ok (shards cl)
  /\ exists l,
      Shards cl db = Ok l
      /\ l `sublist_of` shards cl
      /\ (db <> Nil ->
          (forall s, s ∈ l <->
             exists i, shards cl !! i = Some s
                       /\ dbs0 !! (i mod length dbs0)%nat = Some db)
          /\ l = filter (fun s => server_of cl h' s = Some db) (shards cl)
          /\ (forall s, s ∈ l -> exists id, shard_of (gen cl) h' s db id)
          /\ (db ∉ dbs0 -> l = [])).
Proof.
  intros Hnew.
  apply NewClusterWithGen_inv in Hnew as (_ & Hd & _ & _ & _ & Hc).
  rewrite <- Hd. clear Hd dbs0.
  split; [done |].
  destruct (decide (db = Nil)) as [->|Hdb].
  { exists (shards cl). by split; [| split]. }
  destruct (Shards_constructed h' cl db Hc Hdb) as [HS Hf].
  exists (placed_on cl db (shards cl) 0).
  split; [done |]. split; [apply placed_on_sublist |].
  intros _.
  assert (Hmem : forall s, s ∈ placed_on cl db (shards cl) 0 <->
             exists i, shards cl !! i = Some s
                       /\ dbs cl !! (i mod length (dbs cl))%nat = Some db).
  { intros s. by rewrite placed_on_elem. }
  split; [exact Hmem |]. split; [done |]. split.
  - intros s (i & Hi & Hdbi)%Hmem.
    destruct (c_bound _ _ Hc (Z.of_nat i)) as (s' & db' & Hs' & Hdb' & Hof).
    { apply lookup_lt_Some in Hi. unfold len. lia. }
    rewrite Nat2Z.id in Hs'. unfold len in Hdb'.
    rewrite <- Nat2Z.inj_mod, Nat2Z.id in Hdb'.
    exists (Z.of_nat i). congruence.
  - intros Hnot. destruct (placed_on cl db (shards cl) 0) as [|s l] eqn:E;
      [done |].
    destruct (proj1 (Hmem s) ltac:(by left)) as (i & _ & Hi).
    destruct Hnot. by eapply list_elem_of_lookup_2.
Qed.

Lemma Shards_of_server_witness :
  NewClusterWithGen sampleGen [serverA; serverA; serverB; serverB] 4 None
    heapAB
  = Ok (clusterAABB, heapAABB4)
  /\ Shards clusterAABB serverB = Ok [Addr 10; Addr 13]
  /\ Shards clusterAABB (Addr 7) = Ok [].
Proof.
  split; [exact sample_cluster_AABB |].
  destruct (Shards_of_server _ _ _ _ _ _ _ serverB sample_cluster_AABB)
    as (_ & l & Hl & _).
  split; [| reflexivity].
  rewrite Hl. f_equal. vm_compute in Hl. congruence.
Defined.

(** X2. Placement is balanced: on a constructed cluster [Shards(db)] holds
    [nshards / len(dbs)] shards for every occurrence of [db] in the placement
    list; with a duplicate-free list every server holds exactly
    [nshards / len(dbs)] shards. *)
Theorem Shards_balanced D dbs0 nshards gen0 (h : Heap) cl (h' : Heap) db :
  NewClusterWithGen D dbs0 nshards gen0 h = Ok (cl, h') ->
  db <> Nil ->
  exists l,
    Shards cl db = Ok l
    /\ len l = nshards / len dbs0 * len (filter (eq db) dbs0)
    /\ (NoDup dbs0 -> db ∈ dbs0 -> len l = nshards / len dbs0).
Proof.
  intros Hnew Hdb.
  apply NewClusterWithGen_inv in Hnew as (_ & Hd & _ & Hn & _ & Hc).
  rewrite <- Hd, <- Hn. clear Hd Hn dbs0 nshards.
  destruct (Shards_constructed h' cl db Hc Hdb) as [HS _].
  exists (placed_on cl db (shards cl) 0). split; [done |].
  pose proof (c_dbs_pos _ _ Hc) as Hpos.
  pose proof (c_shards_rem _ _ Hc) as Hrem.
  pose proof (c_shards_ge _ _ Hc) as Hge.
  assert (Hq : len (shards cl)
               = len (shards cl) / len (dbs cl) * len (dbs cl)).
  { rewrite Z.rem_mod_nonneg in Hrem by (unfold len in *; lia).
    apply Z.div_exact in Hrem; lia. }
  assert (Hlen : len (placed_on cl db (shards cl) 0)
                 = len (shards cl) / len (dbs cl)
                   * len (filter (eq db) (dbs cl))).
  { unfold len at 1.
    rewrite (placed_on_rounds cl db
               (Z.to_nat (len (shards cl) / len (dbs cl))) (shards cl) 0).
    - unfold len in *. rewrite Nat2Z.inj_mul, Z2Nat.id; [done |].
      apply Z.div_pos; lia.
    - by eapply constructed_dbs_ne.
    - unfold len in *.
      apply Nat2Z.inj. rewrite Nat2Z.inj_mul, Z2Nat.id; [lia |].
      apply Z.div_pos; lia.
    - apply Nat.Div0.mod_0_l. }
  split; [done |].
  intros Hnd Hin. rewrite Hlen.
  assert (Hone : filter (eq db) (dbs cl) = [db]).
  { clear -Hnd Hin. induction (dbs cl) as [|x l IH]; [by inversion Hin |].
    apply NoDup_cons in Hnd as [Hx Hnd]. rewrite filter_cons.
    destruct (decide (db = x)) as [->|Hne].
    - f_equal. apply filter_none. intros y Hy ->. done.
    - apply IH; [done |]. apply elem_of_cons in Hin as [?|?]; congruence. }
  rewrite Hone. unfold len. simpl. lia.
Qed.

Lemma Shards_balanced_witness :
  (NewClusterWithGen sampleGen [serverA; serverA; serverB; serverB] 4 None
     heapAB
   = Ok (clusterAABB, heapAABB4)
   /\ serverA <> Nil)
  /\ exists l, Shards clusterAABB serverA = Ok l /\ len l = 2.
Proof.
  split; [split; [exact sample_cluster_AABB | discriminate] |].
  destruct (Shards_balanced _ _ _ _ _ _ _ serverA sample_cluster_AABB
              ltac:(discriminate)) as (l & Hl & Hlen & _).
  exists l. split; [done |]. rewrite Hlen. reflexivity.
Defined.

(** X3. On a constructed cluster the lists [Shards(db)], for [db] ranging
    over the distinct servers, partition the shards: together they are a
    permutation of the shard list, and every shard is in the list of exactly
    one server. *)
Theorem Shards_partition D dbs0 nshards gen0 (h : Heap) cl (h' : Heap) :
  NewClusterWithGen D dbs0 nshards gen0 h = Ok (cl, h') ->
  exists ls,
    Forall2 (fun db l => Shards cl db = Ok l) (servers cl) ls
    /\ concat ls ≡ₚ shards cl
    /\ forall s, s ∈ shards cl ->
         exists db, db ∈ servers cl
           /\ forall db' l, db' ∈ servers cl -> Shards cl db' = Ok l ->
                (s ∈ l <-> db' = db).
Proof.
  intros Hnew.
  apply NewClusterWithGen_inv in Hnew as (_ & Hd & _ & _ & _ & Hc).
  clear Hd dbs0.
  assert (Hsrv : forall db, db ∈ servers cl ->
            Shards cl db
            = Ok (filter (fun s => server_of cl h' s = Some db) (shards cl))).
  { intros db Hdb. apply (constructed_servers_dbs h' cl db Hc) in Hdb.
    assert (db <> Nil) as Hnn.
    { intros ->. by eapply constructed_not_nil. }
    destruct (Shards_constructed h' cl db Hc Hnn) as [HS Hf].
    by rewrite HS, Hf. }
  assert (Hown : forall s, s ∈ shards cl ->
            exists a0, a0 ∈ servers cl
                       /\ forall a, a ∈ servers cl ->
                            server_of cl h' s = Some a <-> a = a0).
  { intros s (j & Hj)%list_elem_of_lookup.
    destruct (constructed_shard_facts h' cl j s Hc Hj)
      as (_ & db & Hdb & Hsrv' & _).
    exists db. split; [by apply (constructed_servers_dbs h' cl db Hc) |].
    intros a _. rewrite Hsrv'. split; congruence. }
  exists ((fun db => filter (fun s => server_of cl h' s = Some db) (shards cl))
            <$> servers cl).
  split; [| split].
  - apply Forall2_fmap_r, Forall_Forall2_diag, Forall_forall.
    intros db Hdb. by apply Hsrv.
  - apply (concat_filter_partition
             (fun db s => server_of cl h' s = Some db)); [| done].
    rewrite (c_servers _ _ Hc). apply init_servers_NoDup.
  - intros s Hs. destruct (Hown s Hs) as (db & Hdb & Hiff).
    exists db. split; [done |].
    intros db' l Hdb' Hl. rewrite (Hsrv db' Hdb') in Hl.
    injection Hl as <-. rewrite list_elem_of_filter.
    rewrite <- (Hiff db' Hdb'). tauto.
Qed.

Lemma Shards_partition_witness :
  NewClusterWithGen sampleGen [serverA; serverB] 4 None heapAB
    = Ok (clusterAB, heapAB4)
  /\ exists ls,
      Forall2 (fun db l => Shards clusterAB db = Ok l) (servers clusterAB) ls
      /\ concat ls ≡ₚ shards clusterAB.
Proof.
  split; [exact sample_cluster |].
  destruct (Shards_partition _ _ _ _ _ _ _ sample_cluster)
    as (ls & Hls & Hperm & _).
  by exists ls.
Defined.

(** ** Lookups on negative numbers, and their agreement *)

(** X4. On a constructed cluster [DB(number)] returns a handle of the
    placement list, the entry at [number mod len(dbs)], for every non-negative
    number and every negative multiple of the length of the placement list; it
    panics with an index out of range for every other negative number.  With
    a placement list of one entry it returns that entry for every number. *)
Theorem DB_panics_on_negative D dbs0 nshards gen0 (h : Heap) cl (h' : Heap) :
  NewClusterWithGen D dbs0 nshards gen0 h = Ok (cl, h') ->
  (forall number,
     0 <= number \/ Z.rem number (len dbs0) = 0 ->
     exists db, DB cl number = Ok db /\ db ∈ dbs0
                /\ dbs0 !! Z.to_nat (number mod len dbs0) = Some db)
  /\ (forall number,
        number < 0 -> Z.rem number (len dbs0) <> 0 ->
        DB cl number = Panic index_error)
  /\ (forall db, dbs0 = [db] -> forall number, DB cl number = Ok db).
Proof.
  intros Hnew.
  apply NewClusterWithGen_inv in Hnew as (_ & Hd & _ & _ & _ & Hc).
  rewrite <- Hd. clear Hd dbs0.
  pose proof (c_dbs_pos _ _ Hc) as Hpos.
  pose proof (c_shards_rem _ _ Hc) as Hrem.
  pose proof (c_shards_ge _ _ Hc) as Hge.
  assert (HDB : forall number,
            DB cl number = index (dbs cl) (Z.rem number (len (dbs cl)))).
  { intros number. unfold DB, go_rem.
    rewrite decide_False by lia. simpl.
    rewrite decide_False by lia. simpl.
    by rewrite rem_rem_multiple by lia. }
  assert (Hgood : forall number,
     0 <= number \/ Z.rem number (len (dbs cl)) = 0 ->
     exists db, DB cl number = Ok db /\ db ∈ dbs cl
                /\ dbs cl !! Z.to_nat (number mod len (dbs cl)) = Some db).
  { intros number Hnum.
    assert (Hr : 0 <= Z.rem number (len (dbs cl))).
    { destruct Hnum as [Hn|Hz]; [apply Z.rem_nonneg; lia | lia]. }
    rewrite (rem_nonneg_mod number (len (dbs cl))) by lia.
    pose proof (Z.rem_bound_abs number (len (dbs cl)) ltac:(lia)) as Hb.
    destruct (lookup_lt_is_Some_2 (dbs cl)
                (Z.to_nat (Z.rem number (len (dbs cl))))) as [db Hdb].
    { unfold len in *. lia. }
    exists db. split; [| split].
    - rewrite HDB. apply index_Ok. by split.
    - by eapply list_elem_of_lookup_2.
    - done. }
  split; [exact Hgood |]. split.
  - intros number Hneg Hnz. rewrite HDB. apply index_neg.
    pose proof (Z.rem_nonpos number (len (dbs cl)) ltac:(lia) ltac:(lia)).
    lia.
  - intros db Hone number.
    destruct (Hgood number) as (db' & HOk & Hin & _).
    { right. rewrite Hone. unfold len. simpl. apply Z.rem_1_r. }
    rewrite Hone in Hin. apply list_elem_of_singleton in Hin. by subst.
Qed.

Lemma DB_panics_on_negative_witness :
  NewClusterWithGen sampleGen [serverA; serverB] 4 None heapAB
    = Ok (clusterAB, heapAB4)
  /\ DB clusterAB (-2) = Ok serverA
  /\ DB clusterAB (-3) = Panic index_error.
Proof.
  split; [exact sample_cluster |].
  destruct (DB_panics_on_negative _ _ _ _ _ _ _ sample_cluster)
    as (Hgood & Hbad & _).
  split.
  - destruct (Hgood (-2)) as (db & HOk & _ & Hdb); [by right |].
    rewrite HOk. vm_compute in Hdb. by injection Hdb as <-.
  - apply Hbad; [lia | by vm_compute].
Defined.

(** X5. [Shard] and [DB] agree: on a constructed cluster, whenever
    [Shard(number)] returns a shard, [DB(number)] returns the server that
    shard was derived from (they answer the same options, and the shard
    carries the id [number % nshards]), and the shard is one of
    [Shards(DB(number))]. *)
Theorem Shard_lives_on_DB D dbs0 nshards gen0 (h : Heap) cl (h' : Heap)
  number s :
  NewClusterWithGen D dbs0 nshards gen0 h = Ok (cl, h') ->
  Shard cl number = Ok s ->
  exists db,
    DB cl number = Ok db
    /\ db ∈ dbs0
    /\ shard_of (gen cl) h' s db (Z.rem number nshards)
    /\ Options h' s = Options h' db
    /\ exists l, Shards cl db = Ok l /\ s ∈ l.
Proof.
  intros Hnew HS.
  apply NewClusterWithGen_inv in Hnew as (_ & Hd & _ & Hn & _ & Hc).
  rewrite <- Hd, <- Hn. clear Hd Hn dbs0 nshards.
  pose proof (c_dbs_pos _ _ Hc) as Hpos.
  pose proof (c_shards_rem _ _ Hc) as Hrem.
  pose proof (c_shards_ge _ _ Hc) as Hge.
  unfold Shard, go_rem in HS. rewrite decide_False in HS by lia.
  simpl in HS. apply index_Ok in HS as [Hr Hs].
  set (r := Z.rem number (len (shards cl))) in *.
  assert (Hrlt : r < len (shards cl)).
  { apply lookup_lt_Some in Hs. unfold len. lia. }
  destruct (c_bound _ _ Hc r ltac:(lia)) as (s' & db & Hs' & Hdb & Hof).
  assert (s' = s) as -> by congruence.
  exists db.
  assert (Hin : db ∈ dbs cl) by (by eapply list_elem_of_lookup_2).
  split; [| split; [done | split; [done | split]]].
  - unfold DB, go_rem. rewrite decide_False by lia. simpl.
    rewrite decide_False by lia. simpl. fold r.
    apply index_Ok.
    rewrite Z.rem_mod_nonneg by lia.
    split; [apply Z.mod_pos_bound; lia | done].
  - destruct Hof as (o & Ho & Hso). unfold Options. by rewrite Ho, Hso.
  - assert (db <> Nil) as Hnn.
    { intros ->. by eapply constructed_not_nil. }
    destruct (Shards_constructed h' cl db Hc Hnn) as [HSh _].
    eexists. split; [exact HSh |].
    apply placed_on_elem. exists (Z.to_nat r). split; [done |].
    simpl. unfold len in Hdb.
    rewrite <- (Z2Nat.id r) in Hdb at 1 by lia.
    by rewrite <- Nat2Z.inj_mod, Nat2Z.id in Hdb.
Qed.

Lemma Shard_lives_on_DB_witness :
  (NewClusterWithGen sampleGen [serverA; serverB] 4 None heapAB
     = Ok (clusterAB, heapAB4)
   /\ Shard clusterAB 7 = Ok (Addr 13))
  /\ DB clusterAB 7 = Ok serverB
  /\ Options heapAB4 (Addr 13) = Options heapAB4 serverB.
Proof.
  split; [split; [exact sample_cluster | reflexivity] |].
  destruct (Shard_lives_on_DB _ _ _ _ _ _ _ 7 (Addr 13) sample_cluster
              eq_refl) as (db & HDB & _ & _ & Hopt & _).
  assert (db = serverB) as ->.
  { vm_compute in HDB. by injection HDB as <-. }
  by split.
Defined.

(** ** Construction: panics, allocation, names, servers *)

(** X6. With handles that are not nil, [NewClusterWithGen] panics only
    with one of its five configuration messages, each for its own violation:
    it never fails with a runtime error (no negative [make], no division by
    zero, no index out of range).  An empty list is reported first; a negative
    shard count is reported as fewer shards than dbs. *)
Theorem construction_panics D dbs0 nshards gen0 (h : Heap) :
  valid_handles h dbs0 ->
  (forall msg,
     NewClusterWithGen D dbs0 nshards gen0 h = Panic msg ->
     (msg = "at least one db is required" /\ dbs0 = [])
     \/ (msg = "at least on shard is required" /\ nshards = 0)
     \/ (msg = "too many shards"
         /\ (len dbs0 > NumShards (gen_or D gen0)
             \/ nshards > NumShards (gen_or D gen0)))
     \/ (msg = "number of shards must be greater or equal number of dbs"
         /\ nshards < len dbs0)
     \/ (msg = "number of shards must be divideable by number of dbs"
         /\ Z.rem nshards (len dbs0) <> 0))
  /\ (dbs0 = [] ->
      NewClusterWithGen D dbs0 nshards gen0 h
      = Panic "at least one db is required")
  /\ (nshards < 0 -> dbs0 <> [] -> len dbs0 <= NumShards (gen_or D gen0) ->
      NewClusterWithGen D dbs0 nshards gen0 h
      = Panic "number of shards must be greater or equal number of dbs").
Proof.
  intros Hvalid. split; [| split].
  - intros msg Hrun.
    destruct (decide (invariant_violated (gen_or D gen0) dbs0 nshards))
      as [Hv|Hv].
    + clear Hvalid. revert Hrun.
      unfold NewClusterWithGen. fold (gen_or D gen0). unfold panic.
      case_decide as H1.
      { intros [= <-]. left. split; [done |].
        destruct dbs0; [done | unfold len in H1; simpl in H1; lia]. }
      case_decide as H2; [intros [= <-]; right; left; done |].
      case_decide as H3; [intros [= <-]; right; right; left; done |].
      case_decide as H4; [intros [= <-]; right; right; right; left; done |].
      unfold bind, lift, go_rem. case_decide; [lia |].
      case_decide as H5; [intros [= <-]; right; right; right; right; done |].
      exfalso. unfold invariant_violated in Hv. lia.
    + destruct (NewClusterWithGen_Ok D dbs0 nshards gen0 h Hv)
        as (cl & h' & HOk).
      { intros db Hdb. unfold valid_handles in Hvalid.
        rewrite Forall_forall in Hvalid. by apply Hvalid. }
      congruence.
  - intros ->. unfold NewClusterWithGen, panic.
    by rewrite decide_True.
  - intros Hneg Hne Hmax.
    assert (0 < len dbs0).
    { destruct dbs0; [done | unfold len; simpl; lia]. }
    pose proof (Z.pow_pos_nonneg 2 (Z.of_N (shardBits (gen_or D gen0)))
                  ltac:(lia) ltac:(lia)) as Hpow.
    unfold NewClusterWithGen, panic. fold (gen_or D gen0).
    rewrite decide_False by lia.
    rewrite decide_False by lia.
    rewrite decide_False by (unfold NumShards in *; lia).
    by rewrite decide_True by lia.
Qed.

Lemma construction_panics_witness :
  valid_handles heapAB [serverA; serverB]
  /\ NewClusterWithGen sampleGen [serverA; serverB] (-4) None heapAB
     = Panic "number of shards must be greater or equal number of dbs".
Proof.
  assert (Hv : valid_handles heapAB [serverA; serverB]).
  { repeat constructor; by eexists. }
  split; [exact Hv |].
  destruct (construction_panics sampleGen [serverA; serverB] (-4) None heapAB
              Hv) as (_ & _ & Hneg).
  apply Hneg; [lia | done | by vm_compute].
Defined.

Lemma WithParam_panic db param value (h : Heap) msg :
  WithParam db param value h = Panic msg -> msg = nil_error.
Proof. unfold WithParam. destruct (deref h db); [done | congruence]. Qed.

Lemma WithParam_length db param value (h : Heap) s h' :
  WithParam db param value h = Ok (s, h') ->
  length h' = S (length h) /\ h `prefix_of` h'.
Proof.
  unfold WithParam. destruct (deref h db); [| done].
  intros [= <- <-]. rewrite length_app. simpl. split; [lia |].
  by apply prefix_app_r.
Qed.

Lemma newShard_panic cl db id (h : Heap) msg :
  newShard cl db id h = Panic msg -> msg = nil_error.
Proof.
  unfold newShard, bind.
  destruct (WithParam db _ _ h) as [[d1 h1]|m1] eqn:E1;
    [| intros [= <-]; by eapply WithParam_panic].
  destruct (WithParam d1 _ _ h1) as [[d2 h2]|m2] eqn:E2;
    [| intros [= <-]; by eapply WithParam_panic].
  apply WithParam_panic.
Qed.

Lemma newShard_length cl db id (h : Heap) s h' :
  newShard cl db id h = Ok (s, h') ->
  length h' = (length h + 3)%nat.
Proof.
  unfold newShard, bind.
  destruct (WithParam db _ _ h) as [[d1 h1]|m1] eqn:E1; [| done].
  destruct (WithParam d1 _ _ h1) as [[d2 h2]|m2] eqn:E2; [| done].
  intros E3.
  apply WithParam_length in E1 as [? _], E2 as [? _], E3 as [? _]. lia.
Qed.

(** The second loop of [init] panics on the first nil entry of the
    placement list it reaches. *)
Lemma init_shards_nil todo : forall i cl (h : Heap),
  0 <= i ->
  1 <= len (dbs cl) ->
  i + Z.of_nat todo <= len (shards cl) ->
  (exists j, i <= j < i + Z.of_nat todo
             /\ dbs cl !! Z.to_nat (j mod len (dbs cl)) = Some Nil) ->
  init_shards todo i cl h = Panic nil_error.
Proof.
  induction todo as [|todo IH]; intros i cl h Hi Hlen Hbound (j & Hj & Hnil).
  - lia.
  - simpl. unfold bind, lift, go_rem.
    destruct (decide (len (dbs cl) = 0)); [lia |].
    assert (Hk : 0 <= Z.rem i (len (dbs cl)) < len (dbs cl)).
    { rewrite Z.rem_mod_nonneg by lia. apply Z.mod_pos_bound. lia. }
    destruct (lookup_lt_is_Some_2 (dbs cl) (Z.to_nat (Z.rem i (len (dbs cl)))))
      as [db Hdb]; [unfold len in *; lia |].
    assert (Hidx : index (dbs cl) (Z.rem i (len (dbs cl))) = Ok db).
    { apply index_Ok. split; [lia | done]. }
    rewrite Hidx.
    destruct (newShard cl db i h) as [[s h1]|msg] eqn:Hs.
    + unfold index_set.
      destruct (decide (i < 0)); [lia |].
      destruct (decide (Z.to_nat i < length (shards cl))%nat);
        [| unfold len in *; lia].
      apply IH; simpl; [lia | done | |].
      * unfold len in *. rewrite length_insert. lia.
      * exists j. split; [| done].
        destruct (decide (j = i)) as [->|]; [| lia].
        rewrite Z.rem_mod_nonneg in Hdb by lia.
        assert (db = Nil) as -> by congruence.
        unfold newShard, bind, WithParam in Hs. simpl in Hs. done.
    + by rewrite (newShard_panic _ _ _ _ _ Hs).
Qed.

(** X7. A nil handle in the placement list is not checked for: with valid
    sizes, [NewClusterWithGen] panics with a nil pointer dereference while it
    derives the shards. *)
Theorem construction_nil_handle D dbs0 nshards gen0 (h : Heap) :
  ~ invariant_violated (gen_or D gen0) dbs0 nshards ->
  Nil ∈ dbs0 ->
  NewClusterWithGen D dbs0 nshards gen0 h = Panic nil_error.
Proof.
  unfold invariant_violated, NewClusterWithGen. fold (gen_or D gen0).
  intros Hv Hnil.
  repeat (case_decide; [exfalso; tauto |]).
  unfold bind, lift, go_rem. case_decide; [lia |].
  case_decide; [exfalso; tauto |].
  unfold make_slice. case_decide; [unfold len in *; lia |].
  unfold init. simpl. rewrite length_replicate.
  apply list_elem_of_lookup in Hnil as [k Hk].
  pose proof (lookup_lt_Some _ _ _ Hk) as Hlt.
  apply init_shards_nil; simpl; unfold len in *;
    rewrite ?length_replicate; try lia.
  exists (Z.of_nat k). split; [lia |].
  rewrite Z.mod_small by lia. by rewrite Nat2Z.id.
Qed.

Lemma construction_nil_handle_witness :
  (~ invariant_violated (gen_or sampleGen None) [serverA; Nil] 4
   /\ Nil ∈ [serverA; Nil])
  /\ NewClusterWithGen sampleGen [serverA; Nil] 4 None heapAB
     = Panic nil_error.
Proof.
  assert (Hv : ~ invariant_violated (gen_or sampleGen None) [serverA; Nil] 4).
  { unfold invariant_violated. vm_compute. intuition congruence. }
  assert (Hin : Nil ∈ [serverA; Nil]) by (right; left).
  split; [by split |].
  exact (construction_nil_handle sampleGen [serverA; Nil] 4 None heapAB
           Hv Hin).
Defined.

(** The second loop of [init] allocates three objects per shard, one after
    another: the handle of a shard is the last of its three. *)
Lemma init_shards_fresh todo : forall i cl (h : Heap) cl' (h' : Heap),
  0 <= i ->
  init_shards todo i cl h = Ok (cl', h') ->
  length h' = (length h + 3 * todo)%nat
  /\ forall j, i <= j < i + Z.of_nat todo ->
       shards cl' !! Z.to_nat j
       = Some (Addr (length h + 3 * Z.to_nat (j - i) + 2)).
Proof.
  induction todo as [|todo IH]; intros i cl h cl' h' Hi Hrun.
  - injection Hrun as <- <-. split; [lia |]. intros j Hj. lia.
  - simpl in Hrun. unfold bind, lift in Hrun.
    unfold go_rem in Hrun.
    destruct (decide (len (dbs cl) = 0)) as [|Hlen]; [done |].
    destruct (index (dbs cl) (Z.rem i (len (dbs cl)))) as [db|] eqn:Hdb;
      [| done].
    destruct (newShard cl db i h) as [[s h1]|] eqn:Hs; [| done].
    destruct (index_set (shards cl) i s) as [ss|] eqn:Hss; [| done].
    pose proof (newShard_length _ _ _ _ _ _ Hs) as Hlen1.
    apply newShard_inv in Hs as (o & Ho & -> & Hp1 & Hobj).
    unfold index_set in Hss.
    destruct (decide (i < 0)); [lia |].
    destruct (decide (Z.to_nat i < length (shards cl))%nat) as [Hlt|];
      [| done].
    injection Hss as <-.
    pose proof (init_shards_inv todo (i + 1) _ _ _ _ ltac:(lia) Hrun)
      as (_ & _ & _ & _ & _ & Hlow & _).
    apply IH in Hrun as (Hl & Hhigh); [| lia].
    split; [lia |].
    intros j Hj. destruct (decide (j = i)) as [->|Hne].
    + rewrite Hlow by lia. simpl.
      rewrite list_lookup_insert_eq by done.
      do 2 f_equal. lia.
    + rewrite Hhigh by lia. do 2 f_equal. lia.
Qed.

(** X8. Construction only allocates: the store it returns is the store it
    was given followed by three new objects per shard (one per [WithParam] of
    [newShard]); the handle of shard [i] is the last of the three objects of
    its turn, an object that did not exist before, and no shard handle is one
    of the server handles. *)
Theorem construction_allocates D dbs0 nshards gen0 (h : Heap) cl (h' : Heap) :
  NewClusterWithGen D dbs0 nshards gen0 h = Ok (cl, h') ->
  (exists ext, h' = h ++ ext /\ len ext = 3 * nshards)
  /\ (forall i s, shards cl !! i = Some s ->
        s = Addr (length h + 3 * i + 2)
        /\ is_Some (deref h' s) /\ deref h s = None)
  /\ (valid_handles h dbs0 -> forall s, s ∈ shards cl -> s ∉ dbs0).
Proof.
  intros Hnew.
  pose proof (NewClusterWithGen_inv _ _ _ _ _ _ _ Hnew)
    as (_ & Hd & _ & Hn & [ext ->] & Hc).
  revert Hnew.
  unfold NewClusterWithGen. fold (gen_or D gen0). unfold panic.
  repeat (case_decide; [done |]).
  unfold bind, lift, go_rem. case_decide; [done |].
  case_decide; [done |].
  unfold make_slice. case_decide; [done |].
  unfold init. simpl. rewrite length_replicate.
  intros Hrun.
  apply init_shards_fresh in Hrun as (Hl & Haddr); [| lia].
  rewrite length_app in Hl.
  assert (Hfresh : forall i s, shards cl !! i = Some s ->
             s = Addr (length h + 3 * i + 2)).
  { intros i s Hi. pose proof (lookup_lt_Some _ _ _ Hi) as Hlt.
    specialize (Haddr (Z.of_nat i)). rewrite Nat2Z.id, Hi in Haddr.
    unfold len in Hn.
    injection (Haddr ltac:(lia)) as ->. do 2 f_equal. lia. }
  split; [| split].
  - exists ext. split; [done |]. unfold len. lia.
  - intros i s Hi. split; [by apply Hfresh |].
    rewrite (Hfresh i s Hi). split.
    + destruct (constructed_shard (h ++ ext) cl s Hc)
        as (j & db & o & _ & _ & _ & _ & Hs);
        [by eapply list_elem_of_lookup_2 |].
      rewrite <- (Hfresh i s Hi). by eexists.
    + simpl. apply lookup_ge_None. lia.
  - intros Hvalid s (i & Hi)%list_elem_of_lookup Hin.
    unfold valid_handles in Hvalid. rewrite Forall_forall in Hvalid.
    destruct (Hvalid s Hin) as [o Ho].
    rewrite (Hfresh i s Hi) in Ho. simpl in Ho.
    apply lookup_lt_Some in Ho. lia.
Qed.

Lemma construction_allocates_witness :
  NewClusterWithGen sampleGen [serverA; serverB] 4 None heapAB
    = Ok (clusterAB, heapAB4)
  /\ len heapAB4 = len heapAB + 3 * 4
  /\ shards clusterAB !! 1%nat = Some (Addr (length heapAB + 3 * 1 + 2)).
Proof.
  split; [exact sample_cluster |].
  destruct (construction_allocates _ _ _ _ _ _ _ sample_cluster)
    as ((ext & Hext & Hlen) & Hfresh & _).
  split.
  - rewrite Hext. unfold len in *. rewrite length_app. lia.
  - by destruct (Hfresh 1%nat (Addr 7) eq_refl) as (<- & _).
Defined.

Lemma shardObj_name g o id :
  params (shardObj g o id) !! "shard"
  = Some (PField ("shard" +:+ FormatInt id)).
Proof.
  unfold shardObj. simpl.
  rewrite lookup_insert_ne by done. by rewrite lookup_insert_eq.
Qed.

(** X9. On a constructed cluster the shard of index [i] carries the schema
    name [shard<i>] (the decimal rendering of [i]), and no two shards share
    their schema name. *)
Theorem shard_names_distinct D dbs0 nshards gen0 (h : Heap) cl (h' : Heap) :
  NewClusterWithGen D dbs0 nshards gen0 h = Ok (cl, h') ->
  (forall i s, shards cl !! i = Some s ->
     shard_name h' s = Some ("shard" +:+ FormatInt (Z.of_nat i)))
  /\ (forall i j s t,
        shards cl !! i = Some s -> shards cl !! j = Some t ->
        shard_name h' s = shard_name h' t -> i = j /\ s = t).
Proof.
  intros Hnew.
  apply NewClusterWithGen_inv in Hnew as (_ & _ & _ & _ & _ & Hc).
  assert (Hname : forall i s, shards cl !! i = Some s ->
     shard_name h' s = Some ("shard" +:+ FormatInt (Z.of_nat i))).
  { intros i s Hi.
    destruct (c_bound _ _ Hc (Z.of_nat i)) as (s' & db & Hs' & _ & Hof).
    { apply lookup_lt_Some in Hi. unfold len. lia. }
    rewrite Nat2Z.id in Hs'. assert (s' = s) as -> by congruence.
    destruct Hof as (o & _ & Hso).
    unfold shard_name. by rewrite Hso, shardObj_name. }
  split; [exact Hname |].
  intros i j s t Hi Hj Heq.
  rewrite (Hname i s Hi), (Hname j t Hj) in Heq.
  injection Heq as Heq. apply String.app_inj in Heq.
  apply (inj pretty) in Heq. apply Nat2Z.inj in Heq. subst j.
  split; [done | congruence].
Qed.

Lemma shard_names_distinct_witness :
  NewClusterWithGen sampleGen [serverA; serverB] 4 None heapAB
    = Ok (clusterAB, heapAB4)
  /\ shard_name heapAB4 (Addr 13) = Some "shard3".
Proof.
  split; [exact sample_cluster |].
  destruct (shard_names_distinct _ _ _ _ _ _ _ sample_cluster) as [Hname _].
  exact (Hname 3%nat (Addr 13) eq_refl).
Defined.

Lemma first_occurrences_filter l : forall (dbSet : gset ptr) acc,
  init_servers l dbSet acc
  = acc ++ filter (fun x => x ∉ dbSet) (first_occurrences l).
Proof.
  induction l as [|x l IH]; intros dbSet acc; simpl.
  - by rewrite app_nil_r.
  - rewrite filter_cons. destruct (decide (x ∈ dbSet)) as [Hin|Hnin].
    + rewrite decide_False by tauto. rewrite IH. f_equal.
      rewrite list_filter_filter. apply filter_ext_in.
      intros y _. split; [| tauto]. intros Hy. split; [done |].
      by intros ->.
    + rewrite decide_True by done. rewrite IH, <- app_assoc. simpl.
      do 2 f_equal. rewrite list_filter_filter. apply filter_ext_in.
      intros y _. rewrite elem_of_union, elem_of_singleton. tauto.
Qed.

Lemma first_occurrences_sublist l : first_occurrences l `sublist_of` l.
Proof.
  induction l as [|x l IH]; simpl; [done |].
  apply sublist_skip. etrans; [apply sublist_filter | done].
Qed.

Lemma filter_all {A} (P : A -> Prop) `{forall x, Decision (P x)} (l : list A) :
  (forall x, x ∈ l -> P x) -> filter P l = l.
Proof.
  induction l as [|x l IH]; intros HP; [done |].
  rewrite filter_cons, decide_True by (apply HP; by left).
  f_equal. apply IH. intros y Hy. apply HP. by right.
Qed.

Lemma first_occurrences_NoDup l : NoDup l -> first_occurrences l = l.
Proof.
  induction l as [|x l IH]; simpl; [done |].
  intros [Hx Hnd]%NoDup_cons. rewrite IH by done. f_equal.
  apply filter_all. intros y Hy ->. done.
Qed.

(** X10. The distinct servers of a constructed cluster are the handles of
    the placement list in the order of their first occurrence: a sub-list of
    the placement list that starts with its first handle, and the placement
    list itself when it has no duplicates. *)
Theorem servers_in_order_of_first_occurrence D dbs0 nshards gen0 (h : Heap) cl
  (h' : Heap) :
  NewClusterWithGen D dbs0 nshards gen0 h = Ok (cl, h') ->
  servers cl = first_occurrences dbs0
  /\ servers cl `sublist_of` dbs0
  /\ head (servers cl) = head dbs0
  /\ (NoDup dbs0 -> servers cl = dbs0).
Proof.
  intros Hnew.
  apply NewClusterWithGen_inv in Hnew as (_ & Hd & _ & _ & _ & Hc).
  rewrite <- Hd. clear Hd dbs0.
  assert (Hs : servers cl = first_occurrences (dbs cl)).
  { rewrite (c_servers _ _ Hc), first_occurrences_filter. simpl.
    apply filter_all. intros x _. set_solver. }
  split; [done |]. rewrite Hs.
  split; [apply first_occurrences_sublist |].
  split; [by destruct (dbs cl) |].
  apply first_occurrences_NoDup.
Qed.

Lemma servers_in_order_of_first_occurrence_witness :
  NewClusterWithGen sampleGen [serverA; serverA; serverB; serverB] 4 None
    heapAB
  = Ok (clusterAABB, heapAABB4)
  /\ servers clusterAABB = [serverA; serverB].
Proof.
  split; [exact sample_cluster_AABB |].
  by destruct (servers_in_order_of_first_occurrence _ _ _ _ _ _ _
                 sample_cluster_AABB) as (-> & _).
Defined.

(** ** Sub-clusters: sizes, windows, lookups *)

(** X11. A negative size is not checked for either: on a constructed
    cluster [SubCluster(number, size)] with [size < 0] panics with a division
    by zero when [-size] exceeds the shard count (the step is zero), and
    otherwise with [makeslice: len out of range]. *)
Theorem SubCluster_negative_size D dbs0 nshards gen0 (h : Heap) cl (h' : Heap)
  number size :
  is_int64 nshards ->
  NewClusterWithGen D dbs0 nshards gen0 h = Ok (cl, h') ->
  size < 0 ->
  (nshards < - size -> Cluster_SubCluster cl number size = Panic divide_error)
  /\ (- size <= nshards ->
      Cluster_SubCluster cl number size = Panic makeslice_error).
Proof.
  intros Hint Hnew Hneg.
  apply NewClusterWithGen_inv in Hnew as (_ & _ & _ & Hn & _ & Hc).
  rewrite <- Hn in *. clear Hn nshards.
  pose proof (c_dbs_pos _ _ Hc) as Hpos.
  pose proof (c_shards_ge _ _ Hc) as Hge.
  unfold Cluster_SubCluster.
  rewrite decide_False by lia.
  unfold go_div. rewrite decide_False by lia. simpl.
  assert (Hq : - len (shards cl) <= Z.quot (len (shards cl)) size <= 0).
  { rewrite <- (Z.opp_involutive size), Z.quot_opp_r by lia.
    pose proof (Z.quot_pos (len (shards cl)) (- size) ltac:(lia) ltac:(lia)).
    pose proof (Z.quot_le_upper_bound (len (shards cl)) (- size)
                  (len (shards cl)) ltac:(lia) ltac:(nia)).
    lia. }
  rewrite wrap64_id by (unfold is_int64 in *; lia).
  split.
  - intros Hbig.
    assert (Z.quot (len (shards cl)) size = 0) as ->.
    { apply Z.quot_small_iff; lia. }
    unfold go_rem. by rewrite decide_True.
  - intros Hsmall.
    assert (Z.quot (len (shards cl)) size <> 0).
    { rewrite Z.quot_small_iff by lia. lia. }
    unfold go_rem. rewrite decide_False by done. simpl.
    unfold make_slice. by rewrite decide_True by lia.
Qed.

Lemma SubCluster_negative_size_witness :
  (is_int64 4
   /\ NewClusterWithGen sampleGen [serverA; serverB] 4 None heapAB
       = Ok (clusterAB, heapAB4)
   /\ -2 < 0)
  /\ Cluster_SubCluster clusterAB 1 (-2) = Panic makeslice_error
  /\ Cluster_SubCluster clusterAB 1 (-5) = Panic divide_error.
Proof.
  assert (Hint : is_int64 4) by (unfold is_int64; lia).
  split; [split; [done | split; [exact sample_cluster | lia]] |].
  destruct (SubCluster_negative_size _ _ _ _ _ _ _ 1 (-2) Hint sample_cluster
              ltac:(lia)) as [_ Hms].
  split; [apply Hms; lia | reflexivity].
Defined.

Lemma window_length cl size k :
  0 <= k -> 1 <= size -> k * size + size <= len (shards cl) ->
  len (window cl size k) = size.
Proof.
  intros Hk Hs Hb. unfold window, len in *.
  rewrite length_take, length_drop. nia.
Qed.

Lemma window_elem cl size k s :
  0 <= k -> 1 <= size ->
  s ∈ window cl size k <->
  exists i, shards cl !! i = Some s
            /\ k * size <= Z.of_nat i < k * size + size.
Proof.
  intros Hk Hs. unfold window. rewrite elem_of_take. split.
  - intros (j & Hj & Hlt). rewrite lookup_drop in Hj.
    eexists. split; [exact Hj |]. nia.
  - intros (i & Hi & Hb). exists (i - Z.to_nat (k * size))%nat.
    rewrite lookup_drop. split; [| nia].
    by replace (Z.to_nat (k * size) + (i - Z.to_nat (k * size)))%nat with i
      by nia.
Qed.

Lemma windows_concat cl size : forall n,
  concat ((fun k => window cl size (Z.of_nat k)) <$> seq 0 n)
  = take (n * Z.to_nat size) (shards cl).
Proof.
  induction n as [|n IH]; [done |].
  rewrite seq_S, fmap_app, concat_app, IH. simpl.
  rewrite app_nil_r. unfold window.
  replace (Z.to_nat (Z.of_nat n * size)) with (n * Z.to_nat size)%nat by nia.
  rewrite take_take_drop. f_equal. lia.
Qed.

(** X12. For a size of at least one, the sub-clusters of a constructed
    cluster are the [step = nshards / size'] windows of [size'] consecutive
    shards that start at the multiples of [size'] ([size'] is the size clamped
    to the shard count): every [k] in [0, step) yields window [k], every
    sub-cluster returned for any number is the window [number % step], and
    different windows share no shard. *)
Theorem SubCluster_windows D dbs0 nshards gen0 (h : Heap) cl (h' : Heap) size :
  is_int64 nshards ->
  NewClusterWithGen D dbs0 nshards gen0 h = Ok (cl, h') ->
  1 <= size ->
  let size' := Z.min size nshards in
  let step := Z.quot nshards size' in
  (forall k, 0 <= k < step ->
     Cluster_SubCluster cl k size
     = Ok {| sub_cl := cl; sub_shards := window cl size' k |}
     /\ len (window cl size' k) = size')
  /\ (forall number sc,
        Cluster_SubCluster cl number size = Ok sc ->
        exists k, 0 <= k < step /\ k = Z.rem number step
                  /\ sc = {| sub_cl := cl; sub_shards := window cl size' k |})
  /\ (forall k k' s,
        0 <= k < step -> 0 <= k' < step ->
        s ∈ window cl size' k -> s ∈ window cl size' k' -> k = k').
Proof.
  intros Hint Hnew Hsz size' step.
  pose proof (NewClusterWithGen_inv _ _ _ _ _ _ _ Hnew)
    as (_ & _ & _ & Hn & _ & Hc).
  assert (Hrun := fun number =>
            SubCluster_run D dbs0 nshards gen0 h cl h' number size Hint Hnew
              Hsz).
  simpl in Hrun. rewrite Hn in Hrun. fold size' step in Hrun.
  pose proof (c_dbs_pos _ _ Hc) as Hpos.
  pose proof (c_shards_ge _ _ Hc) as Hge.
  assert (Hsz' : 1 <= size' <= nshards) by (unfold size'; lia).
  split; [| split].
  - intros k Hk. destruct (Hrun k) as (_ & _ & Hok & _).
    rewrite Z.rem_small in Hok by lia.
    destruct Hok as [Hb ->]; [nia |]. split; [done |].
    apply window_length; lia.
  - intros number sc HOk. destruct (Hrun number) as (Hstep & _ & Hok & Hbad).
    pose proof (Z.rem_bound_abs number step ltac:(lia)) as Hab.
    destruct (decide (0 <= Z.rem number step * size')) as [Hoff|Hoff].
    + destruct (Hok Hoff) as [_ E]. rewrite E in HOk. injection HOk as <-.
      exists (Z.rem number step). split; [nia |]. done.
    + rewrite Hbad in HOk by lia. done.
  - intros k k' s Hk Hk' Hs Hs'.
    apply window_elem in Hs as (i & Hi & Hb); [| lia..].
    apply window_elem in Hs' as (i' & Hi' & Hb'); [| lia..].
    pose proof (constructed_shards_NoDup h' cl Hc) as Hnd.
    pose proof (NoDup_lookup _ _ _ _ Hnd Hi Hi'). subst i'. nia.
Qed.

Lemma SubCluster_windows_witness :
  (is_int64 4
   /\ NewClusterWithGen sampleGen [serverA; serverB] 4 None heapAB
       = Ok (clusterAB, heapAB4)
   /\ 1 <= 2)
  /\ Cluster_SubCluster clusterAB 0 2
     = Ok {| sub_cl := clusterAB; sub_shards := [Addr 4; Addr 7] |}
  /\ Cluster_SubCluster clusterAB 1 2
     = Ok {| sub_cl := clusterAB; sub_shards := [Addr 10; Addr 13] |}.
Proof.
  assert (Hint : is_int64 4) by (unfold is_int64; lia).
  split; [split; [done | split; [exact sample_cluster | lia]] |].
  destruct (SubCluster_windows _ _ _ _ _ _ _ 2 Hint sample_cluster
              ltac:(lia)) as (Hwin & _).
  split.
  - by destruct (Hwin 0 ltac:(by vm_compute)) as [-> _].
  - by destruct (Hwin 1 ltac:(by vm_compute)) as [-> _].
Defined.

(** X13. The windows of a given size cover the first [step * size'] shards,
    in order; they cover all shards when [size'] divides the shard count, and
    otherwise the trailing shards belong to no sub-cluster of that size, for
    any number. *)
Theorem SubCluster_leftover D dbs0 nshards gen0 (h : Heap) cl (h' : Heap)
  size :
  is_int64 nshards ->
  NewClusterWithGen D dbs0 nshards gen0 h = Ok (cl, h') ->
  1 <= size ->
  let size' := Z.min size nshards in
  let step := Z.quot nshards size' in
  concat ((fun k => window cl size' (Z.of_nat k)) <$> seq 0 (Z.to_nat step))
  = take (Z.to_nat (step * size')) (shards cl)
  /\ (Z.rem nshards size' = 0 ->
      concat ((fun k => window cl size' (Z.of_nat k))
                <$> seq 0 (Z.to_nat step))
      = shards cl)
  /\ (forall i s number sc,
        shards cl !! i = Some s ->
        step * size' <= Z.of_nat i ->
        Cluster_SubCluster cl number size = Ok sc ->
        s ∉ sub_shards sc).
Proof.
  intros Hint Hnew Hsz size' step.
  pose proof (NewClusterWithGen_inv _ _ _ _ _ _ _ Hnew)
    as (_ & _ & _ & Hn & _ & Hc).
  assert (Hrun := fun number =>
            SubCluster_run D dbs0 nshards gen0 h cl h' number size Hint Hnew
              Hsz).
  simpl in Hrun. rewrite Hn in Hrun. fold size' step in Hrun.
  pose proof (c_dbs_pos _ _ Hc) as Hpos.
  pose proof (c_shards_ge _ _ Hc) as Hge.
  assert (Hsz' : 1 <= size' <= nshards) by (unfold size'; lia).
  assert (Hstep : 1 <= step) by (by destruct (Hrun 0)).
  assert (Hcat :
    concat ((fun k => window cl size' (Z.of_nat k)) <$> seq 0 (Z.to_nat step))
    = take (Z.to_nat (step * size')) (shards cl)).
  { rewrite windows_concat. f_equal. nia. }
  split; [done |]. split.
  - intros Hrem. rewrite Hcat. apply take_ge.
    pose proof (Z.quot_rem' nshards size') as Hqr.
    fold step in Hqr. unfold len in Hn. nia.
  - intros i s number sc Hi Hbig HOk Hin.
    destruct (Hrun number) as (_ & _ & Hok & Hbad).
    pose proof (Z.rem_bound_abs number step ltac:(lia)) as Hab.
    destruct (decide (0 <= Z.rem number step * size')) as [Hoff|Hoff].
    + destruct (Hok Hoff) as [_ E]. rewrite E in HOk. injection HOk as <-.
      simpl in Hin. fold (window cl size' (Z.rem number step)) in Hin.
      apply window_elem in Hin as (i' & Hi' & Hb'); [| nia | lia].
      pose proof (constructed_shards_NoDup h' cl Hc) as Hnd.
      pose proof (NoDup_lookup _ _ _ _ Hnd Hi Hi'). subst i'. nia.
    + rewrite Hbad in HOk by lia. done.
Qed.

Lemma SubCluster_leftover_witness :
  (is_int64 4
   /\ NewClusterWithGen sampleGen [serverA; serverB] 4 None heapAB
       = Ok (clusterAB, heapAB4)
   /\ 1 <= 3)
  /\ (forall number sc,
        Cluster_SubCluster clusterAB number 3 = Ok sc ->
        Addr 13 ∉ sub_shards sc).
Proof.
  assert (Hint : is_int64 4) by (unfold is_int64; lia).
  split; [split; [done | split; [exact sample_cluster | lia]] |].
  destruct (SubCluster_leftover _ _ _ _ _ _ _ 3 Hint sample_cluster
              ltac:(lia)) as (_ & _ & Hleft).
  intros number sc. apply (Hleft 3%nat); [done | by vm_compute].
Defined.

(** X14. [Shard] on a sub-cluster composes with [Shard] on its cluster: the
    sub-cluster holds [size'] shards, and for every non-negative [k] (and every
    negative multiple of [size']) [sc.Shard(k)] is [cl.Shard(offset + k %
    size')], a shard of the window whose id is [offset + k % size']; for any
    other negative [k] it panics with an index out of range. *)
Theorem SubCluster_Shard_in_window D dbs0 nshards gen0 (h : Heap) cl
  (h' : Heap) number size sc :
  is_int64 nshards ->
  NewClusterWithGen D dbs0 nshards gen0 h = Ok (cl, h') ->
  1 <= size ->
  Cluster_SubCluster cl number size = Ok sc ->
  let size' := Z.min size nshards in
  let offset := Z.rem number (Z.quot nshards size') * size' in
  len (sub_shards sc) = size'
  /\ (forall k, 0 <= k \/ Z.rem k size' = 0 ->
        SubCluster_Shard sc k = Shard cl (offset + Z.rem k size')
        /\ exists s, SubCluster_Shard sc k = Ok s
                     /\ s ∈ sub_shards sc
                     /\ shard_id h' s = Some (offset + Z.rem k size'))
  /\ (forall k, k < 0 -> Z.rem k size' <> 0 ->
        SubCluster_Shard sc k = Panic index_error).
Proof.
  intros Hint Hnew Hsz HOk size' offset.
  pose proof (NewClusterWithGen_inv _ _ _ _ _ _ _ Hnew)
    as (_ & _ & _ & Hn & _ & Hc).
  pose proof (SubCluster_run D dbs0 nshards gen0 h cl h' number size Hint Hnew
                Hsz) as Hrun.
  simpl in Hrun. rewrite Hn in Hrun. fold size' offset in Hrun.
  destruct Hrun as (Hstep & _ & Hok & Hbad).
  pose proof (c_dbs_pos _ _ Hc) as Hpos.
  pose proof (c_shards_ge _ _ Hc) as Hge.
  assert (Hsz' : 1 <= size' <= nshards) by (unfold size'; lia).
  destruct (decide (0 <= offset)) as [Hoff|Hoff];
    [| rewrite Hbad in HOk by lia; done].
  destruct (Hok Hoff) as [Hb E]. rewrite E in HOk. injection HOk as <-.
  simpl.
  assert (Hlen : len (take (Z.to_nat size')
                        (drop (Z.to_nat offset) (shards cl))) = size').
  { unfold len in *. rewrite length_take, length_drop. lia. }
  split; [done |].
  unfold SubCluster_Shard. simpl. rewrite Hlen.
  unfold go_rem. destruct (decide (size' = 0)) as [?|_]; [lia |]. simpl.
  split.
  - intros k Hk.
    assert (Hr : 0 <= Z.rem k size' < size').
    { pose proof (Z.rem_bound_abs k size' ltac:(lia)).
      destruct Hk as [Hk|Hk]; [| lia].
      pose proof (Z.rem_nonneg k size' ltac:(lia) Hk). lia. }
    destruct (lookup_lt_is_Some_2 (shards cl)
                (Z.to_nat (offset + Z.rem k size'))) as [s Hs].
    { unfold len in *. lia. }
    assert (Hwin : take (Z.to_nat size') (drop (Z.to_nat offset) (shards cl))
                     !! Z.to_nat (Z.rem k size') = Some s).
    { rewrite lookup_take_lt by lia. rewrite lookup_drop.
      by replace (Z.to_nat offset + Z.to_nat (Z.rem k size'))%nat
        with (Z.to_nat (offset + Z.rem k size')) by lia. }
    assert (HS : Shard cl (offset + Z.rem k size') = Ok s).
    { unfold Shard, go_rem. rewrite decide_False by lia. simpl.
      rewrite Z.rem_small by lia. apply index_Ok. split; [lia | done]. }
    assert (HW : index (take (Z.to_nat size')
                          (drop (Z.to_nat offset) (shards cl)))
                   (Z.rem k size') = Ok s).
    { apply index_Ok. split; [lia | done]. }
    split; [by rewrite HS, HW |].
    exists s. split; [done |]. split; [by eapply list_elem_of_lookup_2 |].
    destruct (constructed_shard_facts h' cl _ s Hc Hs) as [Hid _].
    rewrite Hid. f_equal. lia.
  - intros k Hneg Hnz. apply index_neg.
    pose proof (Z.rem_nonpos k size' ltac:(lia) ltac:(lia)). lia.
Qed.

Lemma SubCluster_Shard_in_window_witness :
  (is_int64 4
   /\ NewClusterWithGen sampleGen [serverA; serverB] 4 None heapAB
       = Ok (clusterAB, heapAB4)
   /\ 1 <= 2
   /\ Cluster_SubCluster clusterAB 1 2
      = Ok {| sub_cl := clusterAB; sub_shards := [Addr 10; Addr 13] |})
  /\ SubCluster_Shard
       {| sub_cl := clusterAB; sub_shards := [Addr 10; Addr 13] |} 5
     = Shard clusterAB 3.
Proof.
  assert (Hint : is_int64 4) by (unfold is_int64; lia).
  split; [split; [done | split; [exact sample_cluster | split;
    [lia | reflexivity]]] |].
  destruct (SubCluster_Shard_in_window _ _ _ _ _ _ _ 1 2 _ Hint
              sample_cluster ltac:(lia) eq_refl) as (_ & Hk & _).
  by destruct (Hk 5 ltac:(lia)) as [-> _].
Defined.

(** X15. A size of at least the shard count gives the whole cluster, for
    every number, negative ones included; [Shard] on that sub-cluster is
    [Shard] on the cluster. *)
Theorem SubCluster_whole_cluster D dbs0 nshards gen0 (h : Heap) cl (h' : Heap)
  number size :
  is_int64 nshards ->
  NewClusterWithGen D dbs0 nshards gen0 h = Ok (cl, h') ->
  nshards <= size ->
  Cluster_SubCluster cl number size
  = Ok {| sub_cl := cl; sub_shards := shards cl |}
  /\ forall k,
       SubCluster_Shard {| sub_cl := cl; sub_shards := shards cl |} k
       = Shard cl k.
Proof.
  intros Hint Hnew Hsz.
  pose proof (NewClusterWithGen_inv _ _ _ _ _ _ _ Hnew)
    as (_ & _ & _ & Hn & _ & Hc).
  pose proof (c_dbs_pos _ _ Hc) as Hpos.
  pose proof (c_shards_ge _ _ Hc) as Hge.
  pose proof (SubCluster_run D dbs0 nshards gen0 h cl h' number size Hint Hnew
                ltac:(lia)) as Hrun.
  simpl in Hrun. rewrite Hn in Hrun.
  replace (Z.min size nshards) with nshards in Hrun by lia.
  rewrite Z.quot_same, Z.rem_1_r in Hrun by lia.
  destruct Hrun as (_ & _ & Hok & _).
  destruct (Hok ltac:(lia)) as [_ E]. rewrite E. split; [| done].
  do 2 f_equal. simpl. apply take_ge. unfold len in *. lia.
Qed.

Lemma SubCluster_whole_cluster_witness :
  (is_int64 4
   /\ NewClusterWithGen sampleGen [serverA; serverB] 4 None heapAB
       = Ok (clusterAB, heapAB4)
   /\ 4 <= 9)
  /\ Cluster_SubCluster clusterAB (-7) 9
     = Ok {| sub_cl := clusterAB; sub_shards := shards clusterAB |}.
Proof.
  assert (Hint : is_int64 4) by (unfold is_int64; lia).
  split; [split; [done | split; [exact sample_cluster | lia]] |].
  by destruct (SubCluster_whole_cluster _ _ _ _ _ _ _ (-7) 9 Hint
                 sample_cluster ltac:(lia)) as [-> _].
Defined.

(** ** ForEachDB: the returned error *)

Lemma fmap_insert_same {A B} (f : A -> B) (l : list A) i x y :
  l !! i = Some x -> f y = f x -> f <$> <[i := y]> l = f <$> l.
Proof.
  intros Hi Hf. rewrite list_fmap_insert, Hf.
  apply list_insert_id. by rewrite list_lookup_fmap, Hi.
Qed.

Lemma Fan_err_inv_step body c c' :
  Fan_err_inv c -> Fan_step body c c' -> Fan_err_inv c'.
Proof.
  intros Hinv Hstep.
  destruct Hstep as
    [db rest ts wg ch calls o Hbody
    |i tr a k c rest ts wg ch calls Hi Hk
    |i tr rest ts wg ch calls Hi
    |i tr e rest ts wg ch calls Hi
    |i tr msg rest ts wg ch calls Hi
    |i tr e rest ts wg ch calls Hi
    |i o rest ts wg ch calls Hi
    |ts ch calls];
    simpl in *; try done; destruct Hinv as (Hsome & Hnone & Hok).
  - split; [| split].
    + intros e He. destruct (Hsome e He) as (o' & Ho' & Hoe).
      exists o'. split; [| done]. rewrite fmap_app. apply elem_of_app. by left.
    + intros Hch. apply Forall_app. split; [by apply Hnone |].
      repeat constructor. simpl. intros [?|?]; done.
    + apply Forall_app. split; [done |].
      repeat constructor. simpl. intros [?|?]; done.
  - split; [| split].
    + by rewrite (fmap_insert_same t_out ts i _ _ Hi).
    + intros Hch. apply Forall_insert; [by apply Hnone |].
      simpl. intros [?|?]; done.
    + apply Forall_insert; [done |]. simpl. intros [?|?]; done.
  - split; [| split].
    + by rewrite (fmap_insert_same t_out ts i _ _ Hi).
    + intros Hch. apply Forall_insert; [by apply Hnone | done].
    + apply Forall_insert; [done |]. simpl. eauto.
  - split; [| split].
    + by rewrite (fmap_insert_same t_out ts i _ _ Hi).
    + intros Hch. apply Forall_insert; [by apply Hnone |].
      simpl. intros [?|?]; done.
    + apply Forall_insert; [done |]. simpl. intros [?|?]; done.
  - split; [| split].
    + rewrite (fmap_insert_same t_out ts i _ _ Hi) by done.
      intros e' He'. destruct ch as [e0|]; simpl in He'.
      * by apply Hsome.
      * injection He' as <-. exists (tr, Ok (Some e)). split; [| done].
        apply list_elem_of_fmap. eexists.
        split; [| by eapply list_elem_of_lookup_2]. done.
    + intros Hch. by destruct ch.
    + apply Forall_insert; [done |]. simpl. eauto.
  - split; [| split].
    + by rewrite (fmap_insert_same t_out ts i _ _ Hi).
    + intros Hch. apply Forall_insert; [by apply Hnone |].
      simpl. intros _.
      specialize (Hnone Hch). rewrite Forall_lookup in Hnone.
      apply (Hnone i _ Hi). by left.
    + apply Forall_insert; [done |]. simpl. intros _.
      rewrite Forall_lookup in Hok. apply (Hok i _ Hi). by left.
Qed.

Lemma Fan_err_inv_reachable body cl c :
  rtc (Fan_step body) (Fan_init cl) c -> Fan_err_inv c.
Proof.
  revert c. apply rtc_ind_r.
  - simpl. split; [done |]. split; [intros _ |]; constructor.
  - intros c c' _ Hstep Hinv. by eapply Fan_err_inv_step.
Qed.

(** The end of an execution of [ForEachDB] that returns: the function has
    run to its end on every server, without a panic; the calls made are an
    interleaving of the calls made on each server, and the error returned is
    one the function has answered on a server, or nil when it has answered
    nil on all. *)
Lemma Fan_end body cl calls e :
  ForEachDB_with cl body (calls, Ok e) ->
  exists outs,
    Forall2 body (servers cl) outs
    /\ interleave outs.*1 calls
    /\ Forall (fun o => exists e', o.2 = Ok e') outs
    /\ (forall x, e = Some x -> exists o, o ∈ outs /\ o.2 = Ok (Some x))
    /\ (e = None -> Forall (fun o => o.2 = Ok None) outs).
Proof.
  intros Hrun. unfold ForEachDB_with in Hrun.
  apply rtc_inv_r in Hrun as [Heq|(c & Hrun & Hstep)]; [done |].
  pose proof (Fan_inv_reachable body cl c Hrun) as Hinv.
  pose proof (Fan_err_inv_reachable body cl c Hrun) as Herr.
  inversion Hstep as [| | | | | | |ts ch calls']; subst.
  simpl in Hinv, Herr.
  destruct Hinv as ((launched & Hsrv & HF) & Hil & Hwg & Hwf).
  destruct Herr as (Hsome & Hnone & Hok). simpl in *.
  rewrite app_nil_r in Hsrv. subst launched.
  assert (Hall : Forall (fun t => ~ task_live t) ts).
  { apply (filter_length_0 task_live). lia. }
  assert (Hgone : forall t, t ∈ ts -> t_pc t = TGone).
  { rewrite Forall_forall in Hall. intros t Ht.
    specialize (Hall t Ht). unfold task_live in Hall.
    by destruct (decide (t_pc t = TGone)). }
  exists (t_out <$> ts). split; [by apply Forall2_fmap_r |].
  split; [| split; [| split]].
  - replace ((t_out <$> ts).*1) with (consumed <$> ts); [done |].
    rewrite <- list_fmap_compose. apply Forall_fmap_ext_1.
    eapply Forall_impl; [exact Hall |].
    intros [o pc] Hnl. unfold task_live, consumed in *. simpl in *.
    destruct pc; try done. exfalso. by apply Hnl.
  - apply Forall_fmap. rewrite Forall_forall in Hok. apply Forall_forall.
    intros t Ht. simpl. apply (Hok t Ht). right. by apply Hgone.
  - intros x ->. by apply Hsome.
  - intros ->. apply Forall_fmap. specialize (Hnone eq_refl).
    rewrite Forall_forall in Hnone. apply Forall_forall.
    intros t Ht. simpl. apply (Hnone t Ht). right. by apply Hgone.
Qed.

(** The end of an execution of [ForEachDB] in a panic: the function has
    panicked on a server, and the calls made are an interleaving of calls the
    function makes on the servers. *)
Lemma Fan_end_panic body cl calls msg :
  ForEachDB_with cl body (calls, Panic msg) ->
  (exists db tr, db ∈ servers cl /\ body db (tr, Panic msg))
  /\ exists ls,
      interleave ls calls
      /\ Forall (fun l => exists db o,
                   db ∈ servers cl /\ body db o /\ l `prefix_of` o.1) ls.
Proof.
  intros Hrun. split; [exact (Fan_inv_reachable _ _ _ Hrun) |].
  unfold ForEachDB_with in Hrun.
  apply rtc_inv_r in Hrun as [Heq|(c & Hrun & Hstep)]; [done |].
  pose proof (Fan_inv_reachable body cl c Hrun) as Hinv.
  inversion Hstep as [| | | |i tr msg' rest ts wg ch calls' Hi| | |]; subst.
  simpl in Hinv.
  destruct Hinv as ((launched & Hsrv & HF) & Hil & Hwg & Hwf). simpl in *.
  exists (consumed <$> ts). split; [done |].
  apply Forall_fmap, Forall_forall. intros t (j & Hj)%list_elem_of_lookup.
  destruct (Forall2_lookup_r _ _ _ _ _ HF Hj) as (db & Hdb & Hb).
  exists db, (t_out t). split; [| split; [done |]].
  - rewrite Hsrv. apply elem_of_app. left. by eapply list_elem_of_lookup_2.
  - simpl. unfold consumed. destruct (t_pc t); try done.
    apply prefix_take.
Qed.


(** The execution of [ForEachDB] in which the goroutines run one after
    another, in the order of the servers. *)
Lemma Fan_sequential_fun cl (F : ptr -> Outcome) :
  (forall db, db ∈ servers cl -> exists e, (F db).2 = Ok e) ->
  ForEachDB_with cl (fun db o => o = F db)
    (concat (F <$> servers cl).*1,
     Ok (foldl send_answer None (F <$> servers cl))).
Proof.
  intros HOk. unfold ForEachDB_with, Fan_init.
  apply (Fan_sequential (fun db o => o = F db) (servers cl)
           (F <$> servers cl) [] None []).
  - by apply Forall2_fun_fmap.
  - apply Forall_fmap, Forall_forall. intros db Hdb. by apply HOk.
Qed.

(** ** ForEachShard: the returned error, calls per shard *)


(** The loop of the function of [ForEachShard], in closed form. *)
Lemma ForEachShard_fn_first_error h fn db l :
  no_nil h db l ->
  forall e c,
    ForEachShard_fn h fn db l e c
    = (c ++ filter (same_options h db) l,
       Ok (match e with
           | Some _ => e
           | None => first_error (fn <$> filter (same_options h db) l)
           end)).
Proof.
  induction 1 as [|s l [b Hb] _ IH]; intros e c; simpl.
  - rewrite app_nil_r. by destruct e.
  - rewrite Hb. pose proof (Options_differ_Ok h s db b Hb) as Hiff.
    rewrite filter_cons. destruct b.
    + rewrite decide_False by (intros Hs; by apply Hiff in Hs).
      apply IH.
    + rewrite decide_True by (by apply Hiff).
      rewrite IH, <- app_assoc. simpl.
      by destruct e, (fn s).
Qed.

(** X17. On a server of a constructed cluster, the function [ForEachShard]
    passes to [ForEachDB] calls [fn] on every shard that answers the options
    of the server, in the order of the shard list, an error of [fn] does not
    stop the loop, and it answers the first error [fn] has answered, or nil.
    These shards include [Shards(db)], and are exactly [Shards(db)] when the
    servers answer distinct options. *)
Theorem ForEachShard_on_one_server D dbs0 nshards gen0 (h : Heap) cl
  (h' : Heap) (fn : ptr -> error) db :
  NewClusterWithGen D dbs0 nshards gen0 h = Ok (cl, h') ->
  db ∈ dbs0 ->
  ForEachShard_fn h' fn db (shards cl) None []
  = (filter (same_options h' db) (shards cl),
     Ok (first_error (fn <$> filter (same_options h' db) (shards cl))))
  /\ (exists l, Shards cl db = Ok l
                /\ l ⊆ filter (same_options h' db) (shards cl)
                /\ (distinct_options h' dbs0 ->
                    l = filter (same_options h' db) (shards cl))).
Proof.
  intros Hnew Hdb.
  apply NewClusterWithGen_inv in Hnew as (_ & Hd & _ & _ & _ & Hc).
  rewrite <- Hd in *. clear Hd dbs0.
  split.
  - by rewrite (ForEachShard_fn_first_error h' fn db (shards cl))
      by (by apply constructed_no_nil).
  - assert (db <> Nil) as Hnn.
    { intros ->. by eapply constructed_not_nil. }
    destruct (Shards_constructed h' cl db Hc Hnn) as [HS Hf].
    eexists. split; [exact HS |]. rewrite Hf. split.
    + intros s [Hsrv Hs]%list_elem_of_filter. apply list_elem_of_filter.
      split; [| done].
      apply list_elem_of_lookup in Hs as [j Hj].
      destruct (constructed_shard_facts h' cl j s Hc Hj)
        as (_ & db' & _ & Hsrv' & Hopt).
      unfold same_options. congruence.
    + intros Hdist. apply filter_ext_in. intros s Hs.
      destruct (shard_owner h' cl s Hc Hdist Hs) as (db0 & Hdb0 & Hsrv & Hiff).
      rewrite Hsrv, (Hiff db) by (by apply (constructed_servers_dbs h' cl)).
      split; congruence.
Qed.

Lemma ForEachShard_on_one_server_witness :
  (NewClusterWithGen sampleGen [serverA; serverB] 4 None heapAB
     = Ok (clusterAB, heapAB4)
   /\ serverB ∈ [serverA; serverB])
  /\ ForEachShard_fn heapAB4 failOn7 serverB (shards clusterAB) None []
     = ([Addr 7; Addr 13], Ok (Some "failed")).
Proof.
  assert (Hin : serverB ∈ [serverA; serverB]) by (right; left).
  split; [split; [exact sample_cluster | exact Hin] |].
  destruct (ForEachShard_on_one_server _ _ _ _ _ _ _ failOn7 serverB
              sample_cluster Hin) as [-> _].
  reflexivity.
Defined.

Lemma first_error_None l : first_error l = None <-> Forall (eq None) l.
Proof.
  induction l as [|[e|] l IH]; simpl.
  - split; [constructor | done].
  - split; [done |]. by intros [[=] _]%Forall_cons.
  - rewrite IH. split; [by constructor |]. by intros [_ ?]%Forall_cons.
Qed.

Lemma first_error_Some l x : first_error l = Some x -> Some x ∈ l.
Proof.
  induction l as [|[e|] l IH]; simpl; [done | |].
  - intros [= ->]. by left.
  - intros Hx. right. by apply IH.
Qed.

(** Every shard of a constructed cluster answers the options of a server. *)
Lemma shard_has_server (h : Heap) cl s :
  constructed h cl -> s ∈ shards cl ->
  exists db, db ∈ servers cl /\ same_options h db s.
Proof.
  intros Hc (j & Hj)%list_elem_of_lookup.
  destruct (constructed_shard_facts h cl j s Hc Hj)
    as (_ & db & Hdb & _ & Hopt).
  exists db. split; [by apply (constructed_servers_dbs h cl) | done].
Qed.



Lemma filter_eq_NoDup {A} `{EqDecision A} (l : list A) s :
  NoDup l -> s ∈ l -> filter (eq s) l = [s].
Proof.
  induction l as [|x l IH]; intros Hnd Hin; [by inversion Hin |].
  apply NoDup_cons in Hnd as [Hx Hnd]. rewrite filter_cons.
  destruct (decide (s = x)) as [->|Hne].
  - f_equal. apply filter_none. intros y Hy ->. done.
  - apply IH; [done |]. apply elem_of_cons in Hin as [?|?]; congruence.
Qed.

(** How many times an element of [l] occurs in the selections that the
    elements of [srv] make of [l]: once per element of [srv] that selects
    it. *)
Lemma count_concat_filter {A B} `{EqDecision B} (P : A -> B -> Prop)
  `{forall a b, Decision (P a b)} (srv : list A) (l : list B) s :
  NoDup l -> s ∈ l ->
  length (filter (eq s) (concat ((fun a => filter (P a) l) <$> srv)))
  = length (filter (fun a => P a s) srv).
Proof.
  intros Hnd Hin. induction srv as [|a srv IH]; [done |].
  csimpl. rewrite filter_app, length_app, IH.
  rewrite (filter_cons (fun a => P a s)).
  rewrite list_filter_filter.
  rewrite (filter_ext_in _ (fun b => P a b /\ s = b) l) by (intros; tauto).
  rewrite <- (list_filter_filter (P a) (eq s)).
  rewrite filter_eq_NoDup by done.
  rewrite filter_cons, filter_nil.
  by destruct (decide (P a s)).
Qed.

Lemma elem_of_concat {A} (x : A) (ls : list (list A)) :
  x ∈ concat ls <-> exists l, x ∈ l /\ l ∈ ls.
Proof.
  induction ls as [|l ls IH]; simpl.
  - split; [by intros ?%elem_of_nil | by intros (l & _ & ?%elem_of_nil)].
  - rewrite elem_of_app, IH. split.
    + intros [Hx|(l' & Hx & Hl')]; [exists l | exists l'];
        split; auto; [by left | by right].
    + intros (l' & Hx & [->|Hl']%elem_of_cons); [by left |].
      right. by exists l'.
Qed.

(** X19. On a constructed cluster [ForEachShard(fn)] calls [fn] on shards
    of the cluster only, and on each shard once per distinct server handle
    that answers the options of the shard: at least once, and more than once
    when several server handles share their options. *)
Theorem ForEachShard_calls_per_shard D dbs0 nshards gen0 (h : Heap) cl
  (h' : Heap) (fn : ptr -> error) calls r :
  NewClusterWithGen D dbs0 nshards gen0 h = Ok (cl, h') ->
  ForEachShard h' cl fn (calls, r) ->
  (forall s, s ∈ calls -> s ∈ shards cl)
  /\ forall s, s ∈ shards cl ->
       length (filter (eq s) calls)
       = length (filter (fun db => same_options h' db s) (servers cl))
       /\ (1 <= length (filter (eq s) calls))%nat.
Proof.
  intros Hnew Hrun.
  apply NewClusterWithGen_inv in Hnew as (_ & _ & _ & _ & _ & Hc).
  destruct (ForEachShard_interleave h' cl fn calls r Hc Hrun) as [_ Hil].
  apply interleave_Permutation in Hil.
  split.
  - intros s Hs. rewrite Hil in Hs.
    apply elem_of_concat in Hs as (l & Hs & Hl).
    apply list_elem_of_fmap in Hl as (db & -> & _).
    by apply list_elem_of_filter in Hs as [_ Hs].
  - intros s Hs.
    assert (Hcount : length (filter (eq s) calls)
       = length (filter (fun db => same_options h' db s) (servers cl))).
    { rewrite Hil.
      apply (count_concat_filter (same_options h')); [| done].
      by eapply constructed_shards_NoDup. }
    split; [done |]. rewrite Hcount.
    destruct (shard_has_server h' cl s Hc Hs) as (db & Hdb & Hopt).
    apply list_elem_of_lookup in Hdb as [i Hi].
    by apply (filter_lookup_pos (fun db => same_options h' db s) _ i db).
Qed.

Lemma ForEachShard_calls_per_shard_witness :
  (NewClusterWithGen sampleGen [serverA; serverB] 2 None heapTwin
     = Ok (clusterTwin, heapTwin2)
   /\ ForEachShard heapTwin2 clusterTwin (fun _ => None)
        ([Addr 4; Addr 7; Addr 4; Addr 7], Ok None))
  /\ length (filter (eq (Addr 7)) [Addr 4; Addr 7; Addr 4; Addr 7]) = 2%nat.
Proof.
  assert (Hrun : ForEachShard heapTwin2 clusterTwin (fun _ => None)
                   ([Addr 4; Addr 7; Addr 4; Addr 7], Ok None)).
  { apply (Fan_sequential_fun clusterTwin
             (fun db => ForEachShard_fn heapTwin2 (fun _ => None) db
                          (shards clusterTwin) None [])).
    intros db Hdb.
    destruct (ForEachShard_fn_constructed heapTwin2 clusterTwin
                (fun _ => None) db) as [e He]; [| done |].
    - by destruct (NewClusterWithGen_inv _ _ _ _ _ _ _ sample_cluster_Twin)
        as (_ & _ & _ & _ & _ & Hc).
    - rewrite He. by eexists. }
  split; [split; [exact sample_cluster_Twin | exact Hrun] |].
  destruct (ForEachShard_calls_per_shard _ _ _ _ _ _ _ _ _ _
              sample_cluster_Twin Hrun) as [_ Hcount].
  destruct (Hcount (Addr 7)) as [-> _]; [right; left |].
  reflexivity.
Defined.

(** ** The pool of ForEachNShards with any number of tokens *)

Lemma omap_insert_middle {A B} (f : A -> option B) (l1 l2 : list A) x :
  omap f (l1 ++ x :: l2)
  = omap f l1 ++ match f x with Some y => [y] | None => [] end ++ omap f l2.
Proof. rewrite omap_app. simpl. by destruct (f x). Qed.

Lemma worker_ok_mono fn ch ch' s w :
  (is_Some ch -> is_Some ch') -> worker_ok fn ch s w -> worker_ok fn ch' s w.
Proof. intros Hch. destruct w; simpl; tauto. Qed.

Ltac split_pool Hi HF :=
  let ws1 := fresh "ws1" in
  let ws2 := fresh "ws2" in
  let st1 := fresh "st1" in
  let st2 := fresh "st2" in
  let s := fresh "s" in
  let HF1 := fresh "HF1" in
  let HF2 := fresh "HF2" in
  let Hw := fresh "Hw" in
  apply list_elem_of_split_length in Hi as (ws1 & ws2 & -> & ->);
  apply Forall2_app_inv_r in HF as (st1 & st2' & HF1 & HF2 & ->);
  apply Forall2_cons_inv_r in HF2 as (s & st2 & Hw & HF2 & ->);
  rewrite ?insert_middle in *;
  rewrite ?filter_app, ?filter_cons, ?length_app, ?omap_insert_middle in *;
  simpl in *.

Lemma Pool_inv_step h n fn db l c c' :
  Pool_inv h n fn db l c ->
  Pool_step h n fn db c c' ->
  Pool_inv h n fn db l c'.
Proof.
  intros Hinv Hstep.
  destruct Hstep as
    [shard rest ws lim wg ch calls Hd
    |shard rest ws lim wg ch calls msg Hd
    |shard rest ws lim wg ch calls Hd Hroom
    |i shard rest ws lim wg ch calls Hi
    |i e rest ws lim wg ch calls Hi
    |i rest ws lim wg ch calls Hi
    |i rest ws lim wg ch calls Hi
    |ws lim ch calls];
    simpl in Hinv;
    destruct Hinv as (started & Hst & Hnn & HF & Hcalls & Htok & Hle & Hwg
                      & Hch);
    simpl in *.
  - (* continue *)
    apply Forall_cons in Hnn as [_ Hnn].
    exists started. rewrite filter_cons in Hst.
    rewrite decide_False in Hst
      by (intros Hs; by apply (Options_differ_Ok h shard db true Hd) in Hs).
    repeat split; auto.
  - (* nil handle *)
    apply Forall_cons in Hnn as [[b Hb] _]. congruence.
  - (* a goroutine starts *)
    apply Forall_cons in Hnn as [_ Hnn].
    exists (started ++ [shard]). rewrite filter_cons in Hst.
    rewrite decide_True in Hst
      by (by apply (Options_differ_Ok h shard db false Hd)).
    rewrite filter_app, length_app.
    rewrite (filter_cons_True holds_token) by done.
    rewrite (filter_app worker_live), (filter_cons_True worker_live) by done.
    rewrite length_app, omap_app. simpl.
    repeat split; auto; try lia.
    + by rewrite <- app_assoc.
    + apply Forall2_app; [done |]. by repeat constructor.
    + by rewrite app_assoc, Hcalls.
    + intros e He. destruct (Hch e He) as (s & Hs & Hfn).
      exists s. split; [| done]. apply elem_of_app. by left.
  - (* the call *)
    split_pool Hi HF. subst s.
    exists (st1 ++ shard :: st2).
    destruct (fn shard) as [e|] eqn:Hfn; simpl;
      (repeat split; auto;
       [ apply Forall2_app; [done |]; constructor; [simpl; auto | done]
       | rewrite <- Hcalls; rewrite <- !app_assoc; simpl;
         apply Permutation_app_head; apply Permutation_middle ]).
  - (* the send *)
    split_pool Hi HF.
    exists (st1 ++ s :: st2).
    assert (Hmono : is_Some ch -> is_Some (try_send ch e)).
    { intros [e0 ->]. by eexists. }
    repeat split; auto.
    + apply Forall2_app.
      * eapply Forall2_impl; [exact HF1 |].
        intros ? ?. by apply worker_ok_mono.
      * constructor.
        -- simpl. right. destruct ch; by eexists.
        -- eapply Forall2_impl; [exact HF2 |].
           intros ? ?. by apply worker_ok_mono.
    + intros e' He'. destruct ch as [e0|]; simpl in He'.
      * by apply Hch.
      * injection He' as <-. exists s. split; [| done].
        apply elem_of_app. right. by left.
  - (* the token goes back *)
    split_pool Hi HF.
    exists (st1 ++ s :: st2).
    repeat split; auto; try lia.
    apply Forall2_app; [done |]. by constructor.
  - (* wg.Done() *)
    split_pool Hi HF.
    exists (st1 ++ s :: st2).
    repeat split; auto; try lia.
    apply Forall2_app; [done |]. by constructor.
  - (* the return *)
    rewrite filter_nil, app_nil_r in Hst. subst started.
    assert (Hall : Forall (fun w => ~ worker_live w) ws).
    { apply (filter_length_0 worker_live). lia. }
    assert (Hgone : Forall (fun w => w = WGone) ws).
    { eapply Forall_impl; [exact Hall |].
      intros w Hw. unfold worker_live in Hw.
      by destruct (decide (w = WGone)). }
    assert (Hpend : omap pending_call ws = []).
    { clear -Hgone. induction Hgone as [|w ws -> _ IH]; [done |].
      simpl. exact IH. }
    rewrite Hpend, app_nil_r in Hcalls.
    split; [done |]. exists ch. split; [done |]. split; [done |].
    intros -> s Hs.
    apply list_elem_of_lookup in Hs as [j Hj].
    destruct (Forall2_lookup_l _ _ _ _ _ HF Hj) as (w & Hw & Hok).
    rewrite Forall_lookup in Hgone. rewrite (Hgone j w Hw) in Hok.
    simpl in Hok. destruct Hok as [?|Hs]; [done | by destruct Hs].
Qed.

Lemma Pool_inv_reachable h n fn db l c :
  0 <= n ->
  no_nil h db l ->
  rtc (Pool_step h n fn db) (Pool_init n l) c ->
  Pool_inv h n fn db l c.
Proof.
  intros Hn Hnn. unfold Pool_init. rewrite decide_False by lia.
  revert c. apply rtc_ind_r.
  - simpl. exists [].
    split; [done |]. split; [done |]. split; [constructor |].
    split; [done |]. split; [done |]. split; [lia |]. split; [done |].
    intros e [=].
  - intros c c' _ Hstep Hinv. by eapply Pool_inv_step.
Qed.

(** With at least one token, the pool can always make a step. *)
Lemma Pool_progress h n fn db l p :
  1 <= n ->
  Pool_inv h n fn db l (PLive p) ->
  exists c', Pool_step h n fn db (PLive p) c'.
Proof.
  intros Hn Hinv. destruct p as [rest ws lim wg ch calls].
  destruct Hinv as (started & Hst & Hnn & HF & Hcalls & Htok & Hle & Hwg
                    & Hch).
  simpl in *.
  destruct (decide (sum_list_with worker_weight ws = 0%nat)) as [Hz|Hnz].
  - apply no_weight_no_worker in Hz.
    assert (lim = 0%nat) as ->.
    { rewrite Htok. rewrite filter_none; [done |].
      rewrite Forall_forall in Hz. intros w Hw. rewrite (Hz w Hw).
      simpl. tauto. }
    assert (wg = 0%nat) as ->.
    { rewrite Hwg. rewrite filter_none; [done |].
      rewrite Forall_forall in Hz. intros w Hw. rewrite (Hz w Hw).
      unfold worker_live. tauto. }
    destruct rest as [|shard rest].
    + eexists. apply P_return.
    + apply Forall_cons in Hnn as [[[|] Hb] _].
      * eexists. by apply P_skip.
      * eexists. apply P_go; [done | lia].
  - destruct (sum_list_with_pos worker_weight ws ltac:(lia))
      as (i & w & Hi & Hw).
    destruct w; simpl in Hw; try lia.
    + eexists. by eapply P_call.
    + eexists. by eapply P_send.
    + pose proof (filter_lookup_pos holds_token ws i WRelease Hi I).
      destruct lim as [|lim]; [lia |].
      eexists. by eapply P_release.
    + pose proof (filter_lookup_pos worker_live ws i WDone Hi ltac:(done)).
      destruct wg as [|wg]; [lia |].
      eexists. by eapply P_done.
Qed.

(** With at least one token, every configuration the pool reaches can be
    run to the end. *)
Lemma Pool_finishes h n fn db l :
  1 <= n ->
  forall m c,
    (pool_measure c <= m)%nat ->
    Pool_inv h n fn db l c ->
    exists o, rtc (Pool_step h n fn db) c (PEnd o).
Proof.
  intros Hn. induction m as [|m IH]; intros c Hm Hinv.
  - destruct c as [p|o]; [simpl in Hm; lia |]. by exists o.
  - destruct c as [p|o]; [| by exists o].
    destruct (Pool_progress h n fn db l p Hn Hinv) as [c' Hstep].
    pose proof (Pool_step_measure h n fn db _ _ Hstep) as Hlt.
    destruct (IH c') as [o Ho]; [lia | by eapply Pool_inv_step |].
    exists o. by eapply rtc_l.
Qed.

(** With at least one token, the pool can run its goroutines one after
    another; this is the loop of [ForEachShard]. *)
Lemma Pool_sequential h n fn db :
  1 <= n ->
  forall rest ws ch calls,
    rtc (Pool_step h n fn db)
      (PLive (mkPool rest ws 0 0 ch calls))
      (PEnd (ForEachShard_fn h fn db rest ch calls)).
Proof.
  intros Hn. induction rest as [|shard rest IH]; intros ws ch calls.
  - simpl. apply rtc_once. constructor.
  - destruct (Options_differ h shard db) as [[|]|msg] eqn:Hd.
    + eapply rtc_l; [by apply P_skip |].
      simpl. rewrite Hd. apply IH.
    + rewrite ForEachShard_fn_call by done.
      eapply rtc_l; [apply P_go; [done | lia] |].
      eapply rtc_l.
      { apply (P_call _ _ _ _ (length ws)). by apply list_lookup_middle. }
      rewrite insert_middle.
      destruct (fn shard) as [e|].
      * eapply rtc_l.
        { apply (P_send _ _ _ _ (length ws)). by apply list_lookup_middle. }
        rewrite insert_middle.
        eapply rtc_l.
        { apply (P_release _ _ _ _ (length ws)). by apply list_lookup_middle. }
        rewrite insert_middle.
        eapply rtc_l.
        { apply (P_done _ _ _ _ (length ws)). by apply list_lookup_middle. }
        rewrite insert_middle. apply IH.
      * eapply rtc_l.
        { apply (P_release _ _ _ _ (length ws)). by apply list_lookup_middle. }
        rewrite insert_middle.
        eapply rtc_l.
        { apply (P_done _ _ _ _ (length ws)). by apply list_lookup_middle. }
        rewrite insert_middle. apply IH.
    + simpl. rewrite Hd. apply rtc_once. by apply P_nil.
Qed.

Lemma ForEachNShards_fn_sequential h n fn db l :
  1 <= n ->
  ForEachNShards_fn h n fn db l (ForEachShard_fn h fn db l None []).
Proof.
  intros Hn. unfold ForEachNShards_fn, Pool_init.
  rewrite decide_False by lia. by apply Pool_sequential.
Qed.

(** What the function of [ForEachNShards] does on a server, with at least
    one token. *)
Lemma ForEachNShards_fn_outcome h n fn db l calls r :
  1 <= n ->
  no_nil h db l ->
  ForEachNShards_fn h n fn db l (calls, r) ->
  calls ≡ₚ filter (same_options h db) l
  /\ exists e,
      r = Ok e
      /\ (forall x, e = Some x ->
            exists s, s ∈ filter (same_options h db) l /\ fn s = Some x)
      /\ (e = None ->
          forall s, s ∈ filter (same_options h db) l -> fn s = None).
Proof.
  intros Hn Hnn Hrun.
  exact (Pool_inv_reachable h n fn db l _ ltac:(lia) Hnn Hrun).
Qed.

(** Every step of [ForEachDB] uses up the bound. *)
Lemma Fan_step_bound body srv B c c' :
  (forall db o, db ∈ srv -> body db o -> (length o.1 <= B)%nat) ->
  Fan_inv body srv c ->
  Fan_step body c c' ->
  (fan_bound B c' < fan_bound B c)%nat.
Proof.
  intros Hfun Hinv Hstep.
  destruct Hstep as
    [db rest ts wg ch calls o Hbody
    |i tr a k c rest ts wg ch calls Hi Hk
    |i tr rest ts wg ch calls Hi
    |i tr e rest ts wg ch calls Hi
    |i tr msg rest ts wg ch calls Hi
    |i tr e rest ts wg ch calls Hi
    |i o rest ts wg ch calls Hi
    |ts ch calls];
    simpl; try lia.
  - destruct Hinv as ((launched & -> & _) & _). simpl in *.
    pose proof (Hfun db o ltac:(apply elem_of_app; right; by left) Hbody).
    rewrite sum_list_with_app. simpl. unfold task_weight at 2. simpl. lia.
  - pose proof (sum_list_with_insert task_weight ts i _
                  (mkTask (tr, a) (TRun (S k))) Hi) as Hs.
    apply lookup_lt_Some in Hk. cbn in Hs. lia.
  - pose proof (sum_list_with_insert task_weight ts i _
                  (mkTask (tr, Ok None) TDone) Hi) as Hs.
    cbn in Hs. lia.
  - pose proof (sum_list_with_insert task_weight ts i _
                  (mkTask (tr, Ok (Some e)) TSend) Hi) as Hs.
    cbn in Hs. lia.
  - pose proof (sum_list_with_insert task_weight ts i _
                  (mkTask (tr, Ok (Some e)) TDone) Hi) as Hs.
    cbn in Hs. lia.
  - pose proof (sum_list_with_insert task_weight ts i _
                  (mkTask o TGone) Hi) as Hs.
    cbn in Hs. lia.
Qed.

Lemma Fan_bounded_by body cl B :
  (forall db o, db ∈ servers cl -> body db o -> (length o.1 <= B)%nat) ->
  forall n c,
    nsteps (Fan_step body) n (Fan_init cl) c ->
    (n + fan_bound B c <= fan_bound B (Fan_init cl))%nat.
Proof.
  intros Hfun. induction n as [|n IH]; intros c Hn.
  - inversion Hn; subst. simpl. lia.
  - apply nsteps_inv_r in Hn as (c1 & Hn & Hstep).
    specialize (IH c1 Hn).
    pose proof (Fan_inv_reachable body cl c1 (rtc_nsteps_2 _ _ _ Hn)) as Hinv.
    pose proof (Fan_step_bound body (servers cl) B c1 c Hfun Hinv Hstep).
    lia.
Qed.

(** [ForEachDB] always ends when the function it is given has an outcome on
    every server and makes a bounded number of calls. *)
Lemma ForEachDB_with_always_ends_bounded cl body B :
  (forall db, db ∈ servers cl -> exists o, body db o) ->
  (forall db o, db ∈ servers cl -> body db o -> (length o.1 <= B)%nat) ->
  always_ends cl body.
Proof.
  intros Hex Hb. split.
  - by apply ForEachDB_with_never_stuck.
  - exists (fan_bound B (Fan_init cl)). intros n c Hn.
    pose proof (Fan_bounded_by body cl B Hb n c Hn). lia.
Qed.

(** ** Fan-out over a list of shards *)

Lemma concat_Permutation {A} (ls ks : list (list A)) :
  Forall2 (≡ₚ) ls ks -> concat ls ≡ₚ concat ks.
Proof.
  induction 1 as [|l k ls ks Hlk _ IH]; simpl; [done |].
  by rewrite Hlk, IH.
Qed.

Lemma Forall2_impl_in {A B} (P Q : A -> B -> Prop) l k :
  Forall2 P l k ->
  (forall x y, x ∈ l -> P x y -> Q x y) ->
  Forall2 Q l k.
Proof.
  induction 1 as [|x y l k HP _ IH]; intros HPQ; constructor.
  - apply HPQ; [by left | done].
  - apply IH. intros x' y' Hx'. apply HPQ. by right.
Qed.

(** The calls of a fan-out over the shards [l] of a cluster whose servers
    answer distinct options: [fn] is called once on every shard of [l]. *)
Lemma fanout_calls (h : Heap) cl (l : list ptr) body calls e :
  constructed h cl ->
  distinct_options h (dbs cl) ->
  (forall s, s ∈ l -> s ∈ shards cl) ->
  (forall db o, db ∈ servers cl -> body db o ->
     o.1 ≡ₚ filter (same_options h db) l) ->
  ForEachDB_with cl body (calls, Ok e) ->
  calls ≡ₚ l.
Proof.
  intros Hc Hdist Hsub Hbody Hrun.
  destruct (Fan_end _ _ _ _ Hrun) as (outs & HF & Hil & _).
  apply interleave_Permutation in Hil. rewrite Hil.
  rewrite (concat_Permutation outs.*1
             ((fun db => filter (same_options h db) l) <$> servers cl)).
  - apply (concat_filter_partition (same_options h)).
    + rewrite (c_servers _ _ Hc). apply init_servers_NoDup.
    + intros s Hs.
      destruct (shard_owner h cl s Hc Hdist (Hsub s Hs))
        as (db0 & Hdb0 & _ & Hiff).
      by exists db0.
  - apply Forall2_fmap_l, Forall2_fmap_r, Forall2_flip.
    eapply Forall2_impl_in; [exact HF |].
    intros db o Hdb Hb. simpl. by apply Hbody.
Qed.

(** The error of a fan-out over the shards [l] of a cluster: nil when [fn]
    has answered nil on every shard, an error [fn] has answered otherwise. *)
Lemma fanout_error (h : Heap) cl (l : list ptr) (fn : ptr -> error) body calls
  e :
  constructed h cl ->
  (forall s, s ∈ l -> s ∈ shards cl) ->
  (forall db o e', db ∈ servers cl -> body db o -> o.2 = Ok e' ->
     (forall x, e' = Some x ->
        exists s, s ∈ filter (same_options h db) l /\ fn s = Some x)
     /\ (e' = None ->
         forall s, s ∈ filter (same_options h db) l -> fn s = None)) ->
  ForEachDB_with cl body (calls, Ok e) ->
  (e = None <-> forall s, s ∈ l -> fn s = None)
  /\ (forall x, e = Some x -> exists s, s ∈ l /\ fn s = Some x).
Proof.
  intros Hc Hsub Hbody Hrun.
  destruct (Fan_end _ _ _ _ Hrun) as (outs & HF & _ & _ & Hsome & Hnone).
  assert (Hsomes : forall x, e = Some x -> exists s, s ∈ l /\ fn s = Some x).
  { intros x Hx.
    destruct (Hsome x Hx) as (o & (i & Hi)%list_elem_of_lookup & Hox).
    destruct (Forall2_lookup_r _ _ _ _ _ HF Hi) as (db & Hdb & Hb).
    destruct (Hbody db o (Some x) ltac:(by eapply list_elem_of_lookup_2)
                Hb Hox) as [Hs _].
    destruct (Hs x eq_refl) as (s & Hin & Hfn).
    apply list_elem_of_filter in Hin as [_ Hin]. by exists s. }
  split; [| done]. split.
  - intros He s Hs. specialize (Hnone He).
    destruct (shard_has_server h cl s Hc (Hsub s Hs)) as (db & Hdb & Hopt).
    pose proof Hdb as Hdb'.
    apply list_elem_of_lookup in Hdb as [i Hi].
    destruct (Forall2_lookup_l _ _ _ _ _ HF Hi) as (o & Ho & Hb).
    rewrite Forall_lookup in Hnone. specialize (Hnone i o Ho). simpl in Hnone.
    destruct (Hbody db o None Hdb' Hb Hnone) as [_ Hn].
    apply (Hn eq_refl). by apply list_elem_of_filter.
  - intros Hall. destruct e as [x|]; [| done].
    destruct (Hsomes x eq_refl) as (s & Hs & Hfn).
    rewrite (Hall s Hs) in Hfn. done.
Qed.

Lemma fanout_no_panic cl body calls r :
  (forall db o, db ∈ servers cl -> body db o -> exists e, o.2 = Ok e) ->
  ForEachDB_with cl body (calls, r) ->
  exists e, r = Ok e.
Proof.
  intros Hbody Hrun. destruct r as [e|msg]; [by exists e |].
  pose proof (Fan_inv_reachable _ _ _ Hrun) as (db & tr & Hdb & Hb).
  destruct (Hbody db _ Hdb Hb) as [e He]. done.
Qed.

Lemma no_nil_sub h db (l k : list ptr) :
  (forall s, s ∈ k -> s ∈ l) -> no_nil h db l -> no_nil h db k.
Proof.
  unfold no_nil. rewrite !Forall_forall. intros Hsub Hl s Hs.
  apply Hl, Hsub, Hs.
Qed.

(** What the function of [ForEachNShards] does on a server of a
    constructed cluster, over shards [l] of the cluster. *)
Lemma ForEachNShards_fn_constructed (h : Heap) cl n fn db (l : list ptr) calls
  r :
  constructed h cl ->
  1 <= n ->
  db ∈ servers cl ->
  (forall s, s ∈ l -> s ∈ shards cl) ->
  ForEachNShards_fn h n fn db l (calls, r) ->
  calls ≡ₚ filter (same_options h db) l
  /\ exists e,
      r = Ok e
      /\ (forall x, e = Some x ->
            exists s, s ∈ filter (same_options h db) l /\ fn s = Some x)
      /\ (e = None ->
          forall s, s ∈ filter (same_options h db) l -> fn s = None).
Proof.
  intros Hc Hn Hdb Hsub. apply ForEachNShards_fn_outcome; [done |].
  apply (no_nil_sub h db (shards cl)); [done |].
  apply constructed_no_nil; [done |].
  by apply (constructed_servers_dbs h cl).
Qed.

Lemma filter_length_le {A} (P : A -> Prop) `{forall x, Decision (P x)}
  (l : list A) : (length (filter P l) <= length l)%nat.
Proof.
  induction l as [|x l IH]; [done |].
  rewrite filter_cons. destruct (decide (P x)); simpl; lia.
Qed.

(** A fan-out with at least one token over shards [l] of a constructed
    cluster: it always ends, [fn] is called once on every shard of [l] when
    the servers answer distinct options, and the error is nil when [fn] has
    answered nil on every shard and an error [fn] has answered otherwise. *)
Lemma fanout_pool (h : Heap) cl n fn (l : list ptr) :
  constructed h cl ->
  1 <= n ->
  (forall s, s ∈ l -> s ∈ shards cl) ->
  let body := fun db o => ForEachNShards_fn h n fn db l o in
  always_ends cl body
  /\ (forall o,
        ForEachDB_with cl
          (fun db o' => o' = ForEachShard_fn h fn db l None []) o ->
        ForEachDB_with cl body o)
  /\ forall calls r,
       ForEachDB_with cl body (calls, r) ->
       exists e,
         r = Ok e
         /\ (forall s, s ∈ calls -> s ∈ l)
         /\ (e = None <-> forall s, s ∈ l -> fn s = None)
         /\ (forall x, e = Some x -> exists s, s ∈ l /\ fn s = Some x)
         /\ (distinct_options h (dbs cl) -> calls ≡ₚ l).
Proof.
  intros Hc Hn Hsub body.
  assert (Hout : forall db calls r, db ∈ servers cl -> body db (calls, r) ->
     calls ≡ₚ filter (same_options h db) l
     /\ exists e,
         r = Ok e
         /\ (forall x, e = Some x ->
               exists s, s ∈ filter (same_options h db) l /\ fn s = Some x)
         /\ (e = None ->
             forall s, s ∈ filter (same_options h db) l -> fn s = None)).
  { intros db calls r Hdb Hb.
    by apply (ForEachNShards_fn_constructed h cl n fn db l calls r). }
  split; [| split].
  - apply (ForEachDB_with_always_ends_bounded cl body (length l)).
    + intros db Hdb. eexists. by apply ForEachNShards_fn_sequential.
    + intros db [calls r] Hdb Hb. destruct (Hout db calls r Hdb Hb) as [Hp _].
      simpl. rewrite Hp. apply filter_length_le.
  - intros o Hrun. unfold ForEachDB_with in *.
    eapply (Fan_rtc_ext _ body (fun _ => True)); [| exact Hrun |].
    + intros db o' _ ->. by apply ForEachNShards_fn_sequential.
    + simpl. apply Forall_forall. done.
  - intros calls r Hrun.
    destruct (fanout_no_panic cl body calls r) as [e ->]; [| done |].
    { intros db [calls' r'] Hdb Hb.
      destruct (Hout db calls' r' Hdb Hb) as (_ & e & -> & _). by exists e. }
    exists e. split; [done |].
    assert (Herr := fanout_error h cl l fn body calls e Hc Hsub).
    destruct Herr as [Hnone Hsome]; [| done |].
    { intros db [calls' r'] e' Hdb Hb Hr. simpl in Hr. subst r'.
      destruct (Hout db calls' (Ok e') Hdb Hb) as (_ & e'' & [= <-] & H1 & H2).
      by split. }
    split; [| split; [done | split; [done |]]].
    + intros s Hs.
      destruct (Fan_end _ _ _ _ Hrun) as (outs & HF & Hil & _).
      apply interleave_Permutation in Hil. rewrite Hil in Hs.
      apply elem_of_concat in Hs as (tr & Hs & Htr).
      apply list_elem_of_fmap in Htr as ([calls' r'] & -> & Ho).
      apply list_elem_of_lookup in Ho as [i Hi].
      destruct (Forall2_lookup_r _ _ _ _ _ HF Hi) as (db & Hdb & Hb).
      destruct (Hout db calls' r' ltac:(by eapply list_elem_of_lookup_2) Hb)
        as [Hp _].
      simpl in Hs. rewrite Hp in Hs.
      by apply list_elem_of_filter in Hs as [_ Hs].
    + intros Hdist. apply (fanout_calls h cl l body calls e); try done.
      intros db [calls' r'] Hdb Hb. simpl.
      by destruct (Hout db calls' r' Hdb Hb) as [Hp _].
Qed.

(** ** ForEachNShards, and the fan-out of a sub-cluster *)

Lemma constructed_servers_ne (h : Heap) cl :
  constructed h cl -> exists db rest, servers cl = db :: rest.
Proof.
  intros Hc. destruct (dbs cl) as [|db l] eqn:E.
  - by destruct (constructed_dbs_ne h cl Hc).
  - assert (Hin : db ∈ servers cl).
    { apply (constructed_servers_dbs h cl db Hc). rewrite E. by left. }
    destruct (servers cl) as [|x rest]; [by inversion Hin | eauto].
Qed.

Lemma Pool_end_final h n fn db o c :
  rtc (Pool_step h n fn db) (PEnd o) c -> c = PEnd o.
Proof.
  intros Hrun. apply rtc_inv in Hrun as [->|(c' & Hstep & _)]; [done |].
  inversion Hstep.
Qed.

(** X20. With a negative [n], [ForEachNShards(n, fn)] on a constructed
    cluster never calls [fn]: the function it passes to [ForEachDB] panics
    on every server when it makes the channel of tokens, and every execution
    ends in that panic. *)
Theorem ForEachNShards_negative D dbs0 nshards gen0 (h : Heap) cl (h' : Heap)
  n (fn : ptr -> error) :
  NewClusterWithGen D dbs0 nshards gen0 h = Ok (cl, h') ->
  n < 0 ->
  (forall db o,
     ForEachNShards_fn h' n fn db (shards cl) o
     <-> o = ([], Panic makechan_error))
  /\ ForEachNShards h' cl n fn ([], Panic makechan_error)
  /\ (forall o, ForEachNShards h' cl n fn o ->
        o = ([], Panic makechan_error)).
Proof.
  intros Hnew Hn.
  apply NewClusterWithGen_inv in Hnew as (_ & _ & _ & _ & _ & Hc).
  assert (Hfn : forall db o,
     ForEachNShards_fn h' n fn db (shards cl) o
     <-> o = ([], Panic makechan_error)).
  { intros db o. unfold ForEachNShards_fn, Pool_init.
    rewrite decide_True by done. split.
    - intros Hrun. apply Pool_end_final in Hrun. by injection Hrun.
    - intros ->. done. }
  split; [exact Hfn |]. split.
  - destruct (constructed_servers_ne h' cl Hc) as (db & rest & Hsrv).
    unfold ForEachNShards, ForEachDB_with, Fan_init. rewrite Hsrv.
    eapply rtc_l.
    { apply (F_go _ db rest [] _ None [] ([], Panic makechan_error)).
      by apply Hfn. }
    apply rtc_once. by apply (F_panic _ 0 []).
  - intros [calls r] Hrun. destruct r as [e|msg].
    + destruct (Fan_end _ _ _ _ Hrun) as (outs & HF & _ & Hok & _).
      destruct (constructed_servers_ne h' cl Hc) as (db & rest & Hsrv).
      rewrite Hsrv in HF.
      apply Forall2_cons_inv_l in HF as (o & outs' & Hb & _ & ->).
      apply Forall_cons in Hok as [[e' He'] _].
      apply Hfn in Hb. subst o. done.
    + destruct (Fan_end_panic _ _ _ _ Hrun)
        as ((db & tr & _ & Hb) & ls & Hil & Hls).
      apply Hfn in Hb. injection Hb as _ ->.
      apply interleave_Permutation in Hil.
      assert (Hnil : concat ls = []).
      { clear -Hls Hfn. induction Hls as [|l ls (db & o & _ & Hb & Hp) _ IH];
          [done |].
        simpl. rewrite IH, app_nil_r.
        apply Hfn in Hb. subst o. simpl in Hp.
        by apply prefix_nil_inv in Hp. }
      rewrite Hnil in Hil. apply Permutation_nil_r in Hil. by subst calls.
Qed.

Lemma ForEachNShards_negative_witness :
  (NewClusterWithGen sampleGen [serverA; serverB] 4 None heapAB
     = Ok (clusterAB, heapAB4)
   /\ -1 < 0)
  /\ ForEachNShards heapAB4 clusterAB (-1) failOn7
       ([], Panic makechan_error).
Proof.
  split; [split; [exact sample_cluster | lia] |].
  by destruct (ForEachNShards_negative _ _ _ _ _ _ _ (-1) failOn7
                 sample_cluster ltac:(lia)) as (_ & Hrun & _).
Defined.

(** Without a token, the loop of the pool stops at the first shard of the
    server: the send on [limit] never goes through. *)
Lemma Pool_zero_blocked h fn db l c :
  no_nil h db l ->
  (exists s, s ∈ l /\ same_options h db s) ->
  rtc (Pool_step h 0 fn db) (Pool_init 0 l) c ->
  exists rest,
    c = PLive (mkPool rest [] 0 0 None [])
    /\ no_nil h db rest
    /\ exists s, s ∈ rest /\ same_options h db s.
Proof.
  intros Hnn Hex. unfold Pool_init. rewrite decide_False by lia.
  revert c. apply rtc_ind_r; [by exists l |].
  intros c c' _ Hstep (rest & -> & Hnn' & s & Hs & Hopt).
  inversion Hstep as
    [shard rest' ws lim wg ch calls Hd
    |shard rest' ws lim wg ch calls msg Hd
    |shard rest' ws lim wg ch calls Hd Hroom
    |i shard rest' ws lim wg ch calls Hi
    |i e rest' ws lim wg ch calls Hi
    |i rest' ws lim wg ch calls Hi
    |i rest' ws lim wg ch calls Hi
    |ws lim ch calls]; subst; try done; try lia.
  - exists rest'. split; [done |].
    apply Forall_cons in Hnn' as [_ Hnn']. split; [done |].
    exists s. split; [| done].
    apply elem_of_cons in Hs as [->|Hs]; [| done].
    by apply (Options_differ_Ok h shard db true Hd) in Hopt.
  - apply Forall_cons in Hnn' as [[b Hb] _]. congruence.
  - by apply elem_of_nil in Hs.
Qed.

(** X21. With [n = 0], [ForEachNShards(0, fn)] on a constructed cluster
    never returns and never calls [fn]: on every server the loop blocks for
    ever on its first send of a token, before it starts a goroutine, since
    the channel of tokens has no room and no receiver. *)
Theorem ForEachNShards_zero_never_returns D dbs0 nshards gen0 (h : Heap) cl
  (h' : Heap) (fn : ptr -> error) :
  NewClusterWithGen D dbs0 nshards gen0 h = Ok (cl, h') ->
  (forall db c,
     db ∈ dbs0 ->
     rtc (Pool_step h' 0 fn db) (Pool_init 0 (shards cl)) c ->
     exists p,
       c = PLive p /\ p_workers p = [] /\ p_calls p = [] /\ p_rest p <> []
       /\ forall c', ~ Pool_step h' 0 fn db c (PEnd c'))
  /\ (forall db o, db ∈ dbs0 -> ~ ForEachNShards_fn h' 0 fn db (shards cl) o)
  /\ (forall o, ~ ForEachNShards h' cl 0 fn o).
Proof.
  intros Hnew.
  apply NewClusterWithGen_inv in Hnew as (_ & Hd & _ & _ & _ & Hc).
  rewrite <- Hd. clear Hd dbs0.
  assert (Hblocked : forall db c,
     db ∈ dbs cl ->
     rtc (Pool_step h' 0 fn db) (Pool_init 0 (shards cl)) c ->
     exists rest,
       c = PLive (mkPool rest [] 0 0 None [])
       /\ no_nil h' db rest
       /\ exists s, s ∈ rest /\ same_options h' db s).
  { intros db c Hdb. apply Pool_zero_blocked.
    - by apply constructed_no_nil.
    - apply list_elem_of_lookup in Hdb as [i Hi].
      pose proof (lookup_lt_Some _ _ _ Hi) as Hlt.
      destruct (c_bound _ _ Hc (Z.of_nat i)) as (s & db' & Hs & Hdb' & Hof).
      { pose proof (c_shards_ge _ _ Hc). unfold len in *. lia. }
      rewrite Z.mod_small, Nat2Z.id in Hdb' by (unfold len; lia).
      assert (db' = db) as -> by congruence.
      exists s. split; [by eapply list_elem_of_lookup_2 |].
      destruct Hof as (o & Ho & Hso).
      unfold same_options, Options. by rewrite Ho, Hso. }
  assert (Hnone : forall db o,
            db ∈ dbs cl -> ~ ForEachNShards_fn h' 0 fn db (shards cl) o).
  { intros db o Hdb Hrun.
    by destruct (Hblocked db _ Hdb Hrun) as (rest & [=] & _). }
  split; [| split; [exact Hnone |]].
  - intros db c Hdb Hrun.
    destruct (Hblocked db c Hdb Hrun) as (rest & -> & Hnn & s & Hs & Hopt).
    eexists. split; [done |]. simpl. repeat split; auto.
    + intros ->. by apply elem_of_nil in Hs.
    + intros c' Hstep.
      assert (Hend : rtc (Pool_step h' 0 fn db) (Pool_init 0 (shards cl))
                       (PEnd c')) by (by eapply rtc_r).
      by apply (Hnone db c' Hdb).
  - intros o Hrun. unfold ForEachNShards, ForEachDB_with in Hrun.
    destruct (constructed_servers_ne h' cl Hc) as (db & rest & Hsrv).
    assert (Hdb : db ∈ dbs cl).
    { apply (constructed_servers_dbs h' cl db Hc). rewrite Hsrv. by left. }
    assert (Hstay : forall c,
              rtc (Fan_step (ForEachNShards_outcome h' cl 0 fn))
                (Fan_init cl) c -> c = Fan_init cl).
    { apply rtc_ind_r; [done |].
      intros c c' _ Hstep ->. unfold Fan_init in Hstep. rewrite Hsrv in Hstep.
      inversion Hstep as
        [db' rest' ts wg ch calls o' Hbody
        |i tr a k c'' rest' ts wg ch calls Hi Hk
        |i tr rest' ts wg ch calls Hi
        |i tr e rest' ts wg ch calls Hi
        |i tr msg rest' ts wg ch calls Hi
        |i tr e rest' ts wg ch calls Hi
        |i o' rest' ts wg ch calls Hi
        |ts ch calls]; subst; try done.
      by apply Hnone in Hbody. }
    by specialize (Hstay _ Hrun).
Qed.

Lemma ForEachNShards_zero_never_returns_witness :
  NewClusterWithGen sampleGen [serverA; serverB] 4 None heapAB
    = Ok (clusterAB, heapAB4)
  /\ forall o, ~ ForEachNShards heapAB4 clusterAB 0 failOn7 o.
Proof.
  split; [exact sample_cluster |].
  by destruct (ForEachNShards_zero_never_returns _ _ _ _ _ _ _ failOn7
                 sample_cluster) as (_ & _ & Hnever).
Defined.

(** X22. On a server of a constructed cluster and with [n >= 1], the
    function [ForEachNShards] passes to [ForEachDB] never gets stuck and makes
    a bounded number of steps; at no time do more than [n] of its goroutines
    hold a token, and the calls of [fn] made so far are calls on shards of
    the server, none made more often than the shard occurs in the shard
    list; the sequential loop of
    [ForEachShard] is one of its executions; at the end [fn] has been called
    once on every shard of the server, in any order, and the answer is nil
    exactly when [fn] answers nil on all of them, an error of one of them
    otherwise. *)
Theorem ForEachNShards_on_one_server D dbs0 nshards gen0 (h : Heap) cl
  (h' : Heap) n (fn : ptr -> error) db :
  NewClusterWithGen D dbs0 nshards gen0 h = Ok (cl, h') ->
  1 <= n ->
  db ∈ dbs0 ->
  (forall c,
     rtc (Pool_step h' n fn db) (Pool_init n (shards cl)) c ->
     (exists o, rtc (Pool_step h' n fn db) c (PEnd o))
     /\ forall p, c = PLive p ->
          Z.of_nat (length (filter holds_token (p_workers p))) <= n
          /\ p_calls p ⊆+ filter (same_options h' db) (shards cl))
  /\ (forall k c,
        nsteps (Pool_step h' n fn db) k (Pool_init n (shards cl)) c ->
        (k <= 1 + 5 * length (shards cl))%nat)
  /\ ForEachNShards_fn h' n fn db (shards cl)
       (ForEachShard_fn h' fn db (shards cl) None [])
  /\ forall calls r,
       ForEachNShards_fn h' n fn db (shards cl) (calls, r) ->
       calls ≡ₚ filter (same_options h' db) (shards cl)
       /\ exists e,
           r = Ok e
           /\ (e = None <->
               forall s, s ∈ filter (same_options h' db) (shards cl) ->
                         fn s = None)
           /\ (forall x, e = Some x ->
                 exists s, s ∈ filter (same_options h' db) (shards cl)
                           /\ fn s = Some x).
Proof.
  intros Hnew Hn Hdb.
  apply NewClusterWithGen_inv in Hnew as (_ & Hd & _ & _ & _ & Hc).
  rewrite <- Hd in *. clear Hd dbs0.
  pose proof (constructed_no_nil h' cl db Hc Hdb) as Hnn.
  split; [| split; [| split]].
  - intros c Hrun.
    pose proof (Pool_inv_reachable h' n fn db (shards cl) c ltac:(lia) Hnn
                  Hrun) as Hinv.
    split.
    + by apply (Pool_finishes h' n fn db (shards cl) Hn (pool_measure c)).
    + intros p ->. simpl in Hinv.
      destruct Hinv as (started & Hst & _ & HF & Hcalls & Htok & Hle & _).
      split; [lia |].
      rewrite Hst. etrans; [| apply submseteq_inserts_r; reflexivity].
      rewrite <- Hcalls. by apply submseteq_inserts_r.
  - intros k c Hk.
    pose proof (Pool_bounded _ _ _ _ _ _ _ Hk) as Hb.
    unfold Pool_init in Hb. rewrite decide_False in Hb by lia.
    simpl in Hb. lia.
  - by apply ForEachNShards_fn_sequential.
  - intros calls r Hrun.
    destruct (ForEachNShards_fn_outcome h' n fn db (shards cl) calls r Hn Hnn
                Hrun) as (Hp & e & -> & Hsome & Hnone).
    split; [done |]. exists e. split; [done |]. split; [| done]. split.
    + done.
    + intros Hall. destruct e as [x|]; [| done].
      destruct (Hsome x eq_refl) as (s & Hs & Hfn).
      rewrite (Hall s Hs) in Hfn. done.
Qed.

Lemma ForEachNShards_on_one_server_witness :
  (NewClusterWithGen sampleGen [serverA; serverB] 4 None heapAB
     = Ok (clusterAB, heapAB4)
   /\ 1 <= 2
   /\ serverB ∈ [serverA; serverB])
  /\ ForEachNShards_fn heapAB4 2 failOn7 serverB (shards clusterAB)
       ([Addr 7; Addr 13], Ok (Some "failed")).
Proof.
  assert (Hin : serverB ∈ [serverA; serverB]) by (right; left).
  split; [split; [exact sample_cluster | split; [lia | exact Hin]] |].
  by destruct (ForEachNShards_on_one_server _ _ _ _ _ _ _ 2 failOn7 serverB
                 sample_cluster ltac:(lia) Hin) as (_ & _ & Hseq & _).
Defined.

(** X23. On a constructed cluster and with [n >= 1], every execution of
    [ForEachNShards(n, fn)] ends and returns; every result of
    [ForEachShard(fn)] is a result of [ForEachNShards(n, fn)]; [fn] is called
    on shards of the cluster only, once on every shard when the servers answer
    distinct options; the error is nil exactly when [fn] answers nil on every
    shard, and an error [fn] answers on a shard otherwise. *)
Theorem ForEachNShards_every_shard D dbs0 nshards gen0 (h : Heap) cl
  (h' : Heap) n (fn : ptr -> error) :
  NewClusterWithGen D dbs0 nshards gen0 h = Ok (cl, h') ->
  1 <= n ->
  always_ends cl (ForEachNShards_outcome h' cl n fn)
  /\ (forall o, ForEachShard h' cl fn o -> ForEachNShards h' cl n fn o)
  /\ (exists calls e, ForEachNShards h' cl n fn (calls, Ok e))
  /\ forall calls r,
       ForEachNShards h' cl n fn (calls, r) ->
       exists e,
         r = Ok e
         /\ (forall s, s ∈ calls -> s ∈ shards cl)
         /\ (e = None <-> forall s, s ∈ shards cl -> fn s = None)
         /\ (forall x, e = Some x ->
               exists s, s ∈ shards cl /\ fn s = Some x)
         /\ (distinct_options h' dbs0 -> calls ≡ₚ shards cl).
Proof.
  intros Hnew Hn.
  apply NewClusterWithGen_inv in Hnew as (_ & Hd & _ & _ & _ & Hc).
  rewrite <- Hd. clear Hd dbs0.
  destruct (fanout_pool h' cl n fn (shards cl) Hc Hn ltac:(done))
    as (Hends & Hincl & Hall).
  split; [exact Hends |]. split; [exact Hincl |]. split; [| exact Hall].
  destruct (ForEachShard_exists h' cl fn Hc) as (calls & e & Hrun).
  exists calls, e. by apply Hincl.
Qed.

Lemma ForEachNShards_every_shard_witness :
  (NewClusterWithGen sampleGen [serverA; serverB] 4 None heapAB
     = Ok (clusterAB, heapAB4)
   /\ 1 <= 3)
  /\ exists calls e,
      ForEachNShards heapAB4 clusterAB 3 failOn7 (calls, Ok e)
      /\ calls ≡ₚ shards clusterAB.
Proof.
  split; [split; [exact sample_cluster | lia] |].
  destruct (ForEachNShards_every_shard _ _ _ _ _ _ _ 3 failOn7
              sample_cluster ltac:(lia)) as (_ & _ & (calls & e & Hrun) & Hall).
  exists calls, e. split; [done |].
  destruct (Hall calls (Ok e) Hrun) as (e' & _ & _ & _ & _ & Hperm).
  apply Hperm, distinct_options_AB.
Defined.

(** A sub-cluster that [cl.SubCluster] has returned: it is bound to the
    cluster, and its shards are consecutive shards of the cluster. *)
Lemma SubCluster_Ok_inv D dbs0 nshards gen0 (h : Heap) cl (h' : Heap)
  number size sc :
  is_int64 nshards ->
  NewClusterWithGen D dbs0 nshards gen0 h = Ok (cl, h') ->
  Cluster_SubCluster cl number size = Ok sc ->
  sub_cl sc = cl
  /\ sub_shards sc `sublist_of` shards cl
  /\ sub_shards sc <> [].
Proof.
  intros Hint Hnew HOk.
  assert (Hsz : 1 <= size).
  { destruct (decide (1 <= size)) as [|Hneg]; [done |].
    destruct (SubCluster_size_nonpos cl number size ltac:(lia)) as [msg E].
    congruence. }
  pose proof (NewClusterWithGen_inv _ _ _ _ _ _ _ Hnew)
    as (_ & _ & _ & Hn & _ & Hc).
  pose proof (c_dbs_pos _ _ Hc) as Hpos.
  pose proof (c_shards_ge _ _ Hc) as Hge.
  pose proof (SubCluster_run D dbs0 nshards gen0 h cl h' number size Hint Hnew
                Hsz) as Hrun.
  simpl in Hrun. destruct Hrun as (_ & _ & Hok & Hbad).
  set (size' := Z.min size (len (shards cl))) in *.
  set (offset := Z.rem number (Z.quot (len (shards cl)) size') * size') in *.
  destruct (decide (0 <= offset)) as [Hoff|Hoff];
    [| rewrite Hbad in HOk by lia; done].
  destruct (Hok Hoff) as [Hb E]. rewrite E in HOk. injection HOk as <-.
  simpl. split; [done |]. split.
  - etrans; [apply sublist_take | apply sublist_drop].
  - intros Hnil. apply (f_equal length) in Hnil.
    rewrite length_take, length_drop in Hnil.
    assert (1 <= size') by (unfold size'; lia).
    clearbody size' offset. unfold len in *. simpl in Hnil. lia.
Qed.

Lemma sublist_elem_of {A} (l k : list A) x :
  l `sublist_of` k -> x ∈ l -> x ∈ k.
Proof. intros Hs Hx. by eapply elem_of_sublist. Qed.

(** X24. [ForEachShard] on a sub-cluster that [SubCluster] has returned
    always ends and returns; it calls [fn] on shards of the window only, and
    when the servers answer distinct options once on every shard of the
    window, those of a server in the order of the window; the error is nil
    exactly when [fn] answers nil on every shard of the window (what [fn]
    answers outside the window does not matter). *)
Theorem SubCluster_ForEachShard_window D dbs0 nshards gen0 (h : Heap) cl
  (h' : Heap) number size sc (fn : ptr -> error) :
  is_int64 nshards ->
  NewClusterWithGen D dbs0 nshards gen0 h = Ok (cl, h') ->
  Cluster_SubCluster cl number size = Ok sc ->
  always_ends cl (SubCluster_ForEachShard_outcome h' sc fn)
  /\ (exists calls e, SubCluster_ForEachShard h' sc fn (calls, Ok e))
  /\ forall calls r,
       SubCluster_ForEachShard h' sc fn (calls, r) ->
       exists e,
         r = Ok e
         /\ (forall s, s ∈ calls -> s ∈ sub_shards sc)
         /\ (e = None <-> forall s, s ∈ sub_shards sc -> fn s = None)
         /\ (forall x, e = Some x ->
               exists s, s ∈ sub_shards sc /\ fn s = Some x)
         /\ (distinct_options h' dbs0 ->
             calls ≡ₚ sub_shards sc
             /\ forall db, db ∈ dbs0 ->
                  filter (same_options h' db) calls
                  = filter (same_options h' db) (sub_shards sc)).
Proof.
  intros Hint Hnew HOk.
  destruct (SubCluster_Ok_inv _ _ _ _ _ _ _ _ _ _ Hint Hnew HOk)
    as (Hcl & Hsub & _).
  apply NewClusterWithGen_inv in Hnew as (_ & Hd & _ & _ & _ & Hc).
  rewrite <- Hd. clear Hd dbs0.
  assert (Hin : forall s, s ∈ sub_shards sc -> s ∈ shards cl).
  { intros s. by apply sublist_elem_of. }
  assert (Hnn : forall db, db ∈ servers cl -> no_nil h' db (sub_shards sc)).
  { intros db Hdb. apply (no_nil_sub h' db (shards cl)); [done |].
    apply constructed_no_nil; [done |].
    by apply (constructed_servers_dbs h' cl). }
  set (F := fun db => ForEachShard_fn h' fn db (sub_shards sc) None []).
  assert (HF : forall db, db ∈ servers cl ->
            F db = (filter (same_options h' db) (sub_shards sc),
                    Ok (first_error
                          (fn <$> filter (same_options h' db)
                                    (sub_shards sc))))).
  { intros db Hdb. unfold F.
    by rewrite (ForEachShard_fn_first_error h' fn db (sub_shards sc))
      by (by apply Hnn). }
  unfold SubCluster_ForEachShard. rewrite Hcl.
  change (SubCluster_ForEachShard_outcome h' sc fn)
    with (fun db o => o = F db).
  split; [| split].
  - by apply (ForEachDB_with_always_ends cl _ F).
  - eexists _, _. apply (Fan_sequential_fun cl F).
    intros db Hdb. rewrite (HF db Hdb). by eexists.
  - intros calls r Hrun.
    destruct (fanout_no_panic cl (fun db o => o = F db) calls r) as [e ->];
      [| exact Hrun |].
    { intros db o Hdb ->. rewrite (HF db Hdb). by eexists. }
    exists e. split; [done |].
    destruct (fanout_error h' cl (sub_shards sc) fn (fun db o => o = F db) calls
                e Hc Hin)
      as [Hnone Hsome]; [| exact Hrun |].
    { intros db o e' Hdb -> He'. rewrite (HF db Hdb) in He'.
      injection He' as <-. split.
      - intros x Hx. apply first_error_Some, list_elem_of_fmap in Hx
          as (s & Hfn & Hs). by exists s.
      - intros Hx s Hs. apply first_error_None in Hx.
        rewrite Forall_fmap, Forall_forall in Hx. symmetry. by apply Hx. }
    destruct (Fan_end _ _ _ _ Hrun) as (outs & HFo & Hil & _).
    apply Forall2_fun_fmap in HFo. subst outs.
    split; [| split; [done | split; [done |]]].
    + intros s Hs. apply interleave_Permutation in Hil. rewrite Hil in Hs.
      apply elem_of_concat in Hs as (tr & Hs & Htr).
      apply list_elem_of_fmap in Htr as (o & -> & Ho).
      apply list_elem_of_fmap in Ho as (db & -> & Hdb).
      rewrite (HF db Hdb) in Hs. simpl in Hs.
      by apply list_elem_of_filter in Hs as [_ Hs].
    + intros Hdist. split.
      * apply (fanout_calls h' cl (sub_shards sc) (fun db o => o = F db) calls
                 e); try done.
        intros db o Hdb ->. by rewrite (HF db Hdb).
      * intros db Hdb.
        apply (constructed_servers_dbs h' cl db Hc) in Hdb.
        apply (interleave_filter (same_options h' db)) in Hil.
        apply list_elem_of_lookup in Hdb as [i Hi].
        apply (interleave_single _ _ Hil i).
        -- rewrite !list_lookup_fmap, Hi. simpl. rewrite (HF db).
           ++ simpl. f_equal. apply list_filter_filter_l. done.
           ++ by eapply list_elem_of_lookup_2.
        -- intros j b Hj Hne.
           rewrite !list_lookup_fmap in Hj.
           destruct (servers cl !! j) as [db'|] eqn:Hj'; [| done].
           simpl in Hj. injection Hj as <-.
           rewrite (HF db') by (by eapply list_elem_of_lookup_2). simpl.
           rewrite list_filter_filter. apply filter_none.
           intros s Hs [Hs1 Hs2].
           destruct (shard_owner h' cl s Hc Hdist (Hin s Hs))
             as (db0 & _ & _ & Hiff).
           apply Hiff in Hs1; [| by eapply list_elem_of_lookup_2].
           apply Hiff in Hs2; [| by eapply list_elem_of_lookup_2].
           subst db db'.
           assert (Hnd : NoDup (servers cl)).
           { rewrite (c_servers _ _ Hc). apply init_servers_NoDup. }
           pose proof (NoDup_lookup _ _ _ _ Hnd Hi Hj'). done.
Qed.

Lemma SubCluster_ForEachShard_window_witness :
  (is_int64 4
   /\ NewClusterWithGen sampleGen [serverA; serverB] 4 None heapAB
       = Ok (clusterAB, heapAB4)
   /\ Cluster_SubCluster clusterAB 1 2
      = Ok {| sub_cl := clusterAB; sub_shards := [Addr 10; Addr 13] |})
  /\ forall calls r,
       SubCluster_ForEachShard heapAB4
         {| sub_cl := clusterAB; sub_shards := [Addr 10; Addr 13] |}
         failOn7 (calls, r) ->
       r = Ok None /\ calls ≡ₚ [Addr 10; Addr 13].
Proof.
  assert (Hint : is_int64 4) by (unfold is_int64; lia).
  split; [split; [done | split; [exact sample_cluster | reflexivity]] |].
  destruct (SubCluster_ForEachShard_window _ _ _ _ _ _ _ 1 2 _ failOn7 Hint
              sample_cluster eq_refl) as (_ & _ & Hall).
  intros calls r Hrun.
  destruct (Hall calls r Hrun) as (e & -> & _ & Hnone & _ & Hperm).
  split.
  - f_equal. apply Hnone. intros s Hs. simpl in Hs.
    apply elem_of_cons in Hs as [->|Hs]; [done |].
    apply elem_of_cons in Hs as [->|Hs]; [done |].
    by apply elem_of_nil in Hs.
  - by destruct (Hperm distinct_options_AB).
Defined.

(** X25. [ForEachNShards] on a sub-cluster that [SubCluster] has returned,
    with [n >= 1]: it always ends and returns, every result of the
    sub-cluster's [ForEachShard] is one of its results, with [n = 1] the two
    have the same results, [fn] is called on shards of the window only, once
    on every shard of the window when the servers answer distinct options,
    and the error is nil exactly when [fn] answers nil on every shard of the
    window. *)
Theorem SubCluster_ForEachNShards_window D dbs0 nshards gen0 (h : Heap) cl
  (h' : Heap) number size sc n (fn : ptr -> error) :
  is_int64 nshards ->
  NewClusterWithGen D dbs0 nshards gen0 h = Ok (cl, h') ->
  Cluster_SubCluster cl number size = Ok sc ->
  1 <= n ->
  always_ends cl (SubCluster_ForEachNShards_outcome h' sc n fn)
  /\ (forall o, SubCluster_ForEachShard h' sc fn o ->
                SubCluster_ForEachNShards h' sc n fn o)
  /\ (forall o, SubCluster_ForEachNShards h' sc 1 fn o
                <-> SubCluster_ForEachShard h' sc fn o)
  /\ forall calls r,
       SubCluster_ForEachNShards h' sc n fn (calls, r) ->
       exists e,
         r = Ok e
         /\ (forall s, s ∈ calls -> s ∈ sub_shards sc)
         /\ (e = None <-> forall s, s ∈ sub_shards sc -> fn s = None)
         /\ (forall x, e = Some x ->
               exists s, s ∈ sub_shards sc /\ fn s = Some x)
         /\ (distinct_options h' dbs0 -> calls ≡ₚ sub_shards sc).
Proof.
  intros Hint Hnew HOk Hn.
  destruct (SubCluster_Ok_inv _ _ _ _ _ _ _ _ _ _ Hint Hnew HOk)
    as (Hcl & Hsub & _).
  apply NewClusterWithGen_inv in Hnew as (_ & Hd & _ & _ & _ & Hc).
  rewrite <- Hd. clear Hd dbs0.
  assert (Hin : forall s, s ∈ sub_shards sc -> s ∈ shards cl).
  { intros s. by apply sublist_elem_of. }
  destruct (fanout_pool h' cl n fn (sub_shards sc) Hc Hn Hin)
    as (Hends & Hincl & Hall).
  unfold SubCluster_ForEachNShards, SubCluster_ForEachShard. rewrite Hcl.
  split; [exact Hends |]. split; [exact Hincl |]. split; [| exact Hall].
  intros o. apply ForEachDB_with_ext. intros db o' Hdb.
  apply ForEachNShards_fn_one.
  apply (no_nil_sub h' db (shards cl)); [done |].
  apply constructed_no_nil; [done |].
  by apply (constructed_servers_dbs h' cl).
Qed.

Lemma SubCluster_ForEachNShards_window_witness :
  (is_int64 4
   /\ NewClusterWithGen sampleGen [serverA; serverB] 4 None heapAB
       = Ok (clusterAB, heapAB4)
   /\ Cluster_SubCluster clusterAB 0 2
      = Ok {| sub_cl := clusterAB; sub_shards := [Addr 4; Addr 7] |}
   /\ 1 <= 2)
  /\ forall calls r,
       SubCluster_ForEachNShards heapAB4
         {| sub_cl := clusterAB; sub_shards := [Addr 4; Addr 7] |}
         2 failOn7 (calls, r) ->
       r = Ok (Some "failed") /\ calls ≡ₚ [Addr 4; Addr 7].
Proof.
  assert (Hint : is_int64 4) by (unfold is_int64; lia).
  split; [split; [done | split; [exact sample_cluster | split;
    [reflexivity | lia]]] |].
  destruct (SubCluster_ForEachNShards_window _ _ _ _ _ _ _ 0 2 _ 2 failOn7
              Hint sample_cluster eq_refl ltac:(lia)) as (_ & _ & _ & Hall).
  intros calls r Hrun.
  destruct (Hall calls r Hrun) as (e & -> & _ & Hnone & Hsome & Hperm).
  split; [| by apply Hperm, distinct_options_AB].
  f_equal. destruct e as [x|].
  - destruct (Hsome x eq_refl) as (s & Hs & Hfn). rewrite <- Hfn.
    simpl in Hs.
    apply elem_of_cons in Hs as [->|Hs]; [done |].
    apply elem_of_cons in Hs as [->|Hs]; [done |].
    by apply elem_of_nil in Hs.
  - exfalso. destruct Hnone as [Hnone _].
    specialize (Hnone eq_refl (Addr 7) ltac:(right; left)). done.
Defined.

(** ** The returned error depends on the scheduling *)

(** The loop of [ForEachDB] starts the goroutines of the servers [pre]
    before any of them runs. *)
Lemma Fan_launch body : forall pre outs rest ts wg ch calls,
  Forall2 body pre outs ->
  rtc (Fan_step body)
    (FLive (mkFan (pre ++ rest) ts wg ch calls))
    (FLive (mkFan rest (ts ++ ((fun o => mkTask o (TRun 0)) <$> outs)) wg ch
              calls)).
Proof.
  induction pre as [|db pre IH]; intros outs rest ts wg ch calls HF.
  - apply Forall2_nil_inv_l in HF as ->. simpl. by rewrite app_nil_r.
  - apply Forall2_cons_inv_l in HF as (o & outs' & Hb & HF & ->).
    csimpl. eapply rtc_l; [by apply F_go |].
    replace (ts ++ mkTask o (TRun 0)
                     :: ((fun o => mkTask o (TRun 0)) <$> outs'))
      with ((ts ++ [mkTask o (TRun 0)])
              ++ ((fun o => mkTask o (TRun 0)) <$> outs'))
      by (by rewrite <- app_assoc).
    by apply IH.
Qed.

(** Once the error channel holds an error, it keeps it, and [ForEachDB]
    returns it. *)
Lemma Fan_err_sticky body x c c' :
  rtc (Fan_step body) c c' ->
  (exists f, c = FLive f /\ f_errCh f = Some x) ->
  match c' with
  | FLive f => f_errCh f = Some x
  | FEnd (_, r) => r = Ok (Some x) \/ exists msg, r = Panic msg
  end.
Proof.
  intros Hrun (f & -> & Hx). revert c' Hrun. apply rtc_ind_r; [done |].
  intros c1 c2 _ Hstep IH.
  destruct Hstep; simpl in *; subst; eauto.
Qed.

(** [ForEachDB] can return the error of any server on which its function
    answers one: the goroutine of that server may be the first to send. *)
Lemma Fan_any_error cl (F : ptr -> Outcome) db x :
  (forall db', db' ∈ servers cl -> exists e, (F db').2 = Ok e) ->
  db ∈ servers cl ->
  (F db).2 = Ok (Some x) ->
  exists calls,
    ForEachDB_with cl (fun db' o => o = F db') (calls, Ok (Some x)).
Proof.
  intros HOk Hdb Hx.
  apply list_elem_of_split in Hdb as (pre & rest & Hsrv).
  destruct (F db) as [tr a] eqn:HF. simpl in Hx. subst a.
  set (body := fun db' o => o = F db').
  set (ts := (fun o => mkTask o (TRun 0)) <$> (F <$> pre ++ [db])).
  assert (Hi : ts !! length pre = Some (mkTask (tr, Ok (Some x)) (TRun 0))).
  { unfold ts. rewrite !list_lookup_fmap.
    rewrite lookup_app_r, Nat.sub_diag by lia. simpl. by rewrite HF. }
  assert (Hrun : rtc (Fan_step body) (Fan_init cl)
            (FLive (mkFan rest
                      (<[length pre := mkTask (tr, Ok (Some x)) TDone]> ts)
                      (length (servers cl)) (Some x) tr))).
  { unfold Fan_init. rewrite Hsrv at 1.
    rewrite (cons_middle db pre rest), app_assoc.
    etrans.
    { apply (Fan_launch body (pre ++ [db]) (F <$> pre ++ [db]) rest []).
      by apply Forall2_fun_fmap. }
    simpl. fold ts. etrans.
    { apply (Fan_run_calls body rest _ None tr (Ok (Some x)) (length tr) 0 ts
               [] (length pre)); [done | exact Hi]. }
    simpl. rewrite drop_0.
    eapply rtc_l.
    { apply (F_err body (length pre) tr x).
      apply list_lookup_insert_eq. by eapply lookup_lt_Some. }
    rewrite list_insert_insert_eq.
    eapply rtc_l.
    { apply (F_send body (length pre) tr x).
      apply list_lookup_insert_eq. by eapply lookup_lt_Some. }
    rewrite list_insert_insert_eq. simpl. done. }
  destruct (ForEachDB_with_never_stuck cl body) with (c := FLive (mkFan rest
              (<[length pre := mkTask (tr, Ok (Some x)) TDone]> ts)
              (length (servers cl)) (Some x) tr)) as [[calls r] Hend];
    [| exact Hrun |].
  { intros db' _. by eexists. }
  assert (Hall : ForEachDB_with cl body (calls, r)).
  { unfold ForEachDB_with. by etrans. }
  exists calls.
  destruct (fanout_no_panic cl body calls r) as [e ->]; [| exact Hall |].
  { intros db' o Hdb' ->. by apply HOk. }
  pose proof (Fan_err_sticky body x _ _ Hend ltac:(by eexists)) as Hst.
  simpl in Hst. destruct Hst as [[= ->]|[msg [=]]]. exact Hall.
Qed.

(** X26. Which error [ForEachDB] returns is decided by the scheduling: on a
    constructed cluster, for every handle of the placement list on which [fn]
    answers an error, some execution of [ForEachDB(fn)] returns that error. *)
Theorem ForEachDB_returns_any_error D dbs0 nshards gen0 (h : Heap) cl
  (h' : Heap) (fn : ptr -> error) db x :
  NewClusterWithGen D dbs0 nshards gen0 h = Ok (cl, h') ->
  db ∈ dbs0 ->
  fn db = Some x ->
  exists calls, ForEachDB cl fn (calls, Ok (Some x)).
Proof.
  intros Hnew Hdb Hfn.
  apply NewClusterWithGen_inv in Hnew as (_ & Hd & _ & _ & _ & Hc).
  rewrite <- Hd in *. clear Hd dbs0.
  apply (Fan_any_error cl (fun db' => ([db'], Ok (fn db'))) db x).
  - intros db' _. by eexists.
  - by apply (constructed_servers_dbs h' cl).
  - simpl. by rewrite Hfn.
Qed.

Lemma ForEachDB_returns_any_error_witness :
  (NewClusterWithGen sampleGen [serverA; serverB] 4 None heapAB
     = Ok (clusterAB, heapAB4)
   /\ serverB ∈ [serverA; serverB]
   /\ failAll serverB = Some "down")
  /\ (exists calls, ForEachDB clusterAB failAll (calls, Ok (Some "down")))
  /\ ForEachDB clusterAB failAll ([serverA; serverB], Ok (Some "A down")).
Proof.
  assert (Hin : serverB ∈ [serverA; serverB]) by (right; left).
  split; [split; [exact sample_cluster | split; [exact Hin | reflexivity]] |].
  split.
  - exact (ForEachDB_returns_any_error _ _ _ _ _ _ _ failAll serverB "down"
             sample_cluster Hin eq_refl).
  - apply (Fan_sequential_fun clusterAB (fun db => ([db], Ok (failAll db)))).
    intros db _. by eexists.
Defined.

(** X27. Which error [ForEachShard] returns is decided by the scheduling:
    on a constructed cluster, for every server whose shards have a first
    error, some execution of [ForEachShard(fn)] returns that error. *)
Theorem ForEachShard_returns_any_error D dbs0 nshards gen0 (h : Heap) cl
  (h' : Heap) (fn : ptr -> error) db x :
  NewClusterWithGen D dbs0 nshards gen0 h = Ok (cl, h') ->
  db ∈ dbs0 ->
  first_error (fn <$> filter (same_options h' db) (shards cl)) = Some x ->
  exists calls, ForEachShard h' cl fn (calls, Ok (Some x)).
Proof.
  intros Hnew Hdb Hfn.
  apply NewClusterWithGen_inv in Hnew as (_ & Hd & _ & _ & _ & Hc).
  rewrite <- Hd in *. clear Hd dbs0.
  assert (HF : forall db', db' ∈ servers cl ->
            ForEachShard_fn h' fn db' (shards cl) None []
            = (filter (same_options h' db') (shards cl),
               Ok (first_error
                     (fn <$> filter (same_options h' db') (shards cl))))).
  { intros db' Hdb'.
    rewrite (ForEachShard_fn_first_error h' fn db' (shards cl)); [done |].
    apply constructed_no_nil; [done |].
    by apply (constructed_servers_dbs h' cl). }
  apply (constructed_servers_dbs h' cl db Hc) in Hdb.
  apply (Fan_any_error cl
           (fun db' => ForEachShard_fn h' fn db' (shards cl) None []) db x).
  - intros db' Hdb'. rewrite (HF db' Hdb'). by eexists.
  - done.
  - rewrite (HF db Hdb). simpl. by rewrite Hfn.
Qed.

Lemma ForEachShard_returns_any_error_witness :
  (NewClusterWithGen sampleGen [serverA; serverB] 4 None heapAB
     = Ok (clusterAB, heapAB4)
   /\ serverB ∈ [serverA; serverB]
   /\ first_error
        (failAll <$> filter (same_options heapAB4 serverB) (shards clusterAB))
      = Some "down")
  /\ exists calls, ForEachShard heapAB4 clusterAB failAll
                     (calls, Ok (Some "down")).
Proof.
  assert (Hin : serverB ∈ [serverA; serverB]) by (right; left).
  split; [split; [exact sample_cluster | split; [exact Hin | reflexivity]] |].
  exact (ForEachShard_returns_any_error _ _ _ _ _ _ _ failAll serverB "down"
           sample_cluster Hin eq_refl).
Defined.

(** ** Names of logical shards *)

Lemma constructed_shard_name (h : Heap) cl i s :
  constructed h cl ->
  shards cl !! i = Some s ->
  shard_name h s = Some ("shard" +:+ FormatInt (Z.of_nat i)).
Proof.
  intros Hc Hi.
  destruct (c_bound _ _ Hc (Z.of_nat i)) as (s' & db & Hs' & _ & Hof).
  { apply lookup_lt_Some in Hi. unfold len. lia. }
  rewrite Nat2Z.id in Hs'. assert (s' = s) as -> by congruence.
  destruct Hof as (o & _ & Hso).
  unfold shard_name. by rewrite Hso, shardObj_name.
Qed.

(** X28. The name of a logical shard, [Shard.Name()], determines its id;
    and the schema name a constructed cluster binds to its shard of index [i]
    is the [String()] of the logical shards of id [i], and of no other. *)
Theorem Shard_Name_of_id D dbs0 nshards gen0 (h : Heap) cl (h' : Heap) :
  NewClusterWithGen D dbs0 nshards gen0 h = Ok (cl, h') ->
  (forall sh1 sh2,
     Shard_Name sh1 = Shard_Name sh2 -> Shard_Id sh1 = Shard_Id sh2)
  /\ (forall sh i s,
        shards cl !! i = Some s ->
        (shard_name h' s = Some (Shard_String sh)
         <-> Shard_Id sh = Z.of_nat i)).
Proof.
  intros Hnew.
  apply NewClusterWithGen_inv in Hnew as (_ & _ & _ & _ & _ & Hc).
  assert (Hinj : forall a b : Z,
            "shard" +:+ FormatInt a = "shard" +:+ FormatInt b -> a = b).
  { intros a b Heq. apply String.app_inj in Heq. by apply (inj pretty). }
  split.
  - intros sh1 sh2. unfold Shard_Name, Shard_Id. apply Hinj.
  - intros sh i s Hi. rewrite (constructed_shard_name h' cl i s Hc Hi).
    unfold Shard_String, Shard_Name, Shard_Id. split.
    + intros Heq. apply (inj Some) in Heq. symmetry. by apply Hinj.
    + by intros ->.
Qed.

Lemma Shard_Name_of_id_witness :
  NewClusterWithGen sampleGen [serverA; serverB] 4 None heapAB
    = Ok (clusterAB, heapAB4)
  /\ shard_name heapAB4 (Addr 13)
     = Some (Shard_String (mkLogicalShard 3 serverB [])).
Proof.
  split; [exact sample_cluster |].
  destruct (Shard_Name_of_id _ _ _ _ _ _ _ sample_cluster) as [_ Hname].
  by apply (Hname (mkLogicalShard 3 serverB []) 3%nat (Addr 13)).
Defined.
